(** * Persistence schema, token ledger and PDF-export typing shim

    The repository consists of a Prisma schema ([prisma/schema.prisma]) and an
    ambient type declaration ([app/types/html2pdf.d.ts]).  The schema is
    transcribed declaration by declaration as a value of the small schema
    language below; the behaviour of the Prisma client over a PostgreSQL store
    (defaults, [@updatedAt], unique and foreign-key constraints, referential
    actions) is given as an executable interpreter of that language. *)

From Stdlib Require Import ZArith String Ascii.
From Stdlib Require Import Floats.PrimFloat Floats.SpecFloat Floats.FloatOps.
From stdpp Require Import base option list gmap strings.

#[local] Set Warnings "-register-all".
#[local] Open Scope Z_scope.
#[local] Open Scope string_scope.
#[local] Open Scope list_scope.

(** ** The schema language *)

Module Prisma.

Inductive scalar :=
| TString | TInt | TFloat | TDateTime | TJson
| TEnum (name : string).

Inductive arity := Required | Optional | Many.

Inductive default_value :=
| DefaultUuid                    (* @default(uuid()) *)
| DefaultCuid                    (* @default(cuid()) *)
| DefaultNow                     (* @default(now())  *)
| DefaultInt (z : Z)
| DefaultString (s : string)
| DefaultEnum (c : string).

Inductive attribute :=
| AttrId
| AttrUnique
| AttrDefault (d : default_value)
| AttrUpdatedAt
| AttrDbText.

Record field := Field {
  fname : string;
  ftype : scalar;
  farity : arity;
  fattrs : list attribute
}.

Inductive action := Cascade | Restrict | NoAction | SetNull | SetDefault.

(** The arguments of [@relation(fields: [...], references: [...])], with the
    optional [onDelete:] and [onUpdate:] arguments. *)
Record link := Link {
  lfields : list string;
  lreferences : list string;
  lonDelete : option action;
  lonUpdate : option action
}.

(** A relation field; the side that carries no [@relation] arguments has
    [rlink = None]. *)
Record relation := Relation {
  rname : string;
  rtarget : string;
  rarity : arity;
  rlink : option link
}.

Record model := Model {
  mname : string;
  mfields : list field;
  mrelations : list relation;
  mindexes : list (list string)
}.

Record enum := EnumDecl {
  ename : string;
  evalues : list string
}.

Record schema := Schema {
  provider : string;
  models : list model;
  enums : list enum
}.

#[global] Instance scalar_eq_dec : EqDecision scalar.
Proof. solve_decision. Defined.
#[global] Instance arity_eq_dec : EqDecision arity.
Proof. solve_decision. Defined.
#[global] Instance default_value_eq_dec : EqDecision default_value.
Proof. solve_decision. Defined.
#[global] Instance attribute_eq_dec : EqDecision attribute.
Proof. solve_decision. Defined.
#[global] Instance action_eq_dec : EqDecision action.
Proof. solve_decision. Defined.

#[global] Instance field_eq_dec : EqDecision field.
Proof. solve_decision. Defined.
#[global] Instance link_eq_dec : EqDecision link.
Proof. solve_decision. Defined.
#[global] Instance relation_eq_dec : EqDecision relation.
Proof. solve_decision. Defined.
#[global] Instance model_eq_dec : EqDecision model.
Proof. solve_decision. Defined.

(** *** Reading a declaration *)

Definition has_attr (a : attribute) (f : field) : bool :=
  bool_decide (a ∈ fattrs f).

Definition is_unique (f : field) : bool :=
  has_attr AttrId f || has_attr AttrUnique f.

Definition is_updatedAt (f : field) : bool := has_attr AttrUpdatedAt f.

Fixpoint attrs_default (l : list attribute) : option default_value :=
  match l with
  | [] => None
  | AttrDefault d :: _ => Some d
  | _ :: l' => attrs_default l'
  end.

Definition field_default (f : field) : option default_value :=
  attrs_default (fattrs f).

Definition field_names (M : model) : list string := fname <$> mfields M.

Definition unique_fields (M : model) : list string :=
  fname <$> filter (λ f, is_unique f = true) (mfields M).

Definition find_model (S : schema) (m : string) : option model :=
  List.find (λ M, bool_decide (mname M = m)) (models S).

Definition find_field (M : model) (f : string) : option field :=
  List.find (λ x, bool_decide (fname x = f)) (mfields M).

Definition enum_values (S : schema) (e : string) : list string :=
  match List.find (λ E, bool_decide (ename E = e)) (enums S) with
  | Some E => evalues E
  | None => []
  end.

(** A foreign key: the referencing column, the referenced model and column,
    the arity of the relation field and the declared referential actions. *)
Record fkey := FKey {
  fk_field : string;
  fk_target : string;
  fk_ref : string;
  fk_arity : arity;
  fk_onDelete : option action;
  fk_onUpdate : option action
}.

(** Every [@relation] of the schema names one column on each side; a
    relation with several is outside what is interpreted here. *)
Definition relation_fkey (r : relation) : option fkey :=
  match rlink r with
  | Some (Link [f] [g] od ou) => Some (FKey f (rtarget r) g (rarity r) od ou)
  | _ => None
  end.

#[global] Instance fkey_eq_dec : EqDecision fkey.
Proof. solve_decision. Defined.

Definition foreign_keys (M : model) : list fkey :=
  omap relation_fkey (mrelations M).

(** Prisma's defaults when a relation spells no referential action:
    [onDelete] is [Restrict] for a required relation and [SetNull] for an
    optional one, [onUpdate] is [Cascade]. *)
Definition on_delete (k : fkey) : action :=
  match fk_onDelete k with
  | Some a => a
  | None => match fk_arity k with Optional => SetNull | _ => Restrict end
  end.

Definition on_update (k : fkey) : action :=
  match fk_onUpdate k with
  | Some a => a
  | None => Cascade
  end.




(** The referential actions the relations of a schema spell out. *)
Definition declared_actions (S : schema) : list action :=
  M ← models S;
  k ← foreign_keys M;
  omap id [fk_onDelete k; fk_onUpdate k].

(** The foreign keys of the whole schema that point at model [m], each
    paired with the name of the model that holds it. *)
Definition referencing (S : schema) (m : string) : list (string * fkey) :=
  M ← models S;
  (λ k, (mname M, k)) <$> filter (λ k, fk_target k = m) (foreign_keys M).

End Prisma.

(** ** [prisma/schema.prisma] *)

Module Schema.
Import Prisma.

Definition id_uuid : field := Field "id" TString Required [AttrId; AttrDefault DefaultUuid].
Definition id_cuid : field := Field "id" TString Required [AttrId; AttrDefault DefaultCuid].
Definition createdAt : field := Field "createdAt" TDateTime Required [AttrDefault DefaultNow].
Definition updatedAt : field := Field "updatedAt" TDateTime Required [AttrUpdatedAt].

(** [user User @relation(fields: [userId], references: [id])] *)
Definition user_relation : relation :=
  Relation "user" "User" Required (Some (Link ["userId"] ["id"] None None)).

Definition User : model :=
  Model "User"
    [ id_uuid;
      Field "clerkUserId" TString Required [AttrUnique];
      Field "email" TString Required [AttrUnique];
      Field "name" TString Optional [];
      Field "imageUrl" TString Optional [];
      Field "industry" TString Optional [];
      Field "tokens" TInt Required [AttrDefault (DefaultInt 10000)];
      createdAt;
      updatedAt;
      Field "bio" TString Optional [];
      Field "experience" TInt Optional [];
      Field "skills" TString Many [] ]
    [ Relation "industryInsight" "IndustryInsight" Optional
        (Some (Link ["industry"] ["industry"] None None));
      Relation "assessments" "Assessment" Many None;
      Relation "resume" "Resume" Optional None;
      Relation "coverLetter" "CoverLetter" Many None;
      Relation "tokenTransactions" "TokenTransaction" Many None;
      Relation "payments" "Payment" Many None ]
    [].

Definition Assessment : model :=
  Model "Assessment"
    [ id_cuid;
      Field "userId" TString Required [];
      Field "quizScore" TFloat Required [];
      Field "questions" TJson Many [];
      Field "category" TString Required [];
      Field "improvementTip" TString Required [];
      createdAt;
      updatedAt ]
    [ user_relation ]
    [ ["userId"] ].

Definition Resume : model :=
  Model "Resume"
    [ id_cuid;
      Field "userId" TString Required [AttrUnique];
      Field "content" TString Required [AttrDbText];
      Field "atsScore" TFloat Required [];
      Field "feedback" TString Required [];
      createdAt;
      updatedAt ]
    [ user_relation ]
    [].

Definition CoverLetter : model :=
  Model "CoverLetter"
    [ id_cuid;
      Field "userId" TString Required [];
      Field "content" TString Required [];
      Field "jobDescription" TString Optional [];
      Field "companyName" TString Required [];
      Field "jobTitle" TString Required [];
      createdAt;
      updatedAt ]
    [ user_relation ]
    [ ["userId"] ].

Definition IndustryInsight : model :=
  Model "IndustryInsight"
    [ id_cuid;
      Field "industry" TString Required [AttrUnique];
      Field "salaryRanges" TJson Many [];
      Field "growthRate" TFloat Required [];
      Field "demandLevel" (TEnum "DemandLevel") Required [];
      Field "topSkills" TString Many [];
      Field "marketOutlook" (TEnum "MarketOutlook") Required [];
      Field "keyTrends" TString Many [];
      Field "recommendedSkills" TString Many [];
      Field "lastUpdated" TDateTime Required [AttrDefault DefaultNow];
      Field "nextUpdate" TDateTime Required [AttrUpdatedAt] ]
    [ Relation "users" "User" Many None ]
    [ ["industry"] ].

Definition DemandLevel : enum := EnumDecl "DemandLevel" ["HIGH"; "MEDIUM"; "LOW"].

Definition MarketOutlook : enum :=
  EnumDecl "MarketOutlook" ["POSITIVE"; "NEUTRAL"; "NEGATIVE"].

Definition TokenTransaction : model :=
  Model "TokenTransaction"
    [ id_cuid;
      Field "userId" TString Required [];
      Field "amount" TInt Required [];
      Field "description" TString Required [];
      Field "featureType" TString Optional [];
      createdAt ]
    [ user_relation ]
    [ ["userId"] ].

Definition Payment : model :=
  Model "Payment"
    [ id_cuid;
      Field "userId" TString Required [];
      Field "amount" TFloat Required [];
      Field "currency" TString Required [AttrDefault (DefaultString "INR")];
      Field "razorpayId" TString Required [AttrUnique];
      Field "status" (TEnum "PaymentStatus") Required [AttrDefault (DefaultEnum "PENDING")];
      Field "tokensAdded" TInt Required [];
      createdAt;
      updatedAt ]
    [ user_relation ]
    [ ["userId"] ].

Definition FeatureCost : model :=
  Model "FeatureCost"
    [ id_cuid;
      Field "featureName" TString Required [AttrUnique];
      Field "tokenCost" TInt Required [];
      Field "description" TString Optional [] ]
    []
    [].

Definition PaymentStatus : enum :=
  EnumDecl "PaymentStatus" ["PENDING"; "COMPLETED"; "FAILED"].

(** The columns the schema marks [@unique], primary keys and the Resume's
    owner apart. *)
Definition unique_columns : list (string * string) :=
  [ ("User", "clerkUserId"); ("User", "email");
    ("IndustryInsight", "industry");
    ("Payment", "razorpayId");
    ("FeatureCost", "featureName") ].

(** The models whose rows belong to a User through [userId]. *)
Definition owned : list string :=
  [ "Assessment"; "Resume"; "CoverLetter"; "TokenTransaction"; "Payment" ].

Definition schema : Prisma.schema :=
  Schema "postgresql"
    [ User; Assessment; Resume; CoverLetter; IndustryInsight;
      TokenTransaction; Payment; FeatureCost ]
    [ DemandLevel; MarketOutlook; PaymentStatus ].

End Schema.

(** ** The store: Prisma client operations over a PostgreSQL database *)

Module Store.
Import Prisma.

Inductive json :=
| JNull
| JBool (b : bool)
| JNumber (x : float)
| JString (s : string)
| JArray (l : list json)
| JObject (l : list (string * json)).

(** A column value, as a caller supplies it and as the store holds it.  A
    [DateTime] is the number of milliseconds since the epoch of the instant
    it denotes, whether the caller gave a [Date] or an ISO-8601 text; an
    [Int] is PostgreSQL's [integer], whose range [fits_int] checks; a value
    of a [Json] column is a [VJson]. *)
Inductive value :=
| VNull
| VString (s : string)
| VInt (z : Z)
| VFloat (x : float)
| VDateTime (t : Z)
| VEnum (c : string)
| VJson (j : json)
| VList (l : list value).

Abbreviation row := (gmap string value) (only parsing).
Abbreviation db := (gmap string (list (gmap string value))) (only parsing).

(** The errors of the Prisma client: a request that does not fit the schema,
    and the three database errors P2002, P2003 and P2025.  [Unsupported]
    marks a referential action this interpreter does not give a meaning to. *)
Inductive error :=
| ValidationError
| UniqueConstraint
| ForeignKeyConstraint
| RecordNotFound
| Unsupported.

Inductive result (E A : Type) :=
| Ok (a : A)
| Err (e : E).
Arguments Ok {E A} a.
Arguments Err {E A} e.

#[global] Instance result_bind {E} : MBind (result E) :=
  λ A B f x, match x with Ok a => f a | Err e => Err e end.

#[global] Instance result_ret {E} : MRet (result E) := λ A a, Ok a.

#[global] Instance result_fmap {E} : FMap (result E) :=
  λ A B f x, match x with Ok a => Ok (f a) | Err e => Err e end.

(** An [Int] column of a PostgreSQL datasource is an [integer]: four bytes,
    signed.  A value outside this range is refused, by the client when it
    is given as data and by the database when arithmetic produces it;
    nothing wraps around. *)
Definition int_min : Z := -2147483648.
Definition int_max : Z := 2147483647.

Definition fits_int (z : Z) : bool := ((int_min <=? z) && (z <=? int_max))%Z.

(** *** What can be stored

    PostgreSQL text cannot hold the character U+0000, a JSON number is
    finite, and the client exchanges a [DateTime] in a form that has four
    digits for the year: years 0 to 9999. *)
Definition text_ok (s : string) : bool :=
  negb (existsb (λ c, Ascii.eqb c Ascii.zero) (list_ascii_of_string s)).

(** 0000-01-01T00:00:00.000Z and 9999-12-31T23:59:59.999Z, in milliseconds
    since the epoch. *)
Definition time_min : Z := -62167219200000.
Definition time_max : Z := 253402300799999.

Definition time_ok (t : Z) : bool := ((time_min <=? t) && (t <=? time_max))%Z.

Fixpoint json_ok (j : json) : bool :=
  match j with
  | JNull | JBool _ => true
  | JNumber x => is_finite x
  | JString s => text_ok s
  | JArray l => forallb json_ok l
  | JObject l =>
    (fix go (l : list (string * json)) :=
       match l with
       | [] => true
       | (k, x) :: l' => text_ok k && json_ok x && go l'
       end) l
  end.

(** A value the caller supplies can be stored: text without U+0000, a
    finite number, a time within range, a JSON value that is not the bare
    null. *)
Fixpoint storable (v : value) : bool :=
  match v with
  | VNull | VInt _ | VEnum _ => true
  | VString s => text_ok s
  | VFloat x => is_finite x
  | VDateTime t => time_ok t
  | VJson JNull => false
  | VJson j => json_ok j
  | VList l => forallb storable l
  end.

(** The integer part of a number, towards zero; none for an infinity or a
    NaN. *)
Definition truncate (x : float) : option Z :=
  match Prim2SF x with
  | S754_zero _ => Some 0
  | S754_finite s m e =>
    let a := if (0 <=? e)%Z then Z.shiftl (Zpos m) e else Z.shiftr (Zpos m) (- e) in
    Some (if s then - a else a)
  | _ => None
  end.

(** The floating-point number nearest to an integer. *)
Definition float_of_Z (z : Z) : float :=
  SF2Prim (binary_normalize prec emax z 0 false).

(** An update with no data sends nothing to the database. *)
Definition touched (data : row) : bool := negb (bool_decide (data = ∅)).

Definition table (d : db) (m : string) : list row := default [] (d !! m).

(** The key a row holds in a string column, if it is set. *)
Definition skey (f : string) (r : row) : option string :=
  match r !! f with
  | Some (VString s) => Some s
  | _ => None
  end.

Definition keys (f : string) (rows : list row) : list string :=
  omap (skey f) rows.

Definition find_row (f k : string) (rows : list row) : option (nat * row) :=
  list_find (λ r, skey f r = Some k) rows.

(** Apply [g c] to every row of every table [c]. *)
Definition map_tables (g : string → row → row) (d : db) : db :=
  map_imap (λ c (rows : list row), Some (g c <$> rows)) d.

Section interpreter.
Variable S : schema.

(** A stored value is of the type of its column.  What a caller supplies
    is checked by [accept] below, which first reads it by the type of the
    column and then asks that it can be stored. *)
Definition scalar_ok (t : scalar) (v : value) : bool :=
  match t, v with
  | TString, VString _ => true
  | TInt, VInt z => fits_int z
  | TFloat, VFloat _ => true
  | TDateTime, VDateTime _ => true
  | TJson, VJson _ => true
  | TEnum e, VEnum c => bool_decide (c ∈ enum_values S e)
  | _, _ => false
  end.

Definition value_ok (f : field) (v : value) : bool :=
  match farity f with
  | Required => scalar_ok (ftype f) v
  | Optional => match v with VNull => true | _ => scalar_ok (ftype f) v end
  | Many => match v with VList l => forallb (scalar_ok (ftype f)) l | _ => false end
  end.

(** The client reads what the caller supplies by the type of the column: a
    number given for an [Int] column is cut to its integer part, an integer
    given for a [Float] column is that number, and the name of an enum value
    may come as a string. *)
Definition coerce_scalar (t : scalar) (v : value) : value :=
  match t, v with
  | TInt, VFloat x => match truncate x with Some z => VInt z | None => v end
  | TFloat, VInt z => VFloat (float_of_Z z)
  | TEnum _, VString s => VEnum s
  | _, _ => v
  end.

Definition coerce (f : field) (v : value) : value :=
  match farity f, v with
  | Many, VList l => VList (coerce_scalar (ftype f) <$> l)
  | Many, _ => v
  | _, _ => coerce_scalar (ftype f) v
  end.

(** The value stored for a supplied one, when it is of the column's type
    and can be stored; else the request is refused. *)
Definition accept (f : field) (v : value) : result error value :=
  let w := coerce f v in
  if value_ok f w && storable w then Ok w else Err ValidationError.

(** [gen] is the identifier that [uuid()] or [cuid()] produces for this
    call and [now] the time of the call: what the generator and the clock
    give is stored as it is, and only what the caller supplies is
    checked. *)
Definition default_of (now : Z) (gen : string) (d : default_value) : value :=
  match d with
  | DefaultUuid | DefaultCuid => VString gen
  | DefaultNow => VDateTime now
  | DefaultInt z => VInt z
  | DefaultString s => VString s
  | DefaultEnum c => VEnum c
  end.

(** The value a column gets at insert: the one supplied, else its
    [@default], else the time for an [@updatedAt] column, else null or the
    empty list; a required column with none of these is a request error. *)
Definition new_value (now : Z) (gen : string) (data : row) (f : field)
  : result error value :=
  match data !! fname f with
  | Some v => accept f v
  | None =>
    match field_default f with
    | Some dv => Ok (default_of now gen dv)
    | None =>
      if is_updatedAt f then Ok (VDateTime now)
      else match farity f with
           | Optional => Ok VNull
           | Many => Ok (VList [])
           | Required => Err ValidationError
           end
    end
  end.

Fixpoint build_row (now : Z) (gen : string) (fs : list field) (data : row)
  : result error row :=
  match fs with
  | [] => Ok ∅
  | f :: fs' =>
    v ← new_value now gen data f;
    r ← build_row now gen fs' data;
    Ok (<[fname f := v]> r)
  end.

(** The value a column gets at update: the one supplied, else the time
    for an [@updatedAt] column when the update writes anything at all, else
    what it held. *)
Fixpoint update_row (now : Z) (fs : list field) (data old : row)
  : result error row :=
  match fs with
  | [] => Ok old
  | f :: fs' =>
    r ← update_row now fs' data old;
    match data !! fname f with
    | Some v => w ← accept f v; Ok (<[fname f := w]> r)
    | None =>
      if is_updatedAt f && touched data then Ok (<[fname f := VDateTime now]> r)
      else Ok r
    end
  end.

(** What [update_row] leaves in the column of [f]. *)
Definition updated_value (now : Z) (data old : row) (f : field) : option value :=
  match data !! fname f with
  | Some v => Some (coerce f v)
  | None =>
    if is_updatedAt f && touched data then Some (VDateTime now)
    else old !! fname f
  end.

Definition data_known (M : model) (data : row) : bool :=
  bool_decide (map_Forall (λ k _, k ∈ field_names M) data).

Definition unique_ok (M : model) (rows : list row) (r : row) : bool :=
  forallb (λ f, match skey f r with
                | Some k => bool_decide (k ∉ keys f rows)
                | None => true
                end) (unique_fields M).

Definition fk_ok (M : model) (d : db) (r : row) : bool :=
  forallb (λ k, match skey (fk_field k) r with
                | Some s => bool_decide (s ∈ keys (fk_ref k) (table d (fk_target k)))
                | None => true
                end) (foreign_keys M).

(** The row a create request describes, before the database is asked. *)
Definition prepare (now : Z) (gen : string) (m : string) (data : row)
  : result error row :=
  match find_model S m with
  | None => Err ValidationError
  | Some M =>
    if negb (data_known M data) then Err ValidationError
    else build_row now gen (mfields M) data
  end.

(** [prisma.<m>.create({ data })] *)
Definition create (now : Z) (gen : string) (m : string) (data : row) (d : db)
  : result error (row * db) :=
  match find_model S m with
  | None => Err ValidationError
  | Some M =>
    r ← prepare now gen m data;
    if negb (unique_ok M (table d m) r) then Err UniqueConstraint else
    if negb (fk_ok M d r) then Err ForeignKeyConstraint else
    Ok (r, <[m := table d m ++ [r]]> d)
  end.

(** The foreign keys of table [c] that point at model [m]. *)
Definition fkeys_to (c m : string) : list fkey :=
  match find_model S c with
  | Some C => filter (λ k, fk_target k = m) (foreign_keys C)
  | None => []
  end.

Definition update_supported (k : fkey) : bool :=
  match on_update k with
  | Cascade | Restrict | NoAction => true
  | _ => false
  end.

Definition delete_supported (k : fkey) : bool :=
  match on_delete k with
  | Restrict | NoAction | SetNull => true
  | _ => false
  end.

(** A row of table [c] refers to the key that [old] holds in the column
    [k] references. *)
Definition refers (k : fkey) (old : row) (r : row) : bool :=
  match skey (fk_ref k) old with
  | Some ko => bool_decide (skey (fk_field k) r = Some ko)
  | None => false
  end.

Definition rekeyed (k : fkey) (old new : row) : bool :=
  bool_decide (skey (fk_ref k) old ≠ skey (fk_ref k) new).

(** An update that changes a referenced key is rejected when a row refers to
    it through a relation whose [onUpdate] is [Restrict] or [NoAction]. *)
Definition update_blocked (m : string) (old new : row) (d : db) : bool :=
  existsb (λ ck : string * fkey,
             match on_update ck.2 with
             | Restrict | NoAction =>
               rekeyed ck.2 old new && existsb (refers ck.2 old) (table d ck.1)
             | _ => false
             end) (referencing S m).

(** [onUpdate: Cascade]: the rows of table [c] that referred to the old key
    follow it to the new one. *)
Definition follows (k : fkey) (old new : row) (r : row) : bool :=
  match on_update k with
  | Cascade => rekeyed k old new && refers k old r
  | _ => false
  end.

Definition retarget_with (old new : row) (ks : list fkey) (r : row) : row :=
  foldr (λ k r,
           if follows k old new r then
             match skey (fk_ref k) new with
             | Some kn => <[fk_field k := VString kn]> r
             | None => r
             end
           else r) r ks.

Definition retarget_row (m : string) (old new : row) (c : string) (r : row) : row :=
  retarget_with old new (fkeys_to c m) r.

(** A delete is rejected when a row refers to the deleted one through a
    relation whose [onDelete] is [Restrict] or [NoAction]. *)
Definition delete_blocked (m : string) (old : row) (d : db) : bool :=
  existsb (λ ck : string * fkey,
             match on_delete ck.2 with
             | Restrict | NoAction => existsb (refers ck.2 old) (table d ck.1)
             | _ => false
             end) (referencing S m).

(** [onDelete: SetNull]: the rows of table [c] that referred to the deleted
    row lose the reference. *)
Definition detach_with (old : row) (ks : list fkey) (r : row) : row :=
  foldr (λ k r,
           match on_delete k with
           | SetNull => if refers k old r then <[fk_field k := VNull]> r else r
           | _ => r
           end) r ks.

Definition detach_row (m : string) (old : row) (c : string) (r : row) : row :=
  detach_with old (fkeys_to c m) r.

(** [prisma.<m>.update({ where: { wf: wk }, data })]; [wf] must be an [@id]
    or [@unique] column. *)
Definition update (now : Z) (m wf wk : string) (data : row) (d : db)
  : result error (row * db) :=
  match find_model S m with
  | None => Err ValidationError
  | Some M =>
    if negb (bool_decide (wf ∈ unique_fields M)) then Err ValidationError else
    if negb (data_known M data) then Err ValidationError else
    match find_row wf wk (table d m) with
    | None => Err RecordNotFound
    | Some (i, old) =>
      new ← update_row now (mfields M) data old;
      if negb (unique_ok M (delete i (table d m)) new) then Err UniqueConstraint else
      if negb (fk_ok M d new) then Err ForeignKeyConstraint else
      if negb (forallb (λ ck, update_supported ck.2) (referencing S m)) then Err Unsupported else
      if update_blocked m old new d then Err ForeignKeyConstraint else
      Ok (new, map_tables (retarget_row m old new)
                 (<[m := <[i := new]> (table d m)]> d))
    end
  end.

(** [prisma.<m>.delete({ where: { wf: wk } })] *)
Definition remove (m wf wk : string) (d : db) : result error (row * db) :=
  match find_model S m with
  | None => Err ValidationError
  | Some M =>
    if negb (bool_decide (wf ∈ unique_fields M)) then Err ValidationError else
    match find_row wf wk (table d m) with
    | None => Err RecordNotFound
    | Some (i, old) =>
      if negb (forallb (λ ck, delete_supported ck.2) (referencing S m)) then Err Unsupported else
      if delete_blocked m old d then Err ForeignKeyConstraint else
      Ok (old, map_tables (detach_row m old)
                 (<[m := delete i (table d m)]> d))
    end
  end.

(** [prisma.<m>.findUnique({ where: { wf: wk } })] *)
Definition find_unique (m wf wk : string) (d : db) : option row :=
  snd <$> find_row wf wk (table d m).

(** *** What the interpreter expects of a schema

    The checks Prisma's own schema validation makes, for the part of the
    language interpreted here: names are distinct, [@id] and [@unique]
    columns and the two sides of every relation are string columns, a
    default fits its column, a referenced column is unique, and a relation
    that sets null on delete has an optional column. *)

Definition column_is (M : model) (f : string) (t : scalar) (a : arity) : bool :=
  match find_field M f with
  | Some x => bool_decide (ftype x = t) && bool_decide (farity x = a)
  | None => false
  end.

Definition default_ok (f : field) : bool :=
  match field_default f with
  | Some dv => value_ok f (default_of 0 "" dv)
  | None => true
  end
  && (negb (is_updatedAt f) || value_ok f (VDateTime 0)).

Definition fkey_ok (M : model) (k : fkey) : bool :=
  match find_model S (fk_target k) with
  | Some P =>
    bool_decide (fk_target k ≠ mname M)
    && bool_decide (fk_ref k ∈ unique_fields P)
    && bool_decide (fk_ref k ∉ fk_field <$> foreign_keys P)
    && (column_is M (fk_field k) TString Required
        || column_is M (fk_field k) TString Optional)
    && (negb (bool_decide (on_delete k = SetNull))
        || column_is M (fk_field k) TString Optional)
    && update_supported k && delete_supported k
  | None => false
  end.

Definition model_ok (M : model) : bool :=
  bool_decide (NoDup (field_names M))
  && forallb default_ok (mfields M)
  && forallb (λ f, column_is M f TString Required) (unique_fields M)
  && bool_decide (NoDup (fk_field <$> foreign_keys M))
  && forallb (fkey_ok M) (foreign_keys M)
  && bool_decide (length (foreign_keys M)
                  = length (filter (λ r, is_Some (rlink r)) (mrelations M))).

Definition well_formed : bool :=
  bool_decide (NoDup (mname <$> models S)) && forallb model_ok (models S).

(** *** The constraints of the database *)

Definition row_ok (M : model) (r : row) : Prop :=
  ∀ f, f ∈ mfields M → ∃ v, r !! fname f = Some v ∧ value_ok f v = true.

Record consistent (d : db) : Prop := Consistent {
  rows_typed : ∀ M r, M ∈ models S → r ∈ table d (mname M) → row_ok M r;
  keys_unique : ∀ M f, M ∈ models S → f ∈ unique_fields M →
    NoDup (keys f (table d (mname M)));
  refs_resolve : ∀ M k r s, M ∈ models S → k ∈ foreign_keys M →
    r ∈ table d (mname M) → skey (fk_field k) r = Some s →
    s ∈ keys (fk_ref k) (table d (fk_target k))
}.

(** The database after a call: a call that fails leaves it as it was. *)
Definition after {E A} (x : result E (A * db)) (d : db) : db :=
  match x with
  | Ok (_, d') => d'
  | Err _ => d
  end.

Definition is_ok {E A} (x : result E A) : bool :=
  match x with
  | Ok _ => true
  | Err _ => false
  end.

(** No two rows of table [m] hold the same value in column [f]. *)
Definition no_two_share (d : db) (m f : string) : Prop :=
  ∀ i j r1 r2, table d m !! i = Some r1 → table d m !! j = Some r2 →
    i ≠ j → r1 !! f ≠ r2 !! f.

(** The row a call returns, when it returns one. *)
Definition returned {E} (x : result E (row * db)) : row :=
  match x with
  | Ok (r, _) => r
  | Err _ => ∅
  end.

(** The value a caller supplied for column [c], else [v]. *)
Definition supplied_or (data : row) (c : string) (v : option value) : option value :=
  match data !! c with
  | Some x => Some x
  | None => v
  end.

(** One successful write of a client. *)
Inductive step : db → db → Prop :=
| step_create now gen m data d r d' :
    create now gen m data d = Ok (r, d') → step d d'
| step_update now m wf wk data d r d' :
    update now m wf wk data d = Ok (r, d') → step d d'
| step_remove m wf wk d r d' :
    remove m wf wk d = Ok (r, d') → step d d'.

Definition reachable (d : db) : Prop := rtc step ∅ d.

End interpreter.

End Store.

(** ** Example databases *)

Module Sample.
Import Prisma Store.

Definition alice : row :=
  {[ "clerkUserId" := VString "clerk_1"; "email" := VString "alice@example.com" ]}.

Definition bob : row :=
  {[ "clerkUserId" := VString "clerk_2"; "email" := VString "bob@example.com" ]}.

(** Bob signing up with Alice's address. *)
Definition impostor : row :=
  {[ "clerkUserId" := VString "clerk_2"; "email" := VString "alice@example.com" ]}.

Definition resume_of (userId : string) : row :=
  {[ "userId" := VString userId; "content" := VString "# Resume";
     "atsScore" := VFloat PrimFloat.one; "feedback" := VString "" ]}.

Definition row_of (x : result error row) : row :=
  match x with
  | Ok r => r
  | Err _ => ∅
  end.

Definition nth_row (rows : list row) (i : nat) : row := default ∅ (rows !! i).

Definition impostor_row : row :=
  row_of (prepare Schema.schema 2 "u2" "User" impostor).

Definition one_user : db :=
  after (create Schema.schema 1 "u1" "User" alice ∅) ∅.

Definition alice_row : row := nth_row (table one_user "User") 0.

Definition two_users : db :=
  after (create Schema.schema 2 "u2" "User" bob one_user) one_user.

Definition with_resume : db :=
  after (create Schema.schema 3 "r1" "Resume" (resume_of "u1") two_users) two_users.

Definition software : row :=
  {[ "industry" := VString "Software Development";
     "growthRate" := VFloat PrimFloat.one;
     "demandLevel" := VEnum "HIGH";
     "marketOutlook" := VEnum "POSITIVE" ]}.

Definition with_insight : db :=
  after (create Schema.schema 1 "i1" "IndustryInsight" software ∅) ∅.

(** A refresh job that writes both timestamps itself, a week ahead. *)
Definition refresh : row :=
  {[ "lastUpdated" := VDateTime 50; "nextUpdate" := VDateTime 604800050 ]}.

(** A refresh that leaves the timestamps to the store. *)
Definition regrade : row := {[ "demandLevel" := VEnum "LOW" ]}.

Definition rename : row := {[ "name" := VString "Alice" ]}.

Definition alice_resume : row := nth_row (table with_resume "Resume") 0.

Definition alice_again : row :=
  row_of (prepare Schema.schema 4 "r2" "Resume" (resume_of "u1")).

Definition bob_first : row :=
  row_of (prepare Schema.schema 4 "r2" "Resume" (resume_of "u2")).

End Sample.

(** ** The repository layer over the store *)

Module Repository.
Import Prisma Store.

(** Modelled from the spec: the error kinds a data-access layer must surface
    (section 7); the layer itself is not among the repository's files. *)
Inductive error :=
| ConflictError
| NotFoundError
| InsufficientBalanceError
| ValidationError.

(** Modelled from the spec: [ConflictError] is a unique-constraint violation,
    [NotFoundError] a reference to a row that does not exist, and
    [ValidationError] a request that does not fit the schema. *)
Definition of_store (e : Store.error) : error :=
  match e with
  | UniqueConstraint => ConflictError
  | ForeignKeyConstraint | RecordNotFound => NotFoundError
  | Store.ValidationError | Unsupported => ValidationError
  end.

Definition lift {A} (x : result Store.error A) : result error A :=
  match x with
  | Ok a => Ok a
  | Err e => Err (of_store e)
  end.

Definition balance (u : row) : Z :=
  match u !! "tokens" with
  | Some (VInt z) => z
  | _ => 0
  end.

Definition amount (t : row) : Z :=
  match t !! "amount" with
  | Some (VInt z) => z
  | _ => 0
  end.



Definition opt_string (o : option string) : value :=
  match o with
  | Some s => VString s
  | None => VNull
  end.

(** Modelled from the spec: [createUser(externalAuthId, email, ...)] fails
    with [ConflictError] if the external-auth id or the email already exists
    and initializes [tokens = 10000]; no value for [tokens] is passed, so the
    schema's default applies. *)
Definition createUser (now : Z) (gen : string) (externalAuthId email : string)
    (d : db) : result error (row * db) :=
  lift (create Schema.schema now gen "User"
          {[ "clerkUserId" := VString externalAuthId; "email" := VString email ]} d).

(** Modelled from the spec: [debitTokens(userId, amount, description,
    featureType)] fails with [InsufficientBalanceError] if
    [amount > currentBalance]; otherwise it decrements the balance and
    appends a TokenTransaction with [amount = -amount], as one atomic unit. *)
Definition debitTokens (now : Z) (gen : string) (userId : string) (amount : Z)
    (description : string) (featureType : option string) (d : db)
  : result error db :=
  match find_unique "User" "id" userId d with
  | None => Err NotFoundError
  | Some u =>
    if bool_decide (amount > balance u) then Err InsufficientBalanceError else
    s1 ← lift (update Schema.schema now "User" "id" userId
                 {[ "tokens" := VInt (balance u - amount) ]} d);
    s2 ← lift (create Schema.schema now gen "TokenTransaction"
                 {[ "userId" := VString userId;
                    "amount" := VInt (- amount);
                    "description" := VString description;
                    "featureType" := opt_string featureType ]} s1.2);
    Ok s2.2
  end.

(** Modelled from the spec: [creditTokens(userId, amount, description)]
    increments the balance and appends a TokenTransaction with the amount,
    as one atomic unit. *)
Definition creditTokens (now : Z) (gen : string) (userId : string) (amount : Z)
    (description : string) (d : db) : result error db :=
  match find_unique "User" "id" userId d with
  | None => Err NotFoundError
  | Some u =>
    s1 ← lift (update Schema.schema now "User" "id" userId
                 {[ "tokens" := VInt (balance u + amount) ]} d);
    s2 ← lift (create Schema.schema now gen "TokenTransaction"
                 {[ "userId" := VString userId;
                    "amount" := VInt amount;
                    "description" := VString description ]} s1.2);
    Ok s2.2
  end.

(** Modelled from the spec: [recordPayment(userId, gatewayId, amount,
    currency, tokensAdded)] fails with [ConflictError] if the gateway id is
    already recorded and creates the Payment with status PENDING (the
    schema's default). *)
Definition recordPayment (now : Z) (gen : string) (userId gatewayId : string)
    (amount : float) (currency : string) (tokensAdded : Z) (d : db)
  : result error (row * db) :=
  lift (create Schema.schema now gen "Payment"
          {[ "userId" := VString userId;
             "razorpayId" := VString gatewayId;
             "amount" := VFloat amount;
             "currency" := VString currency;
             "tokensAdded" := VInt tokensAdded ]} d).

Definition tokensAdded (p : row) : Z :=
  match p !! "tokensAdded" with
  | Some (VInt z) => z
  | _ => 0
  end.

Definition status (p : row) : option string :=
  match p !! "status" with
  | Some (VEnum c) => Some c
  | _ => None
  end.

(** Modelled from the spec: [settlePayment(gatewayId, finalStatus)]
    transitions the Payment's status; only a PENDING payment transitions
    (PENDING -> COMPLETED or PENDING -> FAILED), and on the transition to
    COMPLETED the user's tokens are credited in the same atomic unit.  A
    delivery for a payment that is no longer PENDING changes nothing. *)
Definition settlePayment (now : Z) (gen : string) (gatewayId finalStatus : string)
    (d : db) : result error db :=
  match find_unique "Payment" "razorpayId" gatewayId d with
  | None => Err NotFoundError
  | Some p =>
    if bool_decide (status p = Some "PENDING") then
      s1 ← lift (update Schema.schema now "Payment" "razorpayId" gatewayId
                   {[ "status" := VEnum finalStatus ]} d);
      if bool_decide (finalStatus = "COMPLETED") then
        match skey "userId" p with
        | Some u => creditTokens now gen u (tokensAdded p) "Token Purchase" s1.2
        | None => Err NotFoundError
        end
      else Ok s1.2
    else Ok d
  end.

(** The calls of the layer that write. *)
Inductive call :=
| CreateUser (externalAuthId email : string)
| DebitTokens (userId : string) (amount : Z) (description : string)
    (featureType : option string)
| CreditTokens (userId : string) (amount : Z) (description : string)
| RecordPayment (userId gatewayId : string) (amount : float) (currency : string)
    (tokensAdded : Z)
| SettlePayment (gatewayId finalStatus : string).

Definition run (now : Z) (gen : string) (c : call) (d : db) : result error db :=
  match c with
  | CreateUser a e => snd <$> createUser now gen a e d
  | DebitTokens u n s f => debitTokens now gen u n s f d
  | CreditTokens u n s => creditTokens now gen u n s d
  | RecordPayment u g a c t => snd <$> recordPayment now gen u g a c t d
  | SettlePayment g s => settlePayment now gen g s d
  end.

Inductive step : db → db → Prop :=
| step_run now gen c d d' : run now gen c d = Ok d' → step d d'.

Definition reachable (d : db) : Prop := rtc step ∅ d.


(** A payment that has left PENDING. *)
Definition closed (gatewayId : string) (d : db) : Prop :=
  ∃ p, find_unique "Payment" "razorpayId" gatewayId d = Some p
       ∧ status p ≠ Some "PENDING".

(** The scenario of the spec: a user starts with 10000 tokens, is debited
    2000 for a cover letter and credited 500 as a referral bonus; then buys
    700 tokens, and the gateway reports the payment completed. *)
Definition signed_up : db :=
  after (createUser 1 "U" "clerk_U" "u@example.com" ∅) ∅.

Definition run_or (x : result error db) (d : db) : db :=
  match x with
  | Ok d' => d'
  | Err _ => d
  end.

Definition debited : db :=
  run_or (debitTokens 2 "t1" "U" 2000 "Generated Cover Letter" None signed_up)
    signed_up.

Definition credited : db :=
  run_or (creditTokens 3 "t2" "U" 500 "Referral bonus" debited) debited.

Definition invoiced : db :=
  after (recordPayment 4 "p1" "U" "pay_1" PrimFloat.one "INR" 700 credited)
    credited.

Definition settled : db :=
  run_or (settlePayment 5 "t3" "pay_1" "COMPLETED" invoiced) invoiced.

End Repository.

(** ** [app/types/html2pdf.d.ts] *)

Module Html2Pdf.

(** The TypeScript types the declaration uses. *)
Inductive ty :=
| TNumber
| TStr
| TVoid
| TTuple (ts : list ty)
| TUnion (a b : ty)
| TObject (members : list (string * ty))
| TRef (name : string)
| TPromise (t : ty).

Record property := Property {
  pname : string;
  poptional : bool;
  ptype : ty
}.

Record method := Method {
  mname : string;
  mparams : list (string * ty);
  mreturns : ty
}.

Record interface := Interface {
  iname : string;
  iproperties : list property;
  imethods : list method
}.

Definition Options : interface :=
  Interface "Options"
    [ Property "margin" true (TUnion TNumber (TTuple [TNumber; TNumber]));
      Property "filename" true TStr;
      Property "image" true (TObject [("type", TStr); ("quality", TNumber)]);
      Property "html2canvas" true (TObject [("scale", TNumber)]);
      Property "jsPDF" true
        (TObject [("unit", TStr); ("format", TStr); ("orientation", TStr)]) ]
    [].

Definition Html2Pdf : interface :=
  Interface "Html2Pdf"
    []
    [ Method "set" [("options", TRef "Options")] (TRef "Html2Pdf");
      Method "from" [("element", TRef "HTMLElement")] (TRef "Html2Pdf");
      Method "save" [] (TPromise TVoid) ].

(** [function html2pdf(): Html2Pdf; export = html2pdf;] *)
Definition html2pdf : method := Method "html2pdf" [] (TRef "Html2Pdf").

Fixpoint ty_eqb (a b : ty) : bool :=
  match a, b with
  | TNumber, TNumber | TStr, TStr | TVoid, TVoid => true
  | TTuple l, TTuple l' =>
    (fix go l l' := match l, l' with
                    | [], [] => true
                    | x :: l, y :: l' => ty_eqb x y && go l l'
                    | _, _ => false
                    end) l l'
  | TUnion a1 a2, TUnion b1 b2 => ty_eqb a1 b1 && ty_eqb a2 b2
  | TObject l, TObject l' =>
    (fix go l l' := match l, l' with
                    | [], [] => true
                    | (n, x) :: l, (n', y) :: l' =>
                      bool_decide (n = n') && ty_eqb x y && go l l'
                    | _, _ => false
                    end) l l'
  | TRef n, TRef n' => bool_decide (n = n')
  | TPromise x, TPromise y => ty_eqb x y
  | _, _ => false
  end.

(** The methods of an interface that return the interface itself, so that
    calls can be chained. *)
Definition chained (I : interface) : list method :=
  filter (λ m, ty_eqb (mreturns m) (TRef (iname I)) = true) (imethods I).

(** The names an object-typed property declares, with their types. *)
Definition members (I : interface) (p : string) : list (string * ty) :=
  match List.find (λ x, bool_decide (pname x = p)) (iproperties I) with
  | Some (Property _ _ (TObject l)) => l
  | _ => []
  end.

Definition property_type (I : interface) (p : string) : option ty :=
  ptype <$> List.find (λ x, bool_decide (pname x = p)) (iproperties I).

Definition find_method (I : interface) (n : string) : option method :=
  List.find (λ x, bool_decide (mname x = n)) (imethods I).

End Html2Pdf.

(** ** The relations of a schema *)

Module Links.
Import Prisma.

(** The relations that hold a column: the model, its column, the model the
    column points at and the column it references there. *)
Definition links (S : schema) : list (string * string * string * string) :=
  M ← models S;
  (λ k, (mname M, fk_field k, fk_target k, fk_ref k)) <$> foreign_keys M.

(** [industryInsight IndustryInsight? @relation(fields: [industry],
    references: [industry])], as a foreign key. *)
Definition industry_key : fkey :=
  FKey "industry" "IndustryInsight" "industry" Optional None None.

End Links.

(** ** Rows that other rows refer to *)

Module Refs.
Import Prisma Store.

(** Some row of the database refers to [old], a row of table [m], through
    one of the relations of the schema. *)
Definition referred (S : schema) (m : string) (old : row) (d : db) : bool :=
  existsb (λ ck : string * fkey, existsb (refers ck.2 old) (table d ck.1))
    (referencing S m).

End Refs.

(** ** Requests that fit a model *)

Module Requests.
Import Prisma Store.



(** An update request names only columns of the model and gives each a
    value the client accepts for it. *)
Definition changes_fit (S : schema) (M : model) (data : row) : bool :=
  data_known M data
  && forallb (λ f, match data !! fname f with
                   | Some v => is_ok (accept S f v)
                   | None => true
                   end) (mfields M).

(** Values that a column of the type of [f] is sure to refuse: null for a
    required column, a name that is not a value of the column's enum, an
    integer beyond the range of [Int], a text for a number, and a text with
    the character U+0000, which PostgreSQL does not store. *)
Definition misfit (S : schema) (f : field) (v : value) : bool :=
  match v, ftype f with
  | VNull, _ => bool_decide (farity f = Required)
  | VEnum c, TEnum e => negb (bool_decide (c ∈ enum_values S e))
  | VInt z, TInt => negb (fits_int z)
  | VString _, (TInt | TFloat) => true
  | VString s, TString => negb (text_ok s)
  | _, _ => false
  end.

End Requests.

(** ** More example databases *)

Module Cases.
Import Prisma Store.

(** Bob's row when the generator repeats Alice's id. *)
Definition bob_clash : row :=
  Sample.row_of (prepare Schema.schema 2 "u1" "User" Sample.bob).

(** A resume for a user that does not exist. *)
Definition stray : row :=
  Sample.row_of (prepare Schema.schema 4 "r9" "Resume" (Sample.resume_of "nobody")).

(** A user who works in the industry of [Sample.with_insight]. *)
Definition engineer : row :=
  {[ "clerkUserId" := VString "clerk_3"; "email" := VString "eve@example.com";
     "industry" := VString "Software Development" ]}.

Definition staffed : db :=
  after (create Schema.schema 2 "u3" "User" engineer Sample.with_insight)
    Sample.with_insight.

Definition retitle : row := {[ "industry" := VString "Software Engineering" ]}.

(** A sign-up that leaves the e-mail address out. *)
Definition anonymous : row := {[ "clerkUserId" := VString "clerk_4" ]}.

(** An insight whose demand level is not one of the enum's values. *)
Definition overheated : row := <["demandLevel" := VEnum "EXTREME"]> Sample.software.

(** Bob taking over Alice's address. *)
Definition takeover : row := {[ "email" := VString "alice@example.com" ]}.

(** A payment that leaves currency and status to the schema. *)
Definition invoice : row :=
  {[ "userId" := VString "u1"; "amount" := VFloat 499%float;
     "razorpayId" := VString "pay_9"; "tokensAdded" := VInt 5000 ]}.




(** The number 1.5 for a column of whole numbers. *)
Definition halves : row := {[ "tokens" := VFloat 1.5%float ]}.



End Cases.

(** ** Calls on the declared PDF-export interface *)

Module Calls.
Import Html2Pdf.

(** The interfaces the module declares. *)
Definition declared : list interface := [Options; Html2Pdf].

Definition find_interface (n : string) : option interface :=
  List.find (λ I, bool_decide (iname I = n)) declared.

(** The type of [x.n(...)] for [x] of type [t], by the declarations of the
    module: the return type of method [n] of the interface that [t] names.
    Arguments are not looked at. *)
Definition call (t : ty) (n : string) : option ty :=
  match t with
  | TRef i => I ← find_interface i; mreturns <$> find_method I n
  | _ => None
  end.

(** The type of [html2pdf().n1(...).n2(...)...]. *)
Definition chain (ns : list string) : option ty :=
  foldl (λ t n, t ≫= (λ t, call t n)) (Some (mreturns html2pdf)) ns.

End Calls.

(** ** Facts about the store *)

Module StoreFacts.
Import Prisma Store.

#[local] Set Warnings "-clear-no-such-hyp".

(** *** Tables *)

Lemma table_empty c : table ∅ c = [].
Proof. unfold table. by rewrite lookup_empty. Qed.

Lemma table_insert (d : gmap string (list (gmap string value))) m t c :
  table (<[m := t]> d) c = if decide (m = c) then t else table d c.
Proof.
  unfold table. case_decide as E.
  - subst. by rewrite lookup_insert_eq.
  - by rewrite lookup_insert_ne.
Qed.

Lemma table_map_tables g (d : gmap string (list (gmap string value))) c :
  table (map_tables g d) c = g c <$> table d c.
Proof.
  unfold table, map_tables. rewrite map_lookup_imap.
  by destruct (d !! c).
Qed.

(** *** Keys *)

Lemma elem_of_keys f k (rows : list (gmap string value)) :
  k ∈ keys f rows ↔ ∃ r, r ∈ rows ∧ skey f r = Some k.
Proof. unfold keys. by rewrite list_elem_of_omap. Qed.

Lemma keys_app f (l1 l2 : list (gmap string value)) :
  keys f (l1 ++ l2) = keys f l1 ++ keys f l2.
Proof. apply omap_app. Qed.

Lemma find_row_Some f k (rows : list (gmap string value)) i r :
  find_row f k rows = Some (i, r) → rows !! i = Some r ∧ skey f r = Some k.
Proof. unfold find_row. rewrite list_find_Some. naive_solver. Qed.

Lemma find_row_None f k (rows : list (gmap string value)) :
  find_row f k rows = None ↔ k ∉ keys f rows.
Proof.
  unfold find_row. rewrite list_find_None, elem_of_keys, Forall_forall.
  naive_solver.
Qed.

Lemma skey_insert_ne f g v (r : gmap string value) :
  f ≠ g → skey g (<[f := v]> r) = skey g r.
Proof. intros. unfold skey. by rewrite lookup_insert_ne. Qed.

Lemma skey_insert_eq f s (r : gmap string value) :
  skey f (<[f := VString s]> r) = Some s.
Proof. unfold skey. by rewrite lookup_insert_eq. Qed.

Lemma skey_insert_null f (r : gmap string value) :
  skey f (<[f := VNull]> r) = None.
Proof. unfold skey. by rewrite lookup_insert_eq. Qed.

(** *** Looking declarations up *)

Lemma find_model_Some S m M :
  find_model S m = Some M → M ∈ models S ∧ mname M = m.
Proof.
  unfold find_model. intros H. apply find_some in H as [H1 H2].
  apply list_elem_of_In in H1. by apply bool_decide_eq_true in H2.
Qed.

Lemma find_by_name {A} (name : A → string) (l : list A) x :
  NoDup (name <$> l) → x ∈ l →
  List.find (λ y, bool_decide (name y = name x)) l = Some x.
Proof.
  induction l as [|y l IH]; intros Hnd Hx; [by apply elem_of_nil in Hx|].
  rewrite fmap_cons in Hnd. apply NoDup_cons in Hnd as [Hy Hnd].
  simpl. case_bool_decide as E.
  - apply elem_of_cons in Hx as [->|Hx]; [done|].
    exfalso. apply Hy. rewrite E. by apply list_elem_of_fmap_2.
  - apply elem_of_cons in Hx as [->|Hx]; [done|]. by apply IH.
Qed.

Lemma same_name {A} (name : A → string) (l : list A) x y :
  NoDup (name <$> l) → x ∈ l → y ∈ l → name x = name y → x = y.
Proof.
  intros Hnd Hx Hy E.
  pose proof (find_by_name name l x Hnd Hx) as F1.
  pose proof (find_by_name name l y Hnd Hy) as F2.
  rewrite E in F1. congruence.
Qed.

Lemma find_model_elem S M :
  NoDup (mname <$> models S) → M ∈ models S → find_model S (mname M) = Some M.
Proof. apply find_by_name. Qed.

Lemma find_field_elem M f :
  NoDup (field_names M) → f ∈ mfields M → find_field M (fname f) = Some f.
Proof. apply find_by_name. Qed.

Lemma find_field_Some M n f :
  find_field M n = Some f → f ∈ mfields M ∧ fname f = n.
Proof.
  unfold find_field. intros H. apply find_some in H as [H1 H2].
  apply list_elem_of_In in H1. by apply bool_decide_eq_true in H2.
Qed.

Lemma elem_of_unique_fields M n :
  n ∈ unique_fields M ↔ ∃ f, f ∈ mfields M ∧ fname f = n ∧ is_unique f = true.
Proof.
  unfold unique_fields. rewrite list_elem_of_fmap.
  setoid_rewrite list_elem_of_filter. naive_solver.
Qed.

Lemma elem_of_referencing S m c k :
  (c, k) ∈ referencing S m ↔
  ∃ M, M ∈ models S ∧ mname M = c ∧ k ∈ foreign_keys M ∧ fk_target k = m.
Proof.
  unfold referencing. rewrite list_elem_of_bind. split.
  - intros (M & H1 & H2). apply list_elem_of_fmap in H1 as (k' & E & H1).
    apply list_elem_of_filter in H1 as [H1 H3]. inversion E; subst. eauto.
  - intros (M & H1 & <- & H2 & H3). exists M. split; [|done].
    apply list_elem_of_fmap. exists k. split; [done|].
    by apply list_elem_of_filter.
Qed.

Lemma elem_of_fkeys_to S c m k :
  k ∈ fkeys_to S c m ↔
  ∃ M, find_model S c = Some M ∧ k ∈ foreign_keys M ∧ fk_target k = m.
Proof.
  unfold fkeys_to. destruct (find_model S c) as [M|].
  - rewrite list_elem_of_filter. naive_solver.
  - split; [by intros ?%elem_of_nil|naive_solver].
Qed.

(** *** Rows *)

Section rows.
Variable S : schema.

Lemma value_ok_default f now gen dv :
  value_ok S f (default_of now gen dv) = value_ok S f (default_of 0 "" dv).
Proof. unfold value_ok. by destruct dv, (farity f), (ftype f). Qed.

Lemma value_ok_time f t t' :
  value_ok S f (VDateTime t) = value_ok S f (VDateTime t').
Proof. unfold value_ok. by destruct (farity f), (ftype f). Qed.

Lemma accept_Ok f v w :
  accept S f v = Ok w ↔
  w = coerce f v ∧ value_ok S f w = true ∧ storable w = true.
Proof.
  unfold accept. split.
  - destruct (value_ok S f (coerce f v)) eqn:E1; [|done].
    destruct (storable (coerce f v)) eqn:E2; [|done].
    by intros [= <-].
  - intros (-> & -> & ->). done.
Qed.

Lemma accept_Err f v e : accept S f v = Err e → e = ValidationError.
Proof.
  unfold accept. destruct (_ && _); [done|]. by intros [= <-].
Qed.

Lemma new_value_ok now gen data f v :
  default_ok S f = true → new_value S now gen data f = Ok v →
  value_ok S f v = true.
Proof.
  unfold default_ok, new_value. intros [Hd Hu]%andb_prop H.
  destruct (data !! fname f) as [w|].
  { by apply accept_Ok in H as (_ & ? & _). }
  destruct (field_default f) as [dv|].
  { inversion H; subst. by rewrite value_ok_default. }
  destruct (is_updatedAt f).
  { inversion H; subst. by rewrite (value_ok_time _ _ 0). }
  unfold value_ok. destruct (farity f); by inversion H.
Qed.

Lemma build_row_lookup now gen fs data r :
  NoDup (fname <$> fs) → build_row S now gen fs data = Ok r →
  (∀ f, f ∈ fs → ∃ v, new_value S now gen data f = Ok v ∧ r !! fname f = Some v)
  ∧ (∀ n, n ∉ fname <$> fs → r !! n = None).
Proof.
  revert r. induction fs as [|f fs IH]; intros r Hnd H; simpl in *.
  { inversion H; subst. split; [by intros ? ?%elem_of_nil|]. intros. apply lookup_empty. }
  apply NoDup_cons in Hnd as [Hf Hnd].
  destruct (new_value S now gen data f) as [v|] eqn:Ev; [|done].
  destruct (build_row S now gen fs data) as [r'|] eqn:Er; [|done].
  simpl in H. inversion H; subst. destruct (IH r' Hnd eq_refl) as [IH1 IH2].
  split.
  - intros g [->|Hg]%elem_of_cons.
    + exists v. by rewrite lookup_insert_eq.
    + destruct (IH1 g Hg) as (w & ? & ?). exists w. split; [done|].
      rewrite lookup_insert_ne; [done|]. intros E. apply Hf. rewrite E.
      by apply list_elem_of_fmap_2.
  - intros n Hn. apply not_elem_of_cons in Hn as [? ?].
    rewrite lookup_insert_ne; [|done]. by apply IH2.
Qed.

Lemma update_row_lookup now fs data old new :
  NoDup (fname <$> fs) → update_row S now fs data old = Ok new →
  (∀ f, f ∈ fs → new !! fname f = updated_value now data old f)
  ∧ (∀ f v, f ∈ fs → data !! fname f = Some v → accept S f v = Ok (coerce f v))
  ∧ (∀ n, n ∉ fname <$> fs → new !! n = old !! n).
Proof.
  revert new. induction fs as [|f fs IH]; intros new Hnd H; simpl in *.
  { inversion H; subst. split_and!; try done; by intros ? ?%elem_of_nil
      || by intros ? ? ?%elem_of_nil. }
  apply NoDup_cons in Hnd as [Hf Hnd].
  destruct (update_row S now fs data old) as [r|] eqn:Er; [|done].
  simpl in H. destruct (IH r Hnd eq_refl) as (IH1 & IH2 & IH3).
  assert (∀ g, g ∈ fs → fname f ≠ fname g) as Hne.
  { intros g Hg E. apply Hf. rewrite E. by apply list_elem_of_fmap_2. }
  assert (new !! fname f = updated_value now data old f
          ∧ (∀ v, data !! fname f = Some v → accept S f v = Ok (coerce f v))
          ∧ ∀ n, n ≠ fname f → new !! n = r !! n) as (H1 & H2 & H3).
  { unfold updated_value. destruct (data !! fname f) as [v|].
    - destruct (accept S f v) as [w|] eqn:E; [|done]. simpl in H.
      inversion H; subst. pose proof E as (-> & _)%accept_Ok.
      rewrite lookup_insert_eq. split_and!; [done|by intros ? [= <-]|].
      intros. by rewrite lookup_insert_ne.
    - destruct (is_updatedAt f && touched data); inversion H; subst.
      + rewrite lookup_insert_eq. split_and!; [done..|].
        intros. by rewrite lookup_insert_ne.
      + split_and!; [|done..]. apply IH3. intros Hin. apply Hf, Hin. }
  split_and!.
  - intros g [->|Hg]%elem_of_cons; [done|].
    rewrite H3; [by apply IH1|]. intros E. by eapply Hne.
  - intros g v [->|Hg]%elem_of_cons; [by apply H2|]. by apply IH2.
  - intros n Hn. apply not_elem_of_cons in Hn as [? ?].
    rewrite H3; [|done]. by apply IH3.
Qed.

End rows.

(** *** Consequences of the schema checks *)

Lemma forallb_elem {A} (p : A → bool) l x :
  forallb p l = true → x ∈ l → p x = true.
Proof. rewrite forallb_forall, list_elem_of_In. auto. Qed.

Lemma column_is_spec M n t a :
  column_is M n t a = true →
  ∃ f, f ∈ mfields M ∧ fname f = n ∧ ftype f = t ∧ farity f = a.
Proof.
  unfold column_is. destruct (find_field M n) as [f|] eqn:E; [|done].
  intros [H1 H2]%andb_prop. apply find_field_Some in E as [? ?].
  apply bool_decide_eq_true in H1, H2. eauto.
Qed.

Section schema_checks.
Variable S : schema.
Hypothesis wf : well_formed S = true.

Lemma wf_names : NoDup (mname <$> models S).
Proof.
  unfold well_formed in wf. apply andb_prop in wf as [H _].
  by apply bool_decide_eq_true in H.
Qed.

Lemma wf_model M : M ∈ models S → model_ok S M = true.
Proof.
  unfold well_formed in wf. apply andb_prop in wf as [_ H].
  intros. by eapply forallb_elem.
Qed.

Lemma wf_find M : M ∈ models S → find_model S (mname M) = Some M.
Proof. apply find_model_elem, wf_names. Qed.

Lemma wf_same_name M M' :
  M ∈ models S → M' ∈ models S → mname M = mname M' → M = M'.
Proof.
  intros H H' E. apply wf_find in H, H'. rewrite E in H. congruence.
Qed.

Lemma wf_fields M : M ∈ models S → NoDup (fname <$> mfields M).
Proof.
  intros H%wf_model. unfold model_ok in H.
  repeat (apply andb_prop in H as [H ?]). by apply bool_decide_eq_true in H.
Qed.

Lemma wf_default M f : M ∈ models S → f ∈ mfields M → default_ok S f = true.
Proof.
  intros H%wf_model Hf. unfold model_ok in H.
  repeat (apply andb_prop in H as [H ?]). by eapply forallb_elem.
Qed.

Lemma wf_unique M n :
  M ∈ models S → n ∈ unique_fields M → column_is M n TString Required = true.
Proof.
  intros H%wf_model Hf. unfold model_ok in H.
  repeat (apply andb_prop in H as [H ?]).
  by eapply (forallb_elem (λ f, column_is M f TString Required)).
Qed.

Lemma wf_fk_fields M : M ∈ models S → NoDup (fk_field <$> foreign_keys M).
Proof.
  intros H%wf_model. unfold model_ok in H.
  repeat (apply andb_prop in H as [H ?]). by eapply bool_decide_eq_true.
Qed.

Lemma wf_fkey M k : M ∈ models S → k ∈ foreign_keys M → fkey_ok S M k = true.
Proof.
  intros H%wf_model Hf. unfold model_ok in H.
  repeat (apply andb_prop in H as [H ?]). by eapply forallb_elem.
Qed.

(** What [fkey_ok] says, one statement at a time. *)
Lemma wf_fkey_target M k :
  M ∈ models S → k ∈ foreign_keys M →
  ∃ P, P ∈ models S ∧ mname P = fk_target k ∧ fk_target k ≠ mname M
       ∧ fk_ref k ∈ unique_fields P
       ∧ fk_ref k ∉ fk_field <$> foreign_keys P.
Proof.
  intros HM Hk. pose proof (wf_fkey M k HM Hk) as H. unfold fkey_ok in H.
  destruct (find_model S (fk_target k)) as [P|] eqn:E; [|done].
  apply find_model_Some in E as [? ?].
  repeat (apply andb_prop in H as [H ?]).
  exists P. split_and!; try done; by eapply bool_decide_eq_true.
Qed.

Lemma wf_fkey_column M k :
  M ∈ models S → k ∈ foreign_keys M →
  ∃ f, f ∈ mfields M ∧ fname f = fk_field k ∧ ftype f = TString
       ∧ (farity f = Required ∨ farity f = Optional)
       ∧ (on_delete k = SetNull → farity f = Optional).
Proof.
  intros HM Hk. pose proof (wf_fkey M k HM Hk) as H. unfold fkey_ok in H.
  destruct (find_model S (fk_target k)) as [P|] eqn:E; [|done].
  apply andb_prop in H as [H _]. apply andb_prop in H as [H _].
  apply andb_prop in H as [H Hnull]. apply andb_prop in H as [_ Hcol].
  apply orb_prop in Hcol as [Hcol|Hcol];
    apply column_is_spec in Hcol as (f & Hf & En & Et & Ea).
  - exists f. split_and!; try done; [by left|]. intros Hd.
    apply orb_prop in Hnull as [Hn|Hn].
    + apply negb_true_iff, bool_decide_eq_false in Hn. done.
    + apply column_is_spec in Hn as (f' & Hf' & En' & _ & Ea').
      assert (f' = f) as ->; [|congruence].
      pose proof (find_field_elem M f (wf_fields M HM) Hf) as F1.
      pose proof (find_field_elem M f' (wf_fields M HM) Hf') as F2.
      rewrite En in F1. rewrite En' in F2. congruence.
  - exists f. split_and!; try done. by right.
Qed.

Lemma wf_fkey_actions M k :
  M ∈ models S → k ∈ foreign_keys M →
  update_supported k = true ∧ delete_supported k = true.
Proof.
  intros HM Hk. pose proof (wf_fkey M k HM Hk) as H. unfold fkey_ok in H.
  destruct (find_model S (fk_target k)) as [P|] eqn:E; [|done].
  repeat (apply andb_prop in H as [H ?]). done.
Qed.

(** A typed row holds a string in every [@id] and [@unique] column. *)
Lemma unique_key M n r :
  M ∈ models S → n ∈ unique_fields M → row_ok S M r →
  ∃ s, r !! n = Some (VString s).
Proof.
  intros HM Hn Hr. apply wf_unique, column_is_spec in Hn as (f & Hf & <- & Et & Ea); [|done].
  destruct (Hr f Hf) as (v & Hv & Hok). unfold value_ok in Hok.
  rewrite Ea, Et in Hok. destruct v; try done. eauto.
Qed.

Lemma unique_skey M n r :
  M ∈ models S → n ∈ unique_fields M → row_ok S M r → is_Some (skey n r).
Proof.
  intros HM Hn Hr. destruct (unique_key M n r HM Hn Hr) as [s Hs].
  unfold skey. rewrite Hs. eauto.
Qed.

End schema_checks.

Section checks.
Variable S : schema.

Lemma unique_ok_spec M rows r f k :
  unique_ok M rows r = true → f ∈ unique_fields M → skey f r = Some k →
  k ∉ keys f rows.
Proof.
  unfold unique_ok. intros H Hf Hk.
  eapply forallb_elem in H; [|done]. simpl in H. rewrite Hk in H.
  by apply bool_decide_eq_true in H.
Qed.

Lemma fk_ok_spec M d r k s :
  fk_ok M d r = true → k ∈ foreign_keys M → skey (fk_field k) r = Some s →
  s ∈ keys (fk_ref k) (table d (fk_target k)).
Proof.
  unfold fk_ok. intros H Hf Hk.
  eapply forallb_elem in H; [|done]. simpl in H. rewrite Hk in H.
  by apply bool_decide_eq_true in H.
Qed.

End checks.

Lemma split_row {A} (rows : list A) i old :
  rows !! i = Some old →
  ∃ l1 l2, rows = l1 ++ old :: l2 ∧ delete i rows = l1 ++ l2
           ∧ ∀ new, <[i := new]> rows = l1 ++ new :: l2.
Proof.
  intros H. exists (take i rows), (drop (Datatypes.S i) rows). split_and!.
  - by rewrite take_drop_middle.
  - apply delete_take_drop.
  - intros new. apply insert_take_drop. by eapply lookup_lt_Some.
Qed.

Lemma omap_sublist {A B} (f : A → option B) l1 l2 :
  l1 `sublist_of` l2 → omap f l1 `sublist_of` omap f l2.
Proof.
  induction 1 as [|x l1 l2 _ IH|x l1 l2 _ IH]; simpl.
  - constructor.
  - destruct (f x); [by apply sublist_skip|done].
  - destruct (f x); [by apply sublist_cons|done].
Qed.

Lemma keys_fmap_sublist f (g : gmap string value → gmap string value) rows :
  (∀ r, skey f (g r) = skey f r ∨ skey f (g r) = None) →
  keys f (g <$> rows) `sublist_of` keys f rows.
Proof.
  intros Hg. unfold keys. induction rows as [|r rows IH]; simpl; [constructor|].
  destruct (Hg r) as [-> | ->].
  - destruct (skey f r); [by apply sublist_skip|done].
  - destruct (skey f r); [by apply sublist_cons|done].
Qed.

Lemma keys_fmap_same f (g : gmap string value → gmap string value) rows :
  (∀ r, r ∈ rows → skey f (g r) = skey f r) → keys f (g <$> rows) = keys f rows.
Proof.
  intros Hg. unfold keys. induction rows as [|r rows IH]; simpl; [done|].
  rewrite Hg by apply list_elem_of_here.
  assert (omap (skey f) (g <$> rows) = omap (skey f) rows) as IH'.
  { apply IH. intros. apply Hg. by apply list_elem_of_further. }
  destruct (skey f r); [f_equal|]; exact IH'.
Qed.

Lemma lookup_skey f (r r' : gmap string value) :
  r' !! f = r !! f → skey f r' = skey f r.
Proof. unfold skey. by intros ->. Qed.

(** *** [onDelete: SetNull] *)

Section detach.
Variable S : schema.

Lemma detach_row_lookup m old c r n :
  detach_row S m old c r !! n = r !! n
  ∨ (detach_row S m old c r !! n = Some VNull
     ∧ ∃ k, k ∈ fkeys_to S c m ∧ fk_field k = n ∧ on_delete k = SetNull).
Proof.
  unfold detach_row, detach_with.
  induction (fkeys_to S c m) as [|k ks IH]; simpl; [by left|].
  assert (∀ x : gmap string value,
            (x !! n = r !! n ∨ x !! n = Some VNull ∧
               ∃ k0, k0 ∈ ks ∧ fk_field k0 = n ∧ on_delete k0 = SetNull) →
            x !! n = r !! n ∨ x !! n = Some VNull ∧
               ∃ k0, k0 ∈ k :: ks ∧ fk_field k0 = n ∧ on_delete k0 = SetNull) as Hw.
  { intros x [?|(? & k0 & ? & ? & ?)]; [by left|right]. split; [done|].
    exists k0. split; [by apply list_elem_of_further|done]. }
  destruct (on_delete k) eqn:Ed; try by apply Hw.
  destruct (refers k old _); [|by apply Hw].
  destruct (decide (fk_field k = n)) as [<-|Hn].
  - right. rewrite lookup_insert_eq. split; [done|]. exists k.
    split; [apply list_elem_of_here|done].
  - rewrite lookup_insert_ne by done. by apply Hw.
Qed.

Lemma detach_row_skey m old c r n :
  skey n (detach_row S m old c r) = skey n r
  ∨ skey n (detach_row S m old c r) = None.
Proof.
  destruct (detach_row_lookup m old c r n) as [H|[H _]].
  - left. by apply lookup_skey.
  - right. unfold skey. by rewrite H.
Qed.

Lemma detach_row_null m old c r k :
  k ∈ fkeys_to S c m → on_delete k = SetNull → refers k old r = true →
  skey (fk_field k) (detach_row S m old c r) = None.
Proof.
  intros Hk Hd Hr.
  assert (∀ ks, skey (fk_field k) (foldr (λ k r,
             match on_delete k with
             | SetNull => if refers k old r then <[fk_field k := VNull]> r else r
             | _ => r
             end) r ks) = skey (fk_field k) r
           ∨ skey (fk_field k) (foldr (λ k r,
             match on_delete k with
             | SetNull => if refers k old r then <[fk_field k := VNull]> r else r
             | _ => r
             end) r ks) = None) as Hstep.
  { induction ks as [|k' ks IH]; simpl; [by left|].
    destruct (on_delete k'); try done. destruct (refers k' old _); [|done].
    destruct (decide (fk_field k' = fk_field k)) as [E|E].
    - right. rewrite E. apply skey_insert_null.
    - by rewrite skey_insert_ne. }
  unfold detach_row, detach_with. revert Hk. generalize (fkeys_to S c m). intros ks.
  induction ks as [|k' ks IH]; [by intros ?%elem_of_nil|].
  intros [<-|Hk]%elem_of_cons; simpl.
  - rewrite Hd. destruct (refers k old (foldr _ r ks)) eqn:E.
    { apply skey_insert_null. }
    destruct (Hstep ks) as [H|H]; [|done]. exfalso.
    unfold refers in *. destruct (skey (fk_ref k) old); [|done].
    rewrite H in E. congruence.
  - specialize (IH Hk). destruct (on_delete k'); try done.
    destruct (refers k' old _); [|done].
    destruct (decide (fk_field k' = fk_field k)) as [E|E].
    + rewrite E. apply skey_insert_null.
    + by rewrite skey_insert_ne.
Qed.

End detach.

Section preservation.
Variable S : schema.
Hypothesis wf : well_formed S = true.

Lemma build_row_ok now gen M data r :
  M ∈ models S → build_row S now gen (mfields M) data = Ok r → row_ok S M r.
Proof.
  intros HM H f Hf.
  apply build_row_lookup in H as [H _]; [|by apply (wf_fields S)].
  destruct (H f Hf) as (v & Hv & Hr). exists v. split; [done|].
  eapply new_value_ok; [|done]. by eapply (wf_default S).
Qed.

(** What a successful create went through. *)
Lemma create_Ok now gen m data d r d' :
  create S now gen m data d = Ok (r, d') →
  ∃ M, M ∈ models S ∧ mname M = m
       ∧ data_known M data = true
       ∧ build_row S now gen (mfields M) data = Ok r
       ∧ unique_ok M (table d m) r = true
       ∧ fk_ok M d r = true
       ∧ d' = <[m := table d m ++ [r]]> d.
Proof.
  unfold create, prepare.
  destruct (find_model S m) as [M|] eqn:EM; [|done].
  apply find_model_Some in EM as [HM Em].
  destruct (data_known M data) eqn:Ek; [|done]. simpl.
  destruct (build_row S now gen (mfields M) data) as [r0|] eqn:Er; [|done]. simpl.
  destruct (unique_ok M (table d m) r0) eqn:Eu; [|done].
  destruct (fk_ok M d r0) eqn:Ef; [|done]. simpl.
  intros [= -> <-]. exists M. by split_and!.
Qed.

Lemma create_consistent now gen m data d r d' :
  consistent S d → create S now gen m data d = Ok (r, d') → consistent S d'.
Proof.
  intros [HT HU HF] H.
  apply create_Ok in H as (M & HM & <- & _ & Er & Eu & Ef & ->).
  assert (∀ c f k, k ∈ keys f (table d c) →
            k ∈ keys f (table (<[mname M := table d (mname M) ++ [r]]> d) c)) as Hmono.
  { intros c f k. rewrite table_insert. case_decide as E; [|done].
    subst. rewrite keys_app, elem_of_app. auto. }
  split.
  - intros M' r' HM'. rewrite table_insert. case_decide as E; [|by apply HT].
    apply (wf_same_name S wf) in E as <-; [|done..].
    intros [?| ->%list_elem_of_singleton]%elem_of_app; [by apply HT|].
    by eapply build_row_ok.
  - intros M' f HM' Hf. rewrite table_insert. case_decide as E; [|by apply HU].
    apply (wf_same_name S wf) in E as <-; [|done..].
    rewrite keys_app. apply NoDup_app. split_and!; [by apply HU| |].
    + intros k Hk. unfold keys. simpl.
      destruct (skey f r) as [k'|] eqn:Ek; [|by intros ?%elem_of_nil].
      intros ->%list_elem_of_singleton. by eapply unique_ok_spec.
    + unfold keys. simpl. destruct (skey f r); [apply NoDup_singleton|apply NoDup_nil_2].
  - intros M' k r' s HM' Hk Hr' Hs. apply Hmono.
    rewrite table_insert in Hr'. case_decide as E; [|by eapply HF].
    apply (wf_same_name S wf) in E as <-; [|done..].
    apply elem_of_app in Hr' as [?| ->%list_elem_of_singleton]; [by eapply HF|].
    by eapply fk_ok_spec.
Qed.

Lemma fkeys_to_elem c m M k :
  M ∈ models S → mname M = c → k ∈ foreign_keys M → fk_target k = m →
  k ∈ fkeys_to S c m.
Proof.
  intros HM <- Hk Hm. apply elem_of_fkeys_to. exists M.
  split; [by apply (wf_find S)|done].
Qed.

Lemma fkeys_to_inv c m M k :
  M ∈ models S → mname M = c → k ∈ fkeys_to S c m →
  k ∈ foreign_keys M ∧ fk_target k = m.
Proof.
  intros HM <- (M' & E & ? & ?)%elem_of_fkeys_to.
  rewrite (wf_find S wf M HM) in E. by inversion E; subst.
Qed.

Lemma same_field M f f' :
  M ∈ models S → f ∈ mfields M → f' ∈ mfields M → fname f = fname f' → f = f'.
Proof.
  intros HM Hf Hf' E.
  pose proof (find_field_elem M f (wf_fields S wf M HM) Hf) as F1.
  pose proof (find_field_elem M f' (wf_fields S wf M HM) Hf') as F2.
  rewrite E in F1. congruence.
Qed.

Lemma detach_row_ok m old M r :
  M ∈ models S → row_ok S M r → row_ok S M (detach_row S m old (mname M) r).
Proof.
  intros HM Hr f Hf.
  destruct (detach_row_lookup S m old (mname M) r (fname f))
    as [->|(-> & k & Hk & En & Ed)]; [by apply Hr|].
  exists VNull. split; [done|].
  apply (fkeys_to_inv _ _ M) in Hk as [Hk _]; [|done..].
  destruct (wf_fkey_column S wf M k HM Hk) as (f' & Hf' & En' & _ & _ & Ha).
  assert (f' = f) as -> by (eapply same_field; [done..|congruence]).
  unfold value_ok. by rewrite (Ha Ed).
Qed.

(** A referenced column is not a referencing column of its own model, so
    a referential action never rewrites it. *)
Lemma detach_row_ref m old M k P p :
  M ∈ models S → k ∈ foreign_keys M → P ∈ models S → mname P = fk_target k →
  skey (fk_ref k) (detach_row S m old (mname P) p) = skey (fk_ref k) p.
Proof.
  intros HM Hk HP EP. apply lookup_skey.
  destruct (detach_row_lookup S m old (mname P) p (fk_ref k))
    as [->|(_ & k' & Hk' & En & _)]; [done|].
  apply (fkeys_to_inv _ _ P) in Hk' as [Hk' _]; [|done..].
  destruct (wf_fkey_target S wf M k HM Hk) as (P' & HP' & EP' & _ & _ & Hn).
  assert (P' = P) as -> by (apply (wf_same_name S wf); congruence).
  exfalso. apply Hn. rewrite <- En. by apply list_elem_of_fmap_2.
Qed.

Lemma existsb_elem {A} (p : A → bool) l x :
  existsb p l = false → x ∈ l → p x = false.
Proof.
  intros H Hx. destruct (p x) eqn:E; [|done].
  rewrite <- H. symmetry. apply existsb_exists. exists x.
  split; [by apply list_elem_of_In|done].
Qed.

Lemma remove_consistent m f k d r d' :
  consistent S d → remove S m f k d = Ok (r, d') → consistent S d'.
Proof.
  intros [HT HU HF]. unfold remove.
  destruct (find_model S m) as [M|] eqn:EM; [|done].
  apply find_model_Some in EM as [HM <-].
  destruct (bool_decide (f ∈ unique_fields M)); [|done]. simpl.
  destruct (find_row f k (table d (mname M))) as [[i old]|] eqn:Efind; [|done].
  apply find_row_Some in Efind as [Hi Hkey].
  destruct (forallb _ _) eqn:Esup; [|done]. simpl.
  destruct (delete_blocked S (mname M) old d) eqn:Eblk; [done|].
  intros [= -> <-].
  destruct (split_row _ _ _ Hi) as (l1 & l2 & Erows & Edel & _).
  set (d1 := <[mname M := delete i (table d (mname M))]> d).
  assert (∀ c, table d1 c `sublist_of` table d c) as Hsub.
  { intros c. unfold d1. rewrite table_insert. case_decide; [|done].
    subst. apply sublist_delete. }
  split.
  - intros M' r' HM'. rewrite table_map_tables.
    intros (x & -> & Hx)%list_elem_of_fmap.
    apply detach_row_ok; [done|]. apply HT; [done|].
    eapply elem_of_sublist; [done|apply Hsub].
  - intros M' g HM' Hg. rewrite table_map_tables.
    eapply sublist_NoDup; [by apply (HU M' g)|].
    etrans; [apply keys_fmap_sublist; intros; apply detach_row_skey|].
    apply omap_sublist, Hsub.
  - intros M' fk r' s HM' Hfk. rewrite !table_map_tables.
    intros (x & -> & Hx)%list_elem_of_fmap Hs.
    assert (x ∈ table d (mname M')) as Hx' by (eapply elem_of_sublist; [done|apply Hsub]).
    assert (skey (fk_field fk) x = Some s) as Hxs.
    { destruct (detach_row_skey S (mname M) r (mname M') x (fk_field fk)); congruence. }
    destruct (wf_fkey_target S wf M' fk HM' Hfk) as (P & HP & EP & _ & _ & _).
    pose proof (HF M' fk x s HM' Hfk Hx' Hxs) as (p & Hp & Hps)%elem_of_keys.
    assert (p ∈ table d1 (fk_target fk)) as Hp1.
    { unfold d1. rewrite table_insert. case_decide as Et; [|done].
      rewrite <- Et, Erows in Hp. rewrite Edel.
      apply elem_of_app in Hp as [?|[->|?]%elem_of_cons];
        [apply elem_of_app; by left| |apply elem_of_app; by right].
      exfalso.
      assert (refers fk r x = true) as Href.
      { unfold refers. rewrite Hps. by apply bool_decide_eq_true. }
      assert ((mname M', fk) ∈ referencing S (mname M)) as Hin.
      { apply elem_of_referencing. by exists M'. }
      pose proof (forallb_elem _ _ _ Esup Hin) as Hsup. simpl in Hsup.
      pose proof (existsb_elem _ _ _ Eblk Hin) as Hblk. simpl in Hblk.
      unfold delete_supported in Hsup.
      destruct (on_delete fk) eqn:Ed; try done.
      + eapply existsb_elem in Hblk; [|exact Hx']. congruence.
      + eapply existsb_elem in Hblk; [|exact Hx']. congruence.
      + rewrite (detach_row_null S (mname M) r (mname M') x fk) in Hs; try done.
        by apply (fkeys_to_elem _ _ M'). }
    apply elem_of_keys. exists (detach_row S (mname M) r (fk_target fk) p).
    split; [by apply list_elem_of_fmap_2|].
    rewrite <- EP. rewrite (detach_row_ref _ _ M' fk P); [done..|].
    done.
Qed.

End preservation.

(** *** [onUpdate: Cascade] *)

Section retarget.
Variable S : schema.
Variables (old new : gmap string value).

Lemma retarget_with_other ks r n :
  n ∉ fk_field <$> ks → retarget_with old new ks r !! n = r !! n.
Proof.
  unfold retarget_with. induction ks as [|k ks IH]; simpl; [done|].
  intros [Hn Hks]%not_elem_of_cons. specialize (IH Hks).
  destruct (follows k old new _); [|done].
  destruct (skey (fk_ref k) new); [|done].
  by rewrite lookup_insert_ne.
Qed.

Lemma retarget_with_lookup ks r n :
  retarget_with old new ks r !! n = r !! n
  ∨ ∃ k kn, k ∈ ks ∧ fk_field k = n ∧ retarget_with old new ks r !! n = Some (VString kn).
Proof.
  induction ks as [|k ks IH]; simpl; [by left|].
  assert (retarget_with old new ks r !! n = r !! n
          ∨ ∃ k0 kn, k0 ∈ k :: ks ∧ fk_field k0 = n
                     ∧ retarget_with old new ks r !! n = Some (VString kn)) as IH'.
  { destruct IH as [?|(k0 & kn & ? & ? & ?)]; [by left|right].
    exists k0, kn. split; [by apply list_elem_of_further|done]. }
  destruct (follows k old new _); [|done].
  destruct (skey (fk_ref k) new) as [kn|]; [|done].
  destruct (decide (fk_field k = n)) as [<-|Hn].
  - right. exists k, kn. rewrite lookup_insert_eq.
    split; [apply list_elem_of_here|done].
  - by rewrite lookup_insert_ne.
Qed.

Lemma follows_skey k (r r' : gmap string value) :
  skey (fk_field k) r' = skey (fk_field k) r →
  follows k old new r' = follows k old new r.
Proof. unfold follows, refers. by intros ->. Qed.

(** With one foreign key per column, the column of [k] ends up holding the
    new key exactly when the row followed [k]. *)
Lemma retarget_with_skey ks r k :
  NoDup (fk_field <$> ks) → k ∈ ks →
  skey (fk_field k) (retarget_with old new ks r)
  = if follows k old new r
    then match skey (fk_ref k) new with
         | Some kn => Some kn
         | None => skey (fk_field k) r
         end
    else skey (fk_field k) r.
Proof.
  induction ks as [|k' ks IH]; [by intros _ ?%elem_of_nil|].
  rewrite fmap_cons. intros [Hk' Hnd]%NoDup_cons [<-|Hk]%elem_of_cons; simpl.
  - assert (skey (fk_field k) (retarget_with old new ks r) = skey (fk_field k) r) as E.
    { apply lookup_skey. by apply retarget_with_other. }
    fold (retarget_with old new ks r). rewrite (follows_skey _ _ _ E).
    destruct (follows k old new r); [|done].
    destruct (skey (fk_ref k) new); [|done]. apply skey_insert_eq.
  - fold (retarget_with old new ks r). rewrite <- (IH Hnd Hk).
    destruct (follows k' old new _); [|done].
    destruct (skey (fk_ref k') new); [|done].
    apply skey_insert_ne. intros E. apply Hk'. rewrite E.
    by apply list_elem_of_fmap_2.
Qed.

End retarget.

Lemma NoDup_rename (l : list string) ko kn :
  NoDup l → kn ∉ l →
  NoDup ((λ x, if decide (x = ko) then kn else x) <$> l).
Proof.
  intros Hnd Hkn. apply NoDup_fmap_2_strong; [|done].
  intros x y Hx Hy. repeat case_decide; congruence.
Qed.

Lemma keys_fmap_rename g (h : gmap string value → gmap string value)
    (ρ : string → string) rows :
  (∀ x, skey g (h x) = ρ <$> skey g x) → keys g (h <$> rows) = ρ <$> keys g rows.
Proof.
  intros Hh. unfold keys. induction rows as [|x xs IH]; [done|].
  rewrite fmap_cons. simpl. rewrite Hh.
  destruct (skey g x); simpl; [f_equal|]; exact IH.
Qed.

Section update.
Variable S : schema.
Hypothesis wf : well_formed S = true.

Lemma update_row_ok now M data old new :
  M ∈ models S → row_ok S M old →
  update_row S now (mfields M) data old = Ok new → row_ok S M new.
Proof.
  intros HM Hold H f Hf.
  apply update_row_lookup in H as (H1 & H2 & _); [|by apply (wf_fields S)].
  rewrite (H1 f Hf). unfold updated_value.
  destruct (data !! fname f) as [v|] eqn:Ed.
  { exists (coerce f v). split; [done|].
    by apply (H2 f v Hf), accept_Ok in Ed as (_ & ? & _). }
  destruct (is_updatedAt f) eqn:Eu; [|by apply Hold].
  destruct (touched data); [|by apply Hold]. simpl.
  exists (VDateTime now). split; [done|].
  pose proof (wf_default S wf M f HM Hf) as Hd. unfold default_ok in Hd.
  apply andb_prop in Hd as [_ Hd]. rewrite Eu in Hd. simpl in Hd.
  by rewrite (value_ok_time _ _ _ 0).
Qed.

Lemma retarget_row_ok m old new M r :
  M ∈ models S → row_ok S M r →
  row_ok S M (retarget_row S m old new (mname M) r).
Proof.
  intros HM Hr f Hf. unfold retarget_row.
  destruct (retarget_with_lookup old new (fkeys_to S (mname M) m) r (fname f))
    as [->|(k & kn & Hk & En & ->)]; [by apply Hr|].
  exists (VString kn). split; [done|].
  apply (fkeys_to_inv S wf _ _ M) in Hk as [Hk _]; [|done..].
  destruct (wf_fkey_column S wf M k HM Hk) as (f' & Hf' & En' & Et & Ha & _).
  assert (f' = f) as -> by (eapply (same_field S wf); [done..|congruence]).
  unfold value_ok. rewrite Et. by destruct Ha as [-> | ->].
Qed.

Lemma retarget_row_ref m old new M k P p :
  M ∈ models S → k ∈ foreign_keys M → P ∈ models S → mname P = fk_target k →
  skey (fk_ref k) (retarget_row S m old new (mname P) p) = skey (fk_ref k) p.
Proof.
  intros HM Hk HP EP. apply lookup_skey. unfold retarget_row.
  apply retarget_with_other. intros (k' & En & Hk')%list_elem_of_fmap.
  apply (fkeys_to_inv S wf _ _ P) in Hk' as [Hk' _]; [|done..].
  destruct (wf_fkey_target S wf M k HM Hk) as (P' & HP' & EP' & _ & _ & Hn).
  assert (P' = P) as -> by (apply (wf_same_name S wf); congruence).
  apply Hn. rewrite En. by apply list_elem_of_fmap_2.
Qed.

(** No model of the schema refers to itself. *)
Lemma fkeys_to_self M : M ∈ models S → fkeys_to S (mname M) (mname M) = [].
Proof.
  intros HM. apply elem_of_nil_inv. intros k Hk.
  apply (fkeys_to_inv S wf _ _ M) in Hk as [Hk Et]; [|done..].
  destruct (wf_fkey_target S wf M k HM Hk) as (_ & _ & _ & Hne & _). done.
Qed.

Lemma retarget_row_self old new M r :
  M ∈ models S → retarget_row S (mname M) old new (mname M) r = r.
Proof. intros HM. unfold retarget_row. by rewrite fkeys_to_self. Qed.

Lemma fkeys_to_NoDup c m : NoDup (fk_field <$> fkeys_to S c m).
Proof.
  unfold fkeys_to. destruct (find_model S c) as [M|] eqn:E; [|constructor].
  apply find_model_Some in E as [HM _].
  eapply sublist_NoDup; [by apply (wf_fk_fields S wf M)|].
  apply fmap_sublist, sublist_filter.
Qed.

Lemma retarget_row_skey m old new M k r :
  M ∈ models S → k ∈ foreign_keys M → fk_target k = m →
  skey (fk_field k) (retarget_row S m old new (mname M) r)
  = if follows k old new r
    then match skey (fk_ref k) new with
         | Some kn => Some kn
         | None => skey (fk_field k) r
         end
    else skey (fk_field k) r.
Proof.
  intros HM Hk Et. unfold retarget_row.
  apply retarget_with_skey; [apply fkeys_to_NoDup|].
  by apply (fkeys_to_elem S wf _ _ M).
Qed.

Lemma retarget_row_skey_other m old new M k r :
  M ∈ models S → k ∈ foreign_keys M → fk_target k ≠ m →
  skey (fk_field k) (retarget_row S m old new (mname M) r) = skey (fk_field k) r.
Proof.
  intros HM Hk Et. apply lookup_skey. unfold retarget_row.
  apply retarget_with_other. intros (k' & En & Hk')%list_elem_of_fmap.
  apply (fkeys_to_inv S wf _ _ M) in Hk' as [Hk' Et']; [|done..].
  assert (k = k'); [|congruence].
  eapply (same_name fk_field); [by apply (wf_fk_fields S wf M)|done..].
Qed.

(** What a successful update went through. *)
Lemma update_Ok now m f k data d r d' :
  update S now m f k data d = Ok (r, d') →
  ∃ M i old,
    M ∈ models S ∧ mname M = m ∧ f ∈ unique_fields M
    ∧ data_known M data = true
    ∧ find_row f k (table d m) = Some (i, old)
    ∧ update_row S now (mfields M) data old = Ok r
    ∧ unique_ok M (delete i (table d m)) r = true
    ∧ fk_ok M d r = true
    ∧ forallb (λ ck, update_supported ck.2) (referencing S m) = true
    ∧ update_blocked S m old r d = false
    ∧ d' = map_tables (retarget_row S m old r) (<[m := <[i := r]> (table d m)]> d).
Proof.
  unfold update.
  destruct (find_model S m) as [M|] eqn:EM; [|done].
  apply find_model_Some in EM as [HM Em].
  destruct (bool_decide (f ∈ unique_fields M)) eqn:Ef; [|done]. simpl.
  apply bool_decide_eq_true in Ef.
  destruct (data_known M data) eqn:Ek; [|done]. simpl.
  destruct (find_row f k (table d m)) as [[i old]|] eqn:Efind; [|done].
  destruct (update_row S now (mfields M) data old) as [new|] eqn:Eu; [|done]. simpl.
  destruct (unique_ok M _ new) eqn:Euq; [|done].
  destruct (fk_ok M d new) eqn:Efk; [|done]. simpl.
  destruct (forallb _ _) eqn:Esup; [|done]. simpl.
  destruct (update_blocked S m old new d) eqn:Eblk; [done|].
  intros [= -> <-]. exists M, i, old. by split_and!.
Qed.

(** The updated table holds the new row where the old one was, and every
    other table holds its rows retargeted. *)
Lemma update_tables now m f k data d r d' :
  update S now m f k data d = Ok (r, d') →
  ∃ i old, find_row f k (table d m) = Some (i, old)
    ∧ table d' m = <[i := r]> (table d m)
    ∧ ∀ c, c ≠ m → table d' c = retarget_row S m old r c <$> table d c.
Proof.
  intros H. apply update_Ok in H
    as (M & i & old & HM & <- & _ & _ & Hfind & _ & _ & _ & _ & _ & ->).
  exists i, old. split_and!; [done| |].
  - rewrite table_map_tables, table_insert, decide_True by done.
    rewrite <- (list_fmap_id (<[i:=r]> (table d (mname M)))) at 2.
    apply list_fmap_ext. intros. by apply retarget_row_self.
  - intros c Hc. by rewrite table_map_tables, table_insert, decide_False.
Qed.

Lemma update_consistent now m f k data d r d' :
  consistent S d → update S now m f k data d = Ok (r, d') → consistent S d'.
Proof.
  intros [HT HU HF] H.
  apply update_Ok in H
    as (M & i & old & HM & <- & Hf & _ & Hfind & Hrow & Huq & Hfk & Hsup & Hblk & ->).
  apply find_row_Some in Hfind as [Hi Hkey].
  destruct (split_row _ _ _ Hi) as (l1 & l2 & Erows & Edel & Eins).
  rewrite Eins. rewrite Edel in Huq.
  set (d1 := <[mname M := l1 ++ r :: l2]> d).
  assert (row_ok S M old) as Hold.
  { apply HT; [done|]. rewrite Erows. apply elem_of_app. right. apply list_elem_of_here. }
  assert (row_ok S M r) as Hnew by (by eapply update_row_ok).
  assert (table (map_tables (retarget_row S (mname M) old r) d1) (mname M)
          = l1 ++ r :: l2) as Etm.
  { rewrite table_map_tables. unfold d1. rewrite table_insert, decide_True by done.
    rewrite <- (list_fmap_id (l1 ++ r :: l2)) at 2. apply list_fmap_ext.
    intros. by apply retarget_row_self. }
  assert (∀ c, c ≠ mname M → table d1 c = table d c) as Hd1.
  { intros c Hc. unfold d1. by rewrite table_insert, decide_False. }
  assert (∀ M' fk s, M' ∈ models S → fk ∈ foreign_keys M' → fk_target fk = mname M →
            skey (fk_ref fk) old ≠ Some s → s ∈ keys (fk_ref fk) (table d (mname M)) →
            s ∈ keys (fk_ref fk) (l1 ++ l2)) as Hrest.
  { intros M' fk s HM' Hk Et Hne. rewrite Erows, !keys_app, !elem_of_app.
    intros [?|Hin]; [by left|]. unfold keys in Hin. simpl in Hin.
    destruct (skey (fk_ref fk) old) eqn:E; [|by right].
    apply elem_of_cons in Hin as [->|?]; [done|by right]. }
  split.
  - (* typing *)
    intros M' r' HM'. rewrite table_map_tables.
    intros (x & -> & Hx)%list_elem_of_fmap. apply retarget_row_ok; [done..|].
    unfold d1 in Hx. rewrite table_insert in Hx. case_decide as E; [|by apply HT].
    apply (wf_same_name S wf) in E as <-; [|done..].
    apply elem_of_app in Hx as [?|[->|?]%elem_of_cons]; [|done|].
    + apply HT; [done|]. rewrite Erows. apply elem_of_app. by left.
    + apply HT; [done|]. rewrite Erows. apply elem_of_app. right.
      by apply list_elem_of_further.
  - (* unique keys *)
    intros M' g HM' Hg. destruct (decide (mname M' = mname M)) as [E|E].
    + apply (wf_same_name S wf) in E as ->; [|done..]. rewrite Etm.
      pose proof (HU M g HM Hg) as Hnd. rewrite Erows in Hnd.
      rewrite keys_app in Hnd. rewrite keys_app.
      destruct (unique_skey S wf M g r HM Hg Hnew) as [kn Hkn].
      destruct (unique_skey S wf M g old HM Hg Hold) as [ko Hko].
      pose proof (unique_ok_spec M _ r g kn Huq Hg Hkn) as Hfresh.
      rewrite keys_app, elem_of_app in Hfresh.
      unfold keys in *. simpl in *. rewrite Hkn. rewrite Hko in Hnd.
      apply NoDup_app in Hnd as (N1 & N2 & N3). apply NoDup_cons in N3 as [N3 N4].
      apply NoDup_app. split_and!; [done| |].
      * intros x Hx [->|Hx']%elem_of_cons; [tauto|].
        eapply N2; [done|]. by apply list_elem_of_further.
      * apply NoDup_cons. split; [tauto|done].
    + rewrite table_map_tables, Hd1 by done.
      pose proof (HU M' g HM' Hg) as Hnd.
      destruct (decide (Exists (λ fk, fk_target fk = mname M ∧ fk_field fk = g)
                          (foreign_keys M')))
        as [(fk & Hk & Et & <-)%Exists_exists|Hno].
      * (* the unique column is a foreign key into the updated table *)
        destruct (rekeyed fk old r && bool_decide (on_update fk = Cascade)) eqn:Erk.
        2:{ rewrite keys_fmap_same; [done|]. intros x Hx.
            rewrite (retarget_row_skey _ _ _ M'); [|done..].
            unfold follows. apply andb_false_iff in Erk as [->|Ec].
            - by destruct (on_update fk).
            - apply bool_decide_eq_false in Ec. by destruct (on_update fk). }
        apply andb_prop in Erk as [Erk Ec]. apply bool_decide_eq_true in Ec.
        destruct (wf_fkey_target S wf M' fk HM' Hk) as (P & HP & EP & _ & Hu & _).
        assert (P = M) as -> by (apply (wf_same_name S wf); congruence).
        destruct (unique_skey S wf M _ r HM Hu Hnew) as [kn Hkn].
        destruct (unique_skey S wf M _ old HM Hu Hold) as [ko Hko].
        assert (ko ≠ kn) as Hne.
        { unfold rekeyed in Erk. apply bool_decide_eq_true in Erk. congruence. }
        assert (kn ∉ keys (fk_field fk) (table d (mname M'))) as Hfresh.
        { intros (x & Hx & Hxs)%elem_of_keys.
          pose proof (HF M' fk x kn HM' Hk Hx Hxs) as Hp. rewrite Et in Hp.
          apply (Hrest M' fk) in Hp; [|done..|congruence].
          by eapply (unique_ok_spec M _ r (fk_ref fk) kn). }
        assert (keys (fk_field fk)
                  (retarget_row S (mname M) old r (mname M') <$> table d (mname M'))
                = (λ x, if decide (x = ko) then kn else x)
                    <$> keys (fk_field fk) (table d (mname M'))) as ->.
        { apply keys_fmap_rename. intros x.
          rewrite (retarget_row_skey _ _ _ M'); [|done..].
          unfold follows, refers. rewrite Ec, Erk, Hkn, Hko. simpl.
          destruct (skey (fk_field fk) x) as [s|] eqn:Es; simpl.
          - case_bool_decide as Eb.
            + inversion Eb; subst. by rewrite decide_True.
            + rewrite decide_False; [done|congruence].
          - done. }
        by apply NoDup_rename.
      * rewrite keys_fmap_same; [done|]. intros x Hx. apply lookup_skey.
        unfold retarget_row. apply retarget_with_other.
        intros (fk & En & Hk)%list_elem_of_fmap.
        apply (fkeys_to_inv S wf _ _ M') in Hk as [Hk Et]; [|done..].
        apply Hno, Exists_exists. by exists fk.
  - (* foreign keys *)
    intros M' fk r' s HM' Hk Hr' Hs.
    destruct (wf_fkey_target S wf M' fk HM' Hk) as (P & HP & EP & Hself & Hu & _).
    assert (∀ rows, s ∈ keys (fk_ref fk) rows →
              s ∈ keys (fk_ref fk) (retarget_row S (mname M) old r (fk_target fk) <$> rows))
      as Hkeep.
    { intros rows (p & Hp & Hps)%elem_of_keys. apply elem_of_keys.
      exists (retarget_row S (mname M) old r (fk_target fk) p).
      split; [by apply list_elem_of_fmap_2|].
      rewrite <- EP, (retarget_row_ref _ _ _ M' fk P); done. }
    rewrite table_map_tables. apply Hkeep.
    assert (s ∈ keys (fk_ref fk) (table d (fk_target fk)) →
            fk_target fk ≠ mname M ∨ skey (fk_ref fk) old ≠ Some s →
            s ∈ keys (fk_ref fk) (table d1 (fk_target fk))) as Hto.
    { intros Hin [Hne|Hne]; [by rewrite Hd1|].
      destruct (decide (fk_target fk = mname M)) as [Et|Et]; [|by rewrite Hd1].
      rewrite Et. unfold d1. rewrite table_insert, decide_True by done.
      rewrite Et in Hin. apply (Hrest M' fk) in Hin; [|done..].
      rewrite keys_app, elem_of_app in Hin. rewrite keys_app, elem_of_app.
      destruct Hin as [?|?]; [by left|right].
      unfold keys. simpl. destruct (skey (fk_ref fk) r); [|done].
      by apply list_elem_of_further. }
    assert (fk_target fk = mname M → skey (fk_ref fk) r = Some s →
            s ∈ keys (fk_ref fk) (table d1 (fk_target fk))) as Hnewkey.
    { intros Et Hrs. rewrite Et. unfold d1. rewrite table_insert, decide_True by done.
      apply elem_of_keys. exists r. split; [|done].
      apply elem_of_app. right. apply list_elem_of_here. }
    rewrite table_map_tables in Hr'. apply list_elem_of_fmap in Hr' as (x & -> & Hx).
    destruct (decide (mname M' = mname M)) as [E|E].
    + (* a row of the updated table *)
      apply (wf_same_name S wf) in E as ->; [|done..].
      rewrite retarget_row_self in Hs by done.
      unfold d1 in Hx. rewrite table_insert, decide_True in Hx by done.
      apply Hto; [|by left].
      apply elem_of_app in Hx as [Hx|[->|Hx]%elem_of_cons].
      * apply (HF M fk x s); [done|done| |done].
        rewrite Erows. apply elem_of_app. by left.
      * by apply (fk_ok_spec M d r fk s).
      * apply (HF M fk x s); [done|done| |done].
        rewrite Erows. apply elem_of_app. right. by apply list_elem_of_further.
    + rewrite Hd1 in Hx by done.
      destruct (decide (fk_target fk = mname M)) as [Et|Et].
      2:{ rewrite retarget_row_skey_other in Hs by done.
          apply Hto; [by apply (HF M' fk x s)|by left]. }
      rewrite (retarget_row_skey _ _ _ M') in Hs by done.
      assert (P = M) as -> by (apply (wf_same_name S wf); congruence).
      destruct (unique_skey S wf M _ r HM Hu Hnew) as [kn Hkn].
      rewrite Hkn in Hs.
      destruct (follows fk old r x) eqn:Efo.
      { inversion Hs; subst. by apply Hnewkey. }
      pose proof (HF M' fk x s HM' Hk Hx Hs) as Hin.
      destruct (decide (skey (fk_ref fk) old = Some s)) as [Eo|Eo];
        [|apply Hto; [done|by right]].
      destruct (decide (skey (fk_ref fk) r = Some s)) as [En|En];
        [by apply Hnewkey|].
      exfalso.
      assert (rekeyed fk old r = true) as Erk.
      { unfold rekeyed. apply bool_decide_eq_true. congruence. }
      assert (refers fk old x = true) as Eref.
      { unfold refers. rewrite Eo. by apply bool_decide_eq_true. }
      assert ((mname M', fk) ∈ referencing S (mname M)) as Hin'.
      { apply elem_of_referencing. by exists M'. }
      pose proof (forallb_elem _ _ _ Hsup Hin') as Hs'. simpl in Hs'.
      pose proof (existsb_elem _ _ _ Hblk Hin') as Hb. simpl in Hb.
      unfold follows in Efo. unfold update_supported in Hs'.
      rewrite Erk, Eref in Efo. rewrite Erk in Hb. simpl in Hb.
      destruct (on_update fk); try done.
      * eapply existsb_elem in Hb; [|exact Hx]. congruence.
      * eapply existsb_elem in Hb; [|exact Hx]. congruence.
Qed.

End update.

Section reachable.
Variable S : schema.
Hypothesis wf : well_formed S = true.

Lemma consistent_empty : consistent S ∅.
Proof.
  split.
  - intros M r _. rewrite table_empty. by intros ?%elem_of_nil.
  - intros M f _ _. rewrite table_empty. constructor.
  - intros M k r s _ _. rewrite table_empty. by intros ?%elem_of_nil.
Qed.

Lemma step_consistent d d' : consistent S d → step S d d' → consistent S d'.
Proof.
  intros Hd Hs. inversion Hs; subst.
  - by eapply (create_consistent S wf).
  - by eapply (update_consistent S wf).
  - by eapply (remove_consistent S wf).
Qed.

Lemma reachable_consistent d : reachable S d → consistent S d.
Proof.
  unfold reachable. intros H. apply rtc_nsteps in H as [n H].
  revert d H. induction n as [|n IH]; intros d H.
  - inversion H; subst. apply consistent_empty.
  - apply nsteps_inv_r in H as (d0 & H0 & Hs).
    eapply step_consistent; [|done]. by apply IH.
Qed.

End reachable.

Lemma schema_well_formed : well_formed Schema.schema = true.
Proof. vm_compute. reflexivity. Qed.

Lemma NoDup_omap_lookup {A B} (g : A → option B) (l : list A) i j x y k :
  NoDup (omap g l) → l !! i = Some x → l !! j = Some y →
  g x = Some k → g y = Some k → i = j.
Proof.
  revert i j. induction l as [|a l IH]; intros i j Hnd Hi Hj Hx Hy; [done|].
  simpl in Hnd.
  assert (∀ n z, l !! n = Some z → g z = Some k → k ∈ omap g l) as Hin.
  { intros n z Hn Hz. apply list_elem_of_omap. exists z.
    split; [by eapply list_elem_of_lookup_2|done]. }
  destruct i as [|i], j as [|j]; simpl in *.
  - done.
  - inversion Hi; subst. rewrite Hx in Hnd. apply NoDup_cons in Hnd as [Hk _].
    exfalso. by eapply Hk, Hin.
  - inversion Hj; subst. rewrite Hy in Hnd. apply NoDup_cons in Hnd as [Hk _].
    exfalso. by eapply Hk, Hin.
  - f_equal. apply IH; try done.
    destruct (g a); [by apply NoDup_cons in Hnd as [_ ?]|done].
Qed.

Lemma forallb_false {A} (p : A → bool) l x :
  x ∈ l → p x = false → forallb p l = false.
Proof.
  intros Hx Hp. destruct (forallb p l) eqn:E; [|done].
  rewrite (forallb_elem _ _ _ E Hx) in Hp. done.
Qed.

Section unique.
Variable S : schema.
Hypothesis wf : well_formed S = true.

Lemma unique_no_two_share d M f :
  consistent S d → M ∈ models S → f ∈ unique_fields M →
  no_two_share d (mname M) f.
Proof.
  intros [HT HU _] HM Hf i j r1 r2 Hi Hj Hne E. apply Hne.
  assert (row_ok S M r1) as H1 by (eapply HT, list_elem_of_lookup_2; done).
  destruct (unique_key S wf M f r1 HM Hf H1) as [s Hs].
  eapply (NoDup_omap_lookup (skey f)); [by apply HU|done..| |].
  - unfold skey. by rewrite Hs.
  - unfold skey. by rewrite <- E, Hs.
Qed.

Lemma prepare_Ok now gen m data r :
  prepare S now gen m data = Ok r →
  ∃ M, M ∈ models S ∧ mname M = m ∧ data_known M data = true
       ∧ build_row S now gen (mfields M) data = Ok r.
Proof.
  unfold prepare. destruct (find_model S m) as [M|] eqn:EM; [|done].
  apply find_model_Some in EM as [HM Em].
  destruct (data_known M data) eqn:Ek; [|done]. simpl. eauto.
Qed.

Lemma prepare_ok now gen M data r :
  M ∈ models S → prepare S now gen (mname M) data = Ok r → row_ok S M r.
Proof.
  intros HM (M' & HM' & E & _ & H)%prepare_Ok.
  apply (wf_same_name S wf) in E as ->; [|done..].
  by eapply (build_row_ok S wf).
Qed.

(** A create whose row repeats a key of the table fails on the unique
    constraint. *)
Lemma create_duplicate now gen M f data d r r0 :
  M ∈ models S → f ∈ unique_fields M →
  prepare S now gen (mname M) data = Ok r →
  r0 ∈ table d (mname M) → r !! f = r0 !! f →
  create S now gen (mname M) data d = Err UniqueConstraint.
Proof.
  intros HM Hf Hp Hr0 E.
  destruct (unique_key S wf M f r HM Hf (prepare_ok _ _ _ _ _ HM Hp)) as [s Hs].
  assert (unique_ok M (table d (mname M)) r = false) as Hu.
  { unfold unique_ok. apply (forallb_false _ _ f Hf).
    unfold skey at 1. rewrite Hs. apply bool_decide_eq_false. intros Hn. apply Hn.
    apply elem_of_keys. exists r0. split; [done|]. unfold skey. by rewrite <- E, Hs. }
  unfold create. rewrite (wf_find S wf M HM), Hp. simpl. by rewrite Hu.
Qed.

Lemma create_step now gen m data d :
  is_ok (create S now gen m data d) = true →
  step S d (after (create S now gen m data d) d).
Proof.
  destruct (create S now gen m data d) as [[r d']|] eqn:E; [|done].
  intros _. simpl. by eapply step_create.
Qed.

Lemma update_step now m f k data d :
  is_ok (update S now m f k data d) = true →
  step S d (after (update S now m f k data d) d).
Proof.
  destruct (update S now m f k data d) as [[r d']|] eqn:E; [|done].
  intros _. simpl. by eapply step_update.
Qed.

End unique.

Ltac by_computation := apply (bool_decide_unpack _); vm_compute; exact I.

Lemma unique_columns_declared m f :
  (m, f) ∈ Schema.unique_columns →
  ∃ M, M ∈ models Schema.schema ∧ mname M = m ∧ f ∈ unique_fields M.
Proof.
  unfold Schema.unique_columns. intros H.
  repeat (apply elem_of_cons in H as [[= -> ->]|H]);
    [..|by apply elem_of_nil in H].
  - exists Schema.User. split_and!; [|done|]; by_computation.
  - exists Schema.User. split_and!; [|done|]; by_computation.
  - exists Schema.IndustryInsight. split_and!; [|done|]; by_computation.
  - exists Schema.Payment. split_and!; [|done|]; by_computation.
  - exists Schema.FeatureCost. split_and!; [|done|]; by_computation.
Qed.

(** C3: in every reachable state no two Users share a clerkUserId or an
    email, no two IndustryInsights an industry name, no two Payments a
    razorpayId and no two FeatureCosts a featureName; a create whose row
    would repeat such a value of an existing row fails with the
    unique-constraint error, which the repository layer reports as
    [ConflictError], and the database stays as it was. *)
Theorem unique_columns_enforced m f d :
  (m, f) ∈ Schema.unique_columns →
  reachable Schema.schema d →
  no_two_share d m f
  ∧ ∀ now gen data r r0,
      prepare Schema.schema now gen m data = Ok r →
      r0 ∈ table d m → r !! f = r0 !! f →
      create Schema.schema now gen m data d = Err UniqueConstraint
      ∧ Repository.lift (create Schema.schema now gen m data d)
        = Err Repository.ConflictError
      ∧ after (create Schema.schema now gen m data d) d = d.
Proof.
  intros (M & HM & <- & Hf)%unique_columns_declared Hd.
  apply (reachable_consistent _ schema_well_formed) in Hd.
  split; [by apply (unique_no_two_share _ schema_well_formed)|].
  intros now gen data r r0 Hp Hr0 E.
  pose proof (create_duplicate _ schema_well_formed now gen M f data d r r0
                HM Hf Hp Hr0 E) as Hc.
  rewrite Hc. done.
Qed.

(** *** Evaluating on the example databases *)

Lemma row_of_Ok (x : result error (gmap string value)) :
  is_ok x = true → x = Ok (Sample.row_of x).
Proof. by destruct x. Qed.

Lemma nth_row_elem (rows : list (gmap string value)) i :
  bool_decide (i < length rows)%nat = true → Sample.nth_row rows i ∈ rows.
Proof.
  intros H%bool_decide_eq_true. apply lookup_lt_is_Some_2 in H as [r Hr].
  unfold Sample.nth_row. rewrite Hr. by eapply list_elem_of_lookup_2.
Qed.

Lemma one_user_reachable : reachable Schema.schema Sample.one_user.
Proof.
  eapply rtc_l; [|apply rtc_refl].
  apply create_step. vm_compute. reflexivity.
Defined.

Lemma two_users_reachable : reachable Schema.schema Sample.two_users.
Proof.
  eapply rtc_r; [apply one_user_reachable|].
  apply create_step. vm_compute. reflexivity.
Defined.

Lemma unique_columns_enforced_witness :
  no_two_share Sample.one_user "User" "email"
  ∧ create Schema.schema 2 "u2" "User" Sample.impostor Sample.one_user
    = Err UniqueConstraint
  ∧ Repository.lift
      (create Schema.schema 2 "u2" "User" Sample.impostor Sample.one_user)
    = Err Repository.ConflictError
  ∧ after (create Schema.schema 2 "u2" "User" Sample.impostor Sample.one_user)
      Sample.one_user = Sample.one_user.
Proof.
  destruct (unique_columns_enforced "User" "email" Sample.one_user)
    as [Hshare Hcreate].
  - by_computation.
  - apply one_user_reachable.
  - split; [exact Hshare|].
    apply (Hcreate 2 "u2" Sample.impostor Sample.impostor_row Sample.alice_row).
    + apply row_of_Ok. vm_compute. reflexivity.
    + apply nth_row_elem. vm_compute. reflexivity.
    + vm_compute. reflexivity.
Defined.

Lemma NoDup_omap_filter {A B} `{EqDecision B} (g : A → option B) (l : list A) k :
  NoDup (omap g l) → (length (filter (λ x, g x = Some k) l) ≤ 1)%nat.
Proof.
  induction l as [|a l IH]; simpl; [lia|]. intros Hnd.
  rewrite filter_cons. case_decide as E.
  - rewrite E in Hnd. apply NoDup_cons in Hnd as [Hk Hnd].
    assert (filter (λ x, g x = Some k) l = []) as ->; [|simpl; lia].
    apply elem_of_nil_inv. intros x [Hx Hin]%list_elem_of_filter.
    apply Hk, list_elem_of_omap. eauto.
  - apply IH. destruct (g a); [by apply NoDup_cons in Hnd as [_ ?]|done].
Qed.

Section progress.
Variable S : schema.
Hypothesis wf : well_formed S = true.

(** A create succeeds when the row it describes repeats no key and refers
    to rows that exist. *)
Lemma create_succeeds now gen M data d r :
  M ∈ models S → prepare S now gen (mname M) data = Ok r →
  (∀ f k, f ∈ unique_fields M → skey f r = Some k → k ∉ keys f (table d (mname M))) →
  (∀ fk s, fk ∈ foreign_keys M → skey (fk_field fk) r = Some s →
     s ∈ keys (fk_ref fk) (table d (fk_target fk))) →
  create S now gen (mname M) data d
  = Ok (r, <[mname M := table d (mname M) ++ [r]]> d).
Proof.
  intros HM Hp Hu Hf. unfold create. rewrite (wf_find S wf M HM), Hp. simpl.
  assert (unique_ok M (table d (mname M)) r = true) as ->.
  { unfold unique_ok. apply forallb_forall. intros f Hin%list_elem_of_In.
    destruct (skey f r) eqn:E; [|done]. apply bool_decide_eq_true. by eapply Hu. }
  assert (fk_ok M d r = true) as ->; [|done].
  unfold fk_ok. apply forallb_forall. intros fk Hin%list_elem_of_In.
  destruct (skey (fk_field fk) r) eqn:E; [|done].
  apply bool_decide_eq_true. by eapply Hf.
Qed.

(** A delete is refused while a row refers to the deleted one through a
    relation that restricts it. *)
Lemma remove_restricted M f k d i old C fk x :
  M ∈ models S → f ∈ unique_fields M →
  find_row f k (table d (mname M)) = Some (i, old) →
  C ∈ models S → fk ∈ foreign_keys C → fk_target fk = mname M →
  on_delete fk = Restrict →
  x ∈ table d (mname C) → skey (fk_field fk) x = skey (fk_ref fk) old →
  is_Some (skey (fk_ref fk) old) →
  remove S (mname M) f k d = Err ForeignKeyConstraint.
Proof.
  intros HM Hf Hfind HC Hfk Et Ed Hx Hk [s Hs]. unfold remove.
  rewrite (wf_find S wf M HM), bool_decide_eq_true_2, Hfind by done. simpl.
  assert (forallb (λ ck : string * fkey, delete_supported ck.2)
            (referencing S (mname M)) = true) as ->.
  { apply forallb_forall. intros [c k'] Hin%list_elem_of_In.
    apply elem_of_referencing in Hin as (M' & HM' & _ & Hk' & _).
    by apply (wf_fkey_actions S wf M' k'). }
  simpl.
  assert (delete_blocked S (mname M) old d = true) as ->; [|done].
  unfold delete_blocked. apply existsb_exists. exists (mname C, fk). split.
  { apply list_elem_of_In, elem_of_referencing. by exists C. }
  simpl. rewrite Ed. apply existsb_exists. exists x.
  split; [by apply list_elem_of_In|].
  unfold refers. rewrite Hs. apply bool_decide_eq_true. congruence.
Qed.

(** Every reference of a row resolves to a row of the referenced table. *)
Lemma reference_resolves d M fk r s :
  consistent S d → M ∈ models S → fk ∈ foreign_keys M →
  r ∈ table d (mname M) → r !! fk_field fk = Some (VString s) →
  ∃ p, p ∈ table d (fk_target fk) ∧ p !! fk_ref fk = Some (VString s).
Proof.
  intros [HT _ HF] HM Hfk Hr Hs.
  assert (skey (fk_field fk) r = Some s) as Hk by (unfold skey; by rewrite Hs).
  pose proof (HF M fk r s HM Hfk Hr Hk) as (p & Hp & Hps)%elem_of_keys.
  exists p. split; [done|]. unfold skey in Hps.
  destruct (p !! fk_ref fk) as [[]|]; congruence.
Qed.

Lemma required_string M n r :
  column_is M n TString Required = true → row_ok S M r →
  ∃ s, r !! n = Some (VString s).
Proof.
  intros (f & Hf & <- & Et & Ea)%column_is_spec Hr.
  destruct (Hr f Hf) as (v & Hv & Hok). unfold value_ok in Hok.
  rewrite Ea, Et in Hok. destruct v; try done. eauto.
Qed.

End progress.

(** *** The rows a User owns *)

Lemma owned_declared c :
  c ∈ Schema.owned →
  ∃ C, C ∈ models Schema.schema ∧ mname C = c
       ∧ FKey "userId" "User" "id" Required None None ∈ foreign_keys C
       ∧ column_is C "userId" TString Required = true.
Proof.
  unfold Schema.owned. intros H.
  repeat (apply elem_of_cons in H as [->|H]); [..|by apply elem_of_nil in H].
  - exists Schema.Assessment. split_and!; [by_computation|done|by_computation|done].
  - exists Schema.Resume. split_and!; [by_computation|done|by_computation|done].
  - exists Schema.CoverLetter. split_and!; [by_computation|done|by_computation|done].
  - exists Schema.TokenTransaction. split_and!; [by_computation|done|by_computation|done].
  - exists Schema.Payment. split_and!; [by_computation|done|by_computation|done].
Qed.

Lemma User_declared : Schema.User ∈ models Schema.schema.
Proof. by_computation. Qed.

Lemma find_unique_Some m f k (d : gmap string (list (gmap string value))) u :
  find_unique m f k d = Some u →
  ∃ i, find_row f k (table d m) = Some (i, u).
Proof.
  unfold find_unique. destruct (find_row f k (table d m)) as [[i r]|]; [|done].
  intros [= <-]. eauto.
Qed.

(** C9: no relation of the schema declares a referential action, so the
    defaults apply: deleting a User that an Assessment, Resume, CoverLetter,
    TokenTransaction or Payment row still names is refused by the store and
    changes nothing, and in every reachable state the [userId] of every such
    row is the [id] of a User row. *)
Theorem owned_rows_keep_their_user d :
  reachable Schema.schema d →
  declared_actions Schema.schema = []
  ∧ ∀ c r, c ∈ Schema.owned → r ∈ table d c →
      (∃ u s, u ∈ table d "User" ∧ r !! "userId" = Some (VString s)
              ∧ u !! "id" = Some (VString s))
      ∧ (∀ f k u, f ∈ unique_fields Schema.User →
           find_unique "User" f k d = Some u → u !! "id" = r !! "userId" →
           remove Schema.schema "User" f k d = Err ForeignKeyConstraint
           ∧ after (remove Schema.schema "User" f k d) d = d).
Proof.
  intros Hd. split; [done|].
  intros c r (C & HC & <- & Hfk & Hcol)%owned_declared Hr.
  apply (reachable_consistent _ schema_well_formed) in Hd.
  assert (row_ok Schema.schema C r) as Hok by (by apply (rows_typed _ _ Hd)).
  destruct (required_string _ C "userId" r Hcol Hok) as [s Hs].
  split.
  - destruct (reference_resolves _ d C _ r s Hd HC Hfk Hr Hs)
      as (u & Hu & Hid).
    by exists u, s.
  - intros f k u Hf (i & Hfind)%find_unique_Some Hid.
    assert (remove Schema.schema "User" f k d = Err ForeignKeyConstraint) as Hrm.
    { apply (remove_restricted _ schema_well_formed Schema.User f k d i u C
               (FKey "userId" "User" "id" Required None None) r);
        try done; [apply User_declared| |].
      - unfold skey. simpl. by rewrite Hid.
      - unfold skey. simpl. rewrite Hid, Hs. eauto. }
    by rewrite Hrm.
Qed.

Lemma default_Some (o : option (gmap string value)) :
  bool_decide (is_Some o) = true → o = Some (default ∅ o).
Proof. intros [r ->]%bool_decide_eq_true. done. Qed.

Lemma with_resume_reachable : reachable Schema.schema Sample.with_resume.
Proof.
  eapply rtc_r; [apply two_users_reachable|].
  apply create_step. vm_compute. reflexivity.
Defined.

Lemma owned_rows_keep_their_user_witness :
  declared_actions Schema.schema = []
  ∧ (∃ u s, u ∈ table Sample.with_resume "User"
            ∧ Sample.alice_resume !! "userId" = Some (VString s)
            ∧ u !! "id" = Some (VString s))
  ∧ remove Schema.schema "User" "id" "u1" Sample.with_resume
    = Err ForeignKeyConstraint.
Proof.
  destruct (owned_rows_keep_their_user Sample.with_resume with_resume_reachable)
    as [H1 Hrows].
  destruct (Hrows "Resume" Sample.alice_resume) as [H2 H3].
  - by_computation.
  - apply nth_row_elem. vm_compute. reflexivity.
  - split; [exact H1|]. split; [exact H2|].
    refine (proj1 (H3 "id" "u1"
                     (default ∅ (find_unique "User" "id" "u1" Sample.with_resume))
                     _ _ _)).
    + by_computation.
    + apply default_Some. vm_compute. reflexivity.
    + vm_compute. reflexivity.
Defined.

(** *** One Resume per User *)

Lemma Resume_declared : Schema.Resume ∈ models Schema.schema.
Proof. by_computation. Qed.

(** C5: in every reachable state a User owns at most one Resume; creating a
    Resume for a User that has one fails on the unique constraint and
    changes nothing, while a User that has none gets the Resume appended,
    whatever Resumes other Users have. *)
Theorem one_resume_per_user d u :
  reachable Schema.schema d →
  (length (filter (λ x, skey "userId" x = Some u) (table d "Resume")) ≤ 1)%nat
  ∧ ∀ now gen data r,
      prepare Schema.schema now gen "Resume" data = Ok r →
      r !! "userId" = Some (VString u) →
      (u ∈ keys "userId" (table d "Resume") →
       create Schema.schema now gen "Resume" data d = Err UniqueConstraint
       ∧ after (create Schema.schema now gen "Resume" data d) d = d)
      ∧ (u ∉ keys "userId" (table d "Resume") →
         u ∈ keys "id" (table d "User") →
         gen ∉ keys "id" (table d "Resume") →
         data !! "id" = None →
         create Schema.schema now gen "Resume" data d
         = Ok (r, <["Resume" := table d "Resume" ++ [r]]> d)).
Proof.
  intros Hd.
  apply (reachable_consistent _ schema_well_formed) in Hd.
  split.
  { apply NoDup_omap_filter.
    apply (keys_unique _ _ Hd Schema.Resume); [apply Resume_declared|by_computation]. }
  intros now gen data r Hp Hu.
  assert (skey "userId" r = Some u) as Hk by (unfold skey; by rewrite Hu).
  split.
  - intros (r0 & Hr0 & Hk0)%elem_of_keys.
    assert (create Schema.schema now gen "Resume" data d = Err UniqueConstraint) as Hc.
    { apply (create_duplicate _ schema_well_formed now gen Schema.Resume "userId"
               data d r r0); [apply Resume_declared|by_computation|done..|].
      rewrite Hu. unfold skey in Hk0.
      destruct (r0 !! "userId") as [[]|]; congruence. }
    by rewrite Hc.
  - intros Hfree Huser Hgen Hid.
    apply (create_succeeds _ schema_well_formed now gen Schema.Resume data d r);
      [apply Resume_declared|done| |].
    + intros f k Hf. change (unique_fields Schema.Resume) with ["id"; "userId"] in Hf.
      apply elem_of_cons in Hf as [->|Hf].
      * apply prepare_Ok in Hp as (M & HM & E & _ & Hb).
        apply (wf_same_name _ schema_well_formed _ Schema.Resume) in E as ->;
          [|done|apply Resume_declared].
        apply build_row_lookup in Hb as [Hb _];
          [|by apply (wf_fields _ schema_well_formed), Resume_declared].
        destruct (Hb Schema.id_cuid) as (v & Hv & Hrv); [by_computation|].
        unfold new_value in Hv. simpl in Hv, Hrv. rewrite Hid in Hv. simpl in Hv.
        inversion Hv; subst. unfold skey. rewrite Hrv. by intros [= <-].
      * apply list_elem_of_singleton in Hf as ->. rewrite Hk. by intros [= <-].
    + intros fk s Hfk.
      change (foreign_keys Schema.Resume)
        with [FKey "userId" "User" "id" Required None None] in Hfk.
      apply list_elem_of_singleton in Hfk as ->. simpl. rewrite Hk. by intros [= <-].
Qed.

Lemma one_resume_per_user_witness :
  (length (filter (λ x, skey "userId" x = Some "u1")
             (table Sample.with_resume "Resume")) ≤ 1)%nat
  ∧ create Schema.schema 4 "r2" "Resume" (Sample.resume_of "u1") Sample.with_resume
    = Err UniqueConstraint
  ∧ create Schema.schema 4 "r2" "Resume" (Sample.resume_of "u2") Sample.with_resume
    = Ok (Sample.bob_first,
          <["Resume" := table Sample.with_resume "Resume" ++ [Sample.bob_first]]>
            Sample.with_resume).
Proof.
  destruct (one_resume_per_user Sample.with_resume "u1" with_resume_reachable)
    as [H1 Halice].
  destruct (Halice 4 "r2" (Sample.resume_of "u1") Sample.alice_again) as [H2 _].
  { apply row_of_Ok. vm_compute. reflexivity. }
  { vm_compute. reflexivity. }
  destruct (one_resume_per_user Sample.with_resume "u2" with_resume_reachable)
    as [_ Hbob].
  destruct (Hbob 4 "r2" (Sample.resume_of "u2") Sample.bob_first) as [_ H3].
  { apply row_of_Ok. vm_compute. reflexivity. }
  { vm_compute. reflexivity. }
  split; [exact H1|]. split.
  - apply H2. by_computation.
  - apply H3; [by_computation..|]. vm_compute. reflexivity.
Defined.

(** *** Defaults and timestamps *)

Section columns.
Variable S : schema.
Hypothesis wf : well_formed S = true.

Lemma create_value now gen M data d r d' fld :
  M ∈ models S → fld ∈ mfields M →
  create S now gen (mname M) data d = Ok (r, d') →
  ∃ v, new_value S now gen data fld = Ok v ∧ r !! fname fld = Some v.
Proof.
  intros HM Hf (M' & HM' & E & _ & Hb & _)%create_Ok.
  apply (wf_same_name S wf) in E as ->; [|done..].
  apply build_row_lookup in Hb as [Hb _]; [|by apply (wf_fields S wf)].
  by apply Hb.
Qed.

Lemma create_last now gen m data d r d' :
  create S now gen m data d = Ok (r, d') → last (table d' m) = Some r.
Proof.
  intros (M & _ & _ & _ & _ & _ & _ & ->)%create_Ok.
  rewrite table_insert, decide_True by done. apply last_snoc.
Qed.

Lemma update_value now M f k data d old r d' fld :
  M ∈ models S → fld ∈ mfields M →
  find_unique (mname M) f k d = Some old →
  update S now (mname M) f k data d = Ok (r, d') →
  r !! fname fld = updated_value now data old fld.
Proof.
  intros HM Hf Hold H. apply update_Ok in H
    as (M' & i & old' & HM' & E & _ & _ & Hfind & Hrow & _).
  apply (wf_same_name S wf) in E as ->; [|done..].
  unfold find_unique in Hold. rewrite Hfind in Hold. inversion Hold; subst.
  apply update_row_lookup in Hrow as (H1 & _); [|by apply (wf_fields S wf)].
  by rewrite (H1 fld Hf).
Qed.

Lemma update_stored now m f k data d old r d' :
  find_unique m f k d = Some old →
  update S now m f k data d = Ok (r, d') →
  ∃ i, table d m !! i = Some old ∧ table d' m = <[i := r]> (table d m).
Proof.
  intros Hold (i & old' & Hfind & Ht & _)%(update_tables S wf).
  unfold find_unique in Hold. rewrite Hfind in Hold. inversion Hold; subst.
  apply find_row_Some in Hfind as [Hi _]. eauto.
Qed.



End columns.

Lemma returned_after {E} (x : result E (gmap string value * gmap string (list (gmap string value)))) d :
  is_ok x = true → x = Ok (returned x, after x d).
Proof. by destruct x as [[r d']|]. Qed.


Lemma IndustryInsight_declared : Schema.IndustryInsight ∈ models Schema.schema.
Proof. by_computation. Qed.

(** *** Updates that leave the keys alone *)

Section same_keys.
Variable S : schema.
Hypothesis wf : well_formed S = true.

Lemma update_row_succeeds now fs data old :
  (∀ fld v, fld ∈ fs → data !! fname fld = Some v → is_ok (accept S fld v) = true) →
  is_ok (update_row S now fs data old) = true.
Proof.
  induction fs as [|fld fs IH]; intros H; simpl; [done|].
  destruct (update_row S now fs data old) as [r|] eqn:E.
  2:{ exfalso. assert (is_ok (Err e : result error (gmap string value)) = true) as X; [|done].
      apply IH. intros ? ? ?. apply H. by apply list_elem_of_further. }
  simpl. destruct (data !! fname fld) as [v|] eqn:Ev.
  - pose proof (H fld v (list_elem_of_here _ _) Ev) as Hv.
    by destruct (accept S fld v).
  - by destruct (is_updatedAt fld && touched data).
Qed.

Lemma build_row_succeeds now gen fs data :
  (∀ fld, fld ∈ fs → is_ok (new_value S now gen data fld) = true) →
  is_ok (build_row S now gen fs data) = true.
Proof.
  induction fs as [|fld fs IH]; intros H; simpl; [done|].
  pose proof (H fld (list_elem_of_here _ _)) as Hv.
  destruct (new_value S now gen data fld) as [v|]; [|done]. simpl.
  destruct (build_row S now gen fs data) as [r|] eqn:E; [done|].
  apply IH. intros ? ?. apply H. by apply list_elem_of_further.
Qed.


Lemma string_not_updatedAt M fld :
  M ∈ models S → fld ∈ mfields M → ftype fld = TString → is_updatedAt fld = false.
Proof.
  intros HM Hf Et. pose proof (wf_default S wf M fld HM Hf) as Hd.
  unfold default_ok in Hd. apply andb_prop in Hd as [_ Hd].
  destruct (is_updatedAt fld); [|done]. simpl in Hd.
  unfold value_ok in Hd. rewrite Et in Hd. by destruct (farity fld).
Qed.

Lemma string_column M n :
  M ∈ models S →
  n ∈ unique_fields M ∨ n ∈ fk_field <$> foreign_keys M →
  ∃ fld, fld ∈ mfields M ∧ fname fld = n ∧ ftype fld = TString.
Proof.
  intros HM [Hn|(fk & -> & Hfk)%list_elem_of_fmap].
  - apply (wf_unique S wf M n HM), column_is_spec in Hn as (fld & ? & ? & ? & _).
    eauto.
  - destruct (wf_fkey_column S wf M fk HM Hfk) as (fld & ? & ? & ? & _). eauto.
Qed.

(** A key column the caller does not write keeps its value. *)
Lemma update_row_same_key now M data old r n :
  M ∈ models S →
  n ∈ unique_fields M ∨ n ∈ fk_field <$> foreign_keys M →
  update_row S now (mfields M) data old = Ok r → data !! n = None →
  r !! n = old !! n.
Proof.
  intros HM Hn Hrow Hdata.
  destruct (string_column M n HM Hn) as (fld & Hf & <- & Et).
  apply update_row_lookup in Hrow as (H1 & _); [|by apply (wf_fields S wf)].
  rewrite (H1 fld Hf). unfold updated_value.
  by rewrite Hdata, (string_not_updatedAt M fld).
Qed.

Lemma retarget_with_same old new ks (r : gmap string value) :
  (∀ k, k ∈ ks → skey (fk_ref k) old = skey (fk_ref k) new) →
  retarget_with old new ks r = r.
Proof.
  induction ks as [|k ks IH]; intros H; simpl; [done|].
  fold (retarget_with old new ks r). rewrite IH.
  2:{ intros. apply H. by apply list_elem_of_further. }
  unfold follows, rekeyed.
  rewrite bool_decide_eq_false_2; [by destruct (on_update k)|].
  intros Hne. apply Hne, H, list_elem_of_here.
Qed.

(** An update that writes no referenced column changes no other table. *)
Lemma update_other_tables now m f k data d r d' :
  update S now m f k data d = Ok (r, d') →
  (∀ c fk, (c, fk) ∈ referencing S m → data !! fk_ref fk = None) →
  ∀ c, c ≠ m → table d' c = table d c.
Proof.
  intros H Hdata c Hc.
  pose proof H as (i & old & Hfind & _ & Ht)%(update_tables S wf).
  apply update_Ok in H
    as (M & i' & old' & HM & <- & _ & _ & Hfind' & Hrow & _).
  rewrite Hfind in Hfind'. inversion Hfind'; subst i' old'.
  rewrite (Ht c Hc). rewrite <- (list_fmap_id (table d c)) at 2.
  apply list_fmap_ext. intros _ x _. unfold retarget_row.
  apply retarget_with_same. intros fk (C & EC & Hfk & Et)%elem_of_fkeys_to.
  apply find_model_Some in EC as [HC <-].
  destruct (wf_fkey_target S wf C fk HC Hfk) as (P & HP & EP & _ & Hu & _).
  assert (P = M) as -> by (apply (wf_same_name S wf); congruence).
  apply lookup_skey. symmetry.
  eapply (update_row_same_key now M); [done|by left|done|].
  apply (Hdata (mname C)), elem_of_referencing. by exists C.
Qed.


End same_keys.

(** Row lookups that survive a rewrite of another row. *)

Lemma find_row_insert_same f k (rows : list (gmap string value)) i old r :
  find_row f k rows = Some (i, old) → skey f r = Some k →
  find_row f k (<[i := r]> rows) = Some (i, r).
Proof.
  unfold find_row. rewrite !list_find_Some. intros (Hi & _ & Hlt) Hr.
  split_and!; [|done|].
  - apply list_lookup_insert_eq. by eapply lookup_lt_Some.
  - intros j y Hj Hji. rewrite list_lookup_insert_ne in Hj by lia. by eapply Hlt.
Qed.

Lemma find_row_insert_other f k (rows : list (gmap string value)) i p j r :
  find_row f k rows = Some (i, p) → j ≠ i → skey f r ≠ Some k →
  find_row f k (<[j := r]> rows) = Some (i, p).
Proof.
  unfold find_row. rewrite !list_find_Some. intros (Hi & Hp & Hlt) Hne Hr.
  split_and!; [|done|].
  - by rewrite list_lookup_insert_ne.
  - intros n y Hn Hni. destruct (decide (n = j)) as [->|Hnj].
    + destruct (decide (j < length rows)%nat).
      * rewrite list_lookup_insert_eq in Hn by done. by inversion Hn; subst.
      * rewrite list_insert_ge in Hn by lia. by eapply Hlt.
    + rewrite list_lookup_insert_ne in Hn by done. by eapply Hlt.
Qed.

Lemma find_row_app f k (rows : list (gmap string value)) i p more :
  find_row f k rows = Some (i, p) → find_row f k (rows ++ more) = Some (i, p).
Proof.
  unfold find_row. rewrite !list_find_Some. intros (Hi & Hp & Hlt).
  split_and!; [by apply lookup_app_l_Some|done|].
  intros j y Hj Hji. apply (Hlt j y); [|done].
  rewrite lookup_app_l in Hj; [done|]. apply lookup_lt_Some in Hi. lia.
Qed.

(** *** Writing one column that is not a key *)

Section one_column.
Variable S : schema.
Hypothesis wf : well_formed S = true.



Lemma update_column_tables now M f k c v d r d' :
  M ∈ models S → c ∉ unique_fields M →
  update S now (mname M) f k {[ c := v ]} d = Ok (r, d') →
  ∃ i old, find_row f k (table d (mname M)) = Some (i, old)
    ∧ table d' (mname M) = <[i := r]> (table d (mname M))
    ∧ (∀ c', c' ≠ mname M → table d' c' = table d c')
    ∧ (∀ fld, fld ∈ mfields M → fname fld = c → r !! c = Some (coerce fld v))
    ∧ (∀ n, n ∈ unique_fields M → r !! n = old !! n).
Proof.
  intros HM Hu H.
  pose proof H as (i & old & Hfind & Ht & _)%(update_tables S wf).
  exists i, old. split_and!; [done..| | |].
  - apply (update_other_tables S wf _ _ _ _ _ _ _ _ H).
    intros c' fk (C & HC & _ & Hfk & Et)%elem_of_referencing.
    destruct (wf_fkey_target S wf C fk HC Hfk) as (P & HP & EP & _ & Hr & _).
    assert (P = M) as -> by (apply (wf_same_name S wf); congruence).
    apply lookup_singleton_ne. by intros ->.
  - intros fld Hfld <-.
    apply update_Ok in H as (M' & i' & old' & HM' & E & _ & _ & _ & Hrow & _).
    apply (wf_same_name S wf) in E as ->; [|done..].
    apply update_row_lookup in Hrow as (H1 & _); [|by apply (wf_fields S wf)].
    rewrite (H1 fld Hfld). unfold updated_value.
    by rewrite lookup_singleton_eq.
  - intros n Hn.
    apply update_Ok in H as (M' & i' & old' & HM' & E & _ & _ & Hfind' & Hrow & _).
    apply (wf_same_name S wf) in E as ->; [|done..].
    rewrite Hfind in Hfind'. inversion Hfind'; subst i' old'.
    eapply (update_row_same_key S wf now M); [done|by left|done|].
    apply lookup_singleton_ne. by intros ->.
Qed.

(** What a create stores in a column the caller supplied. *)
Lemma create_supplied now gen M data d r d' fld v :
  M ∈ models S → fld ∈ mfields M → data !! fname fld = Some v →
  create S now gen (mname M) data d = Ok (r, d') →
  r !! fname fld = Some (coerce fld v).
Proof.
  intros HM Hfld Hdata Hc.
  destruct (create_value S wf now gen M data d r d' fld HM Hfld Hc) as (w & Hw & ->).
  unfold new_value in Hw. rewrite Hdata in Hw.
  by apply accept_Ok in Hw as (-> & _).
Qed.

Lemma create_tables now gen m data d r d' :
  create S now gen m data d = Ok (r, d') →
  table d' m = table d m ++ [r] ∧ ∀ c, c ≠ m → table d' c = table d c.
Proof.
  intros (M & _ & _ & _ & _ & _ & _ & ->)%create_Ok. split.
  - by rewrite table_insert, decide_True.
  - intros c Hc. by rewrite table_insert, decide_False.
Qed.

End one_column.

Ltac by_list := repeat (first [apply list_elem_of_here | apply list_elem_of_further]).


(** *** Defaults *)

Lemma Payment_model : Schema.Payment ∈ models Schema.schema.
Proof. by_computation. Qed.

Lemma create_default now gen M data d r d' fld dv :
  M ∈ models Schema.schema → fld ∈ mfields M → field_default fld = Some dv →
  create Schema.schema now gen (mname M) data d = Ok (r, d') →
  data !! fname fld = None →
  r !! fname fld = Some (default_of now gen dv).
Proof.
  intros HM Hfld Hdv Hc Hdata.
  destruct (create_value _ schema_well_formed now gen M data d r d' fld HM Hfld Hc)
    as (v & Hv & ->).
  unfold new_value in Hv. rewrite Hdata, Hdv in Hv. by inversion Hv.
Qed.

(** C6: a create that supplies no value for the column stores 10000 in
    [tokens] of a new User, "INR" in [currency] and PENDING in [status] of a
    new Payment; the row returned is the row appended to the table. *)
Theorem new_rows_get_defaults m f v now gen data d r d' :
  (m, f, v) ∈ [ ("User", "tokens", VInt 10000);
                ("Payment", "currency", VString "INR");
                ("Payment", "status", VEnum "PENDING") ] →
  create Schema.schema now gen m data d = Ok (r, d') →
  data !! f = None →
  r !! f = Some v ∧ last (table d' m) = Some r.
Proof.
  intros Hin Hc Hdata. split; [|by eapply create_last].
  repeat (apply elem_of_cons in Hin as [[= -> -> ->]|Hin]);
    [..|by apply elem_of_nil in Hin].
  - exact (create_default now gen Schema.User data d r d'
             (Field "tokens" TInt Required [AttrDefault (DefaultInt 10000)])
             (DefaultInt 10000) User_declared ltac:(by_computation) eq_refl Hc Hdata).
  - exact (create_default now gen Schema.Payment data d r d'
             (Field "currency" TString Required [AttrDefault (DefaultString "INR")])
             (DefaultString "INR") Payment_model ltac:(by_computation) eq_refl
             Hc Hdata).
  - exact (create_default now gen Schema.Payment data d r d'
             (Field "status" (TEnum "PaymentStatus") Required
                [AttrDefault (DefaultEnum "PENDING")])
             (DefaultEnum "PENDING") Payment_model ltac:(by_computation) eq_refl
             Hc Hdata).
Qed.

Lemma new_rows_get_defaults_witness :
  returned (create Schema.schema 1 "u1" "User" Sample.alice ∅) !! "tokens"
  = Some (VInt 10000)
  ∧ returned (create Schema.schema 3 "p1" "Payment" Cases.invoice Sample.one_user)
      !! "currency" = Some (VString "INR")
  ∧ returned (create Schema.schema 3 "p1" "Payment" Cases.invoice Sample.one_user)
      !! "status" = Some (VEnum "PENDING").
Proof.
  pose proof (returned_after (create Schema.schema 1 "u1" "User" Sample.alice ∅) ∅)
    as Hu.
  specialize (Hu ltac:(vm_compute; reflexivity)).
  pose proof (returned_after
                (create Schema.schema 3 "p1" "Payment" Cases.invoice Sample.one_user)
                Sample.one_user) as Hp.
  specialize (Hp ltac:(vm_compute; reflexivity)).
  split_and!.
  - refine (proj1 (new_rows_get_defaults "User" "tokens" (VInt 10000) 1 "u1"
                     Sample.alice ∅ _ _ _ Hu _)).
    + by_list.
    + vm_compute. reflexivity.
  - refine (proj1 (new_rows_get_defaults "Payment" "currency" (VString "INR") 3 "p1"
                     Cases.invoice Sample.one_user _ _ _ Hp _)).
    + by_list.
    + vm_compute. reflexivity.
  - refine (proj1 (new_rows_get_defaults "Payment" "status" (VEnum "PENDING") 3 "p1"
                     Cases.invoice Sample.one_user _ _ _ Hp _)).
    + by_list.
    + vm_compute. reflexivity.
Defined.

(** *** Timestamps *)

Lemma touched_empty : touched ∅ = false.
Proof. unfold touched. by rewrite bool_decide_eq_true_2. Qed.

Section empty_update.
Variable S : schema.
Hypothesis wf : well_formed S = true.

Lemma update_row_empty now fs old : update_row S now fs ∅ old = Ok old.
Proof.
  induction fs as [|f fs IH]; simpl; [done|].
  rewrite IH. simpl. by rewrite lookup_empty, touched_empty, andb_false_r.
Qed.

(** An update with no data returns the row it finds and changes nothing. *)
Lemma update_nothing now m f k d r d' :
  update S now m f k ∅ d = Ok (r, d') →
  find_unique m f k d = Some r ∧ ∀ c, table d' c = table d c.
Proof.
  intros H.
  pose proof H as (i & old & Hfind & Hself & _)%(update_tables S wf).
  pose proof H as (M & i' & old' & _ & _ & _ & _ & Hfind' & Hrow & _)%update_Ok.
  rewrite Hfind in Hfind'. inversion Hfind'; subst i' old'.
  rewrite update_row_empty in Hrow. inversion Hrow; subst r.
  split; [unfold find_unique; by rewrite Hfind|].
  intros c. destruct (decide (c = m)) as [->|Hc].
  - rewrite Hself. apply list_insert_id. by apply find_row_Some in Hfind as [? _].
  - apply (update_other_tables S wf _ _ _ _ _ _ _ _ H); [|done].
    intros ? ? _. apply lookup_empty.
Qed.

End empty_update.




(** C10, as the store has it: an update of an IndustryInsight row that
    writes anything leaves [lastUpdated] as it was and sets [nextUpdate] to
    the time of the update, for whichever of the two columns the caller
    supplies no value; a value the caller supplies is stored as given.  An
    update with no data changes nothing.  At insert both columns hold the
    time of the insert unless supplied.  So the only time the store itself
    ever assigns to [nextUpdate] is the time of the write. *)
Theorem insight_timestamps :
  (∀ now gen data d r d1,
     create Schema.schema now gen "IndustryInsight" data d = Ok (r, d1) →
     r !! "lastUpdated" = supplied_or data "lastUpdated" (Some (VDateTime now))
     ∧ r !! "nextUpdate" = supplied_or data "nextUpdate" (Some (VDateTime now)))
  ∧ (∀ now f k data d old r d1,
       find_unique "IndustryInsight" f k d = Some old →
       update Schema.schema now "IndustryInsight" f k data d = Ok (r, d1) →
       r !! "lastUpdated" = supplied_or data "lastUpdated" (old !! "lastUpdated")
       ∧ (touched data = true →
          r !! "nextUpdate" = supplied_or data "nextUpdate" (Some (VDateTime now)))
       ∧ (data = ∅ → r = old ∧ ∀ t, table d1 t = table d t)
       ∧ (∃ i, table d "IndustryInsight" !! i = Some old
               ∧ table d1 "IndustryInsight"
                 = <[i := r]> (table d "IndustryInsight"))).
Proof.
  split.
  - intros now gen data d r d1 Hc. split.
    + destruct (create_value _ schema_well_formed now gen Schema.IndustryInsight
                  data d r d1
                  (Field "lastUpdated" TDateTime Required [AttrDefault DefaultNow])
                  IndustryInsight_declared) as (v & Hv & Hr); [by_computation|done|].
      simpl in Hr. rewrite Hr. unfold new_value, supplied_or in *. simpl in *.
      destruct (data !! "lastUpdated") as [w|]; [|by inversion Hv].
      by apply accept_Ok in Hv as (-> & _).
    + destruct (create_value _ schema_well_formed now gen Schema.IndustryInsight
                  data d r d1
                  (Field "nextUpdate" TDateTime Required [AttrUpdatedAt])
                  IndustryInsight_declared) as (v & Hv & Hr); [by_computation|done|].
      simpl in Hr. rewrite Hr. unfold new_value, supplied_or in *. simpl in *.
      destruct (data !! "nextUpdate") as [w|]; [|by inversion Hv].
      by apply accept_Ok in Hv as (-> & _).
  - intros now f k data d old r d1 Hold Hu. split_and!.
    + pose proof (update_value _ schema_well_formed now Schema.IndustryInsight
                    f k data d old r d1
                    (Field "lastUpdated" TDateTime Required [AttrDefault DefaultNow])
                    IndustryInsight_declared ltac:(by_computation) Hold Hu) as E.
      simpl in E. rewrite E. unfold updated_value, supplied_or. simpl.
      by destruct (data !! "lastUpdated").
    + intros Ht.
      pose proof (update_value _ schema_well_formed now Schema.IndustryInsight
                    f k data d old r d1
                    (Field "nextUpdate" TDateTime Required [AttrUpdatedAt])
                    IndustryInsight_declared ltac:(by_computation) Hold Hu) as E.
      simpl in E. rewrite E. unfold updated_value, supplied_or. simpl. rewrite Ht.
      by destruct (data !! "nextUpdate").
    + intros ->.
      destruct (update_nothing _ schema_well_formed _ _ _ _ _ _ _ Hu) as [Hr Ht].
      rewrite Hold in Hr. by inversion Hr.
    + by eapply (update_stored _ schema_well_formed).
Qed.

Lemma insight_timestamps_witness :
  returned (create Schema.schema 1 "i1" "IndustryInsight" Sample.software ∅)
    !! "lastUpdated" = Some (VDateTime 1)
  ∧ returned (update Schema.schema 50 "IndustryInsight" "industry"
                "Software Development" Sample.regrade Sample.with_insight)
      !! "lastUpdated" = Some (VDateTime 1)
  ∧ returned (update Schema.schema 50 "IndustryInsight" "industry"
                "Software Development" Sample.regrade Sample.with_insight)
      !! "nextUpdate" = Some (VDateTime 50).
Proof.
  pose proof (returned_after
                (create Schema.schema 1 "i1" "IndustryInsight" Sample.software ∅) ∅)
    as Hc.
  specialize (Hc ltac:(vm_compute; reflexivity)).
  pose proof (default_Some
                (find_unique "IndustryInsight" "industry" "Software Development"
                   Sample.with_insight)) as Hf.
  specialize (Hf ltac:(vm_compute; reflexivity)).
  pose proof (returned_after
                (update Schema.schema 50 "IndustryInsight" "industry"
                   "Software Development" Sample.regrade Sample.with_insight)
                Sample.with_insight) as Hu.
  specialize (Hu ltac:(vm_compute; reflexivity)).
  destruct insight_timestamps as [Hcreate Hupdate].
  destruct (Hcreate 1 "i1" Sample.software ∅ _ _ Hc) as [H1 _].
  destruct (Hupdate 50 "industry" "Software Development" Sample.regrade
              Sample.with_insight _ _ _ Hf Hu) as (H2 & H3 & _).
  split_and!.
  - rewrite H1. vm_compute. reflexivity.
  - rewrite H2. vm_compute. reflexivity.
  - rewrite H3; vm_compute; reflexivity.
Defined.

(** A refresh that writes both columns itself stores what it is given in
    [lastUpdated] and [nextUpdate], and an update with no data at time 50
    leaves [nextUpdate] at 1. *)
Lemma explicit_refresh_overrides :
  default ∅ (find_unique "IndustryInsight" "industry" "Software Development"
               Sample.with_insight) !! "lastUpdated" = Some (VDateTime 1)
  ∧ is_ok (update Schema.schema 50 "IndustryInsight" "industry"
             "Software Development" Sample.refresh Sample.with_insight) = true
  ∧ returned (update Schema.schema 50 "IndustryInsight" "industry"
                "Software Development" Sample.refresh Sample.with_insight)
      !! "lastUpdated" = Some (VDateTime 50)
  ∧ returned (update Schema.schema 50 "IndustryInsight" "industry"
                "Software Development" Sample.refresh Sample.with_insight)
      !! "nextUpdate" = Some (VDateTime 604800050)
  ∧ is_ok (update Schema.schema 50 "IndustryInsight" "industry"
             "Software Development" ∅ Sample.with_insight) = true
  ∧ returned (update Schema.schema 50 "IndustryInsight" "industry"
                "Software Development" ∅ Sample.with_insight)
      !! "nextUpdate" = Some (VDateTime 1).
Proof. split_and!; vm_compute; reflexivity. Qed.

End StoreFacts.

(** ** Facts about the declared PDF-export interface *)

Module Html2PdfFacts.
Import Html2Pdf.

(** C8: the declared configuration has exactly the five optional fields
    for margins, output filename, image type and quality, canvas scale, and
    page unit, format and orientation; of the builder's three methods
    exactly [set] (taking the configuration) and [from] (taking the
    rendering target) return the builder, and [save] takes nothing and
    returns a promise of no value. *)
Theorem declared_export_interface :
  pname <$> iproperties Options
  = ["margin"; "filename"; "image"; "html2canvas"; "jsPDF"]
  ∧ forallb poptional (iproperties Options) = true
  ∧ property_type Options "margin"
    = Some (TUnion TNumber (TTuple [TNumber; TNumber]))
  ∧ property_type Options "filename" = Some TStr
  ∧ members Options "image" = [("type", TStr); ("quality", TNumber)]
  ∧ members Options "html2canvas" = [("scale", TNumber)]
  ∧ members Options "jsPDF"
    = [("unit", TStr); ("format", TStr); ("orientation", TStr)]
  ∧ mname <$> imethods Html2Pdf = ["set"; "from"; "save"]
  ∧ chained Html2Pdf
    = [ Method "set" [("options", TRef (iname Options))] (TRef (iname Html2Pdf));
        Method "from" [("element", TRef "HTMLElement")] (TRef (iname Html2Pdf)) ]
  ∧ find_method Html2Pdf "save" = Some (Method "save" [] (TPromise TVoid))
  ∧ mreturns html2pdf = TRef (iname Html2Pdf).
Proof.
  split_and!; try reflexivity.
Qed.

End Html2PdfFacts.

(** ** Facts about the repository layer *)

Module RepositoryFacts.
Import Prisma Store StoreFacts Repository.

#[local] Set Warnings "-clear-no-such-hyp".
#[local] Opaque create update remove.

(** *** Taking the calls apart *)


Lemma debitTokens_Ok now gen userId amount description featureType d d' :
  debitTokens now gen userId amount description featureType d = Ok d' →
  ∃ u r1 d1 r2,
    find_unique "User" "id" userId d = Some u
    ∧ (amount ≤ balance u)%Z
    ∧ update Schema.schema now "User" "id" userId
        {[ "tokens" := VInt (balance u - amount) ]} d = Ok (r1, d1)
    ∧ create Schema.schema now gen "TokenTransaction"
        {[ "userId" := VString userId; "amount" := VInt (- amount);
           "description" := VString description;
           "featureType" := opt_string featureType ]} d1 = Ok (r2, d').
Proof.
  unfold debitTokens.
  destruct (find_unique "User" "id" userId d) as [u|]; [|done].
  destruct (bool_decide (amount > balance u)) eqn:Hb; [done|].
  apply bool_decide_eq_false in Hb.
  destruct (update _ _ _ _ _ _ d) as [[r1 d1]|] eqn:E1; [|done]. simpl.
  destruct (create _ _ _ _ _ d1) as [[r2 d2]|] eqn:E2; [|done]. simpl.
  intros [= <-]. exists u, r1, d1, r2. split_and!; [done|lia|done|done].
Qed.

Lemma creditTokens_Ok now gen userId amount description d d' :
  creditTokens now gen userId amount description d = Ok d' →
  ∃ u r1 d1 r2,
    find_unique "User" "id" userId d = Some u
    ∧ update Schema.schema now "User" "id" userId
        {[ "tokens" := VInt (balance u + amount) ]} d = Ok (r1, d1)
    ∧ create Schema.schema now gen "TokenTransaction"
        {[ "userId" := VString userId; "amount" := VInt amount;
           "description" := VString description ]} d1 = Ok (r2, d').
Proof.
  unfold creditTokens.
  destruct (find_unique "User" "id" userId d) as [u|]; [|done].
  destruct (update _ _ _ _ _ _ d) as [[r1 d1]|] eqn:E1; [|done]. simpl.
  destruct (create _ _ _ _ _ d1) as [[r2 d2]|] eqn:E2; [|done]. simpl.
  intros [= <-]. exists u, r1, d1, r2. by split_and!.
Qed.

Lemma settlePayment_Ok now gen gatewayId finalStatus d d' :
  settlePayment now gen gatewayId finalStatus d = Ok d' →
  ∃ p, find_unique "Payment" "razorpayId" gatewayId d = Some p
    ∧ ((status p ≠ Some "PENDING" ∧ d' = d)
       ∨ (status p = Some "PENDING"
          ∧ ∃ r1 d1,
              update Schema.schema now "Payment" "razorpayId" gatewayId
                {[ "status" := VEnum finalStatus ]} d = Ok (r1, d1)
              ∧ ((finalStatus ≠ "COMPLETED" ∧ d' = d1)
                 ∨ (finalStatus = "COMPLETED"
                    ∧ ∃ u, skey "userId" p = Some u
                        ∧ creditTokens now gen u (tokensAdded p)
                            "Token Purchase" d1 = Ok d')))).
Proof.
  unfold settlePayment.
  destruct (find_unique "Payment" "razorpayId" gatewayId d) as [p|]; [|done].
  intros H. exists p. split; [done|].
  destruct (bool_decide (status p = Some "PENDING")) eqn:Hs.
  2:{ apply bool_decide_eq_false in Hs. left. split; [done|]. by inversion H. }
  apply bool_decide_eq_true in Hs. right. split; [done|].
  destruct (update _ _ _ _ _ _ d) as [[r1 d1]|] eqn:E1; [|done]. simpl in H.
  exists r1, d1. split; [done|].
  destruct (bool_decide (finalStatus = "COMPLETED")) eqn:Hf.
  - apply bool_decide_eq_true in Hf. right. split; [done|].
    destruct (skey "userId" p) as [u|]; [|done]. eauto.
  - apply bool_decide_eq_false in Hf. left. split; [done|]. by inversion H.
Qed.

(** *** The calls as writes of the store *)

Lemma TokenTransaction_declared : Schema.TokenTransaction ∈ models Schema.schema.
Proof. by_computation. Qed.

Lemma Payment_declared : Schema.Payment ∈ models Schema.schema.
Proof. by_computation. Qed.





Lemma steps_consistent d d' :
  consistent Schema.schema d → rtc (Store.step Schema.schema) d d' →
  consistent Schema.schema d'.
Proof.
  intros Hd H. induction H as [|d d1 d2 Hs _ IH]; [done|].
  apply IH. by eapply (step_consistent _ schema_well_formed).
Qed.

(** *** Balances and the ledger *)






Lemma tokens_column :
  Field "tokens" TInt Required [AttrDefault (DefaultInt 10000)]
    ∈ mfields Schema.User
  ∧ ("tokens" ∉ unique_fields Schema.User)
  ∧ "tokens" ∉ (fk_field <$> foreign_keys Schema.User).
Proof. split_and!; by_computation. Qed.


Lemma status_column :
  Field "status" (TEnum "PaymentStatus") Required [AttrDefault (DefaultEnum "PENDING")]
    ∈ mfields Schema.Payment
  ∧ ("status" ∉ unique_fields Schema.Payment)
  ∧ "status" ∉ (fk_field <$> foreign_keys Schema.Payment).
Proof. split_and!; by_computation. Qed.






(** *** Evaluating on the example scenario *)

Lemma run_or_Ok (x : result Repository.error (gmap string (list (gmap string value)))) d :
  is_ok x = true → x = Ok (run_or x d).
Proof. by destruct x. Qed.








(** *** Debits and credits *)










(** *** Settling a payment *)

(** An adjustment of a balance touches the User and TokenTransaction tables
    only, and appends one ledger row. *)
Lemma adjust_tables now gen userId z data d r1 d1 t d2 fld v :
  update Schema.schema now "User" "id" userId {[ "tokens" := VInt z ]} d
  = Ok (r1, d1) →
  create Schema.schema now gen "TokenTransaction" data d1 = Ok (t, d2) →
  fld ∈ mfields Schema.TokenTransaction → data !! fname fld = Some v →
  table d2 "TokenTransaction" = table d "TokenTransaction" ++ [t]
  ∧ (∀ c, c ≠ "User" → c ≠ "TokenTransaction" → table d2 c = table d c)
  ∧ t !! fname fld = Some (coerce fld v).
Proof.
  intros H1 H2 Hfld Hdata.
  destruct (update_column_tables _ schema_well_formed now Schema.User "id" userId
              "tokens" _ d r1 d1 User_declared (proj1 (proj2 tokens_column)) H1)
    as (_ & _ & _ & _ & Hother & _).
  simpl in Hother.
  destruct (create_tables _ now gen _ data d1 t d2 H2) as [Htx Hrest].
  split_and!.
  - by rewrite Htx, Hother.
  - intros c Hc1 Hc2. by rewrite Hrest, Hother.
  - by apply (create_supplied _ schema_well_formed now gen Schema.TokenTransaction
                data d1 t d2 fld v TokenTransaction_declared).
Qed.

Lemma creditTokens_tables now gen userId n description d d' :
  creditTokens now gen userId n description d = Ok d' →
  ∃ t, table d' "TokenTransaction" = table d "TokenTransaction" ++ [t]
    ∧ (∀ c, c ≠ "User" → c ≠ "TokenTransaction" → table d' c = table d c)
    ∧ t !! "amount" = Some (VInt n)
    ∧ t !! "userId" = Some (VString userId).
Proof.
  intros (u & r1 & d1 & t & _ & H1 & H2)%creditTokens_Ok. exists t.
  destruct (adjust_tables now gen userId _ _ d r1 d1 t d' (Field "amount" TInt Required [])
              (VInt n) H1 H2 ltac:(by_computation) ltac:(vm_compute; reflexivity))
    as (Ht & Hother & Hamt).
  destruct (adjust_tables now gen userId _ _ d r1 d1 t d'
              (Field "userId" TString Required [])
              (VString userId) H1 H2 ltac:(by_computation)
              ltac:(vm_compute; reflexivity))
    as (_ & _ & Huid).
  split; [exact Ht|]. split; [exact Hother|]. exact (conj Hamt Huid).
Qed.

Lemma debitTokens_tables now gen userId n description featureType d d' :
  debitTokens now gen userId n description featureType d = Ok d' →
  ∀ c, c ≠ "User" → c ≠ "TokenTransaction" → table d' c = table d c.
Proof.
  intros (u & r1 & d1 & t & _ & _ & H1 & H2)%debitTokens_Ok.
  destruct (adjust_tables now gen userId _ _ d r1 d1 t d'
              (Field "userId" TString Required [])
              (VString userId) H1 H2 ltac:(by_computation)
              ltac:(destruct featureType; vm_compute; reflexivity))
    as (_ & Hother & _).
  exact Hother.
Qed.

(** The transition out of PENDING rewrites the payment's row in place. *)
Lemma transition_tables now g s d r1 d1 :
  update Schema.schema now "Payment" "razorpayId" g {[ "status" := VEnum s ]} d
  = Ok (r1, d1) →
  ∃ i old, find_row "razorpayId" g (table d "Payment") = Some (i, old)
    ∧ table d1 "Payment" = <[i := r1]> (table d "Payment")
    ∧ (∀ c, c ≠ "Payment" → table d1 c = table d c)
    ∧ status r1 = Some s
    ∧ skey "razorpayId" r1 = Some g.
Proof.
  intros H1.
  destruct (update_column_tables _ schema_well_formed now Schema.Payment
              "razorpayId" g "status" _ d r1 d1 Payment_declared
              (proj1 (proj2 status_column)) H1)
    as (i & old & Hfind & Hp & Hother & Hst & Hkeys).
  simpl in Hfind, Hp, Hother. exists i, old.
  split; [exact Hfind|]. split; [exact Hp|]. split; [exact Hother|]. split.
  - unfold status. by rewrite (Hst _ (proj1 status_column) eq_refl).
  - apply find_row_Some in Hfind as [_ Hk]. rewrite <- Hk.
    apply lookup_skey, Hkeys. by_computation.
Qed.

Lemma closed_tables g (d d' : gmap string (list (gmap string value))) :
  table d' "Payment" = table d "Payment" → closed g d → closed g d'.
Proof. unfold closed, find_unique. by intros ->. Qed.

Lemma settle_closes now gen g d d1 :
  settlePayment now gen g "COMPLETED" d = Ok d1 → closed g d1.
Proof.
  intros (p & Hp & [[Hs ->]|(Hs & r1 & d0 & H1 & [[Hne _]|(_ & u & _ & H2)])])%settlePayment_Ok;
    [exists p; exact (conj Hp Hs)|exfalso; apply Hne; reflexivity|].
  destruct (transition_tables now g _ d r1 d0 H1)
    as (i & old & Hfind & Ht & _ & Hst & Hk).
  destruct (creditTokens_tables now gen u _ _ d0 d1 H2) as (_ & _ & Hother & _).
  apply (closed_tables g d0); [by apply Hother|].
  exists r1. split.
  - unfold find_unique. rewrite Ht.
    by rewrite (find_row_insert_same "razorpayId" g _ i old r1 Hfind Hk).
  - rewrite Hst. by intros [=].
Qed.

Lemma closed_settle now gen g s d :
  closed g d → settlePayment now gen g s d = Ok d.
Proof.
  intros (p & Hp & Hs). unfold settlePayment.
  by rewrite Hp, bool_decide_eq_false_2.
Qed.

Lemma step_closed g d d' : closed g d → Repository.step d d' → closed g d'.
Proof.
  intros Hc Hs. inversion Hs as [now gen c ? ? Hrun]; subst.
  destruct c as [a e|u n s f|u n s|u g' a c t|g' s]; simpl in Hrun.
  - unfold createUser in Hrun.
    destruct (create _ _ _ _ _ d) as [[r d1]|] eqn:E; [|done].
    simpl in Hrun. inversion Hrun; subst.
    destruct (create_tables _ _ _ _ _ d r d' E) as [_ Hrest].
    apply (closed_tables g d); [by apply Hrest|done].
  - apply (closed_tables g d); [|done]. by eapply debitTokens_tables.
  - destruct (creditTokens_tables _ _ _ _ _ d d' Hrun) as (_ & _ & Hother & _).
    apply (closed_tables g d); [by apply Hother|done].
  - unfold recordPayment in Hrun.
    destruct (create _ _ _ _ _ d) as [[r d1]|] eqn:E; [|done].
    simpl in Hrun. inversion Hrun; subst.
    destruct (create_tables _ _ _ _ _ d r d' E) as [Hp _]. clear E Hs Hrun.
    destruct Hc as (p & Hfind & Hst). exists p. split; [|exact Hst].
    apply find_unique_Some in Hfind as [i Ef].
    unfold find_unique. rewrite Hp.
    by rewrite (find_row_app _ _ _ i p [r] Ef).
  - apply settlePayment_Ok in Hrun
      as (p' & Hp' & [[_ ->]|(Hs' & r1 & d1 & H1 & Hnext)]); [exact Hc|].
    destruct (transition_tables now g' _ d r1 d1 H1)
      as (i' & old & Hfind' & Ht & _ & _ & Hk).
    assert (closed g d1) as Hc1.
    { clear H1 Hnext Hs. destruct Hc as (p & Hfind & Hst). exists p.
      split; [|exact Hst].
      apply find_unique_Some in Hfind as [i Ef].
      apply find_unique_Some in Hp' as [j Ef'].
      rewrite Hfind' in Ef'. inversion Ef'; subst j old.
      assert (g' ≠ g) as Hg.
      { intros ->. rewrite Ef in Hfind'. inversion Hfind'; subst. exact (Hst Hs'). }
      unfold find_unique. rewrite Ht.
      rewrite (find_row_insert_other "razorpayId" g _ i p i' r1 Ef); [reflexivity| |].
      - intros ->. apply find_row_Some in Ef as [Ei _], Hfind' as [Ei' _].
        rewrite Ei in Ei'. inversion Ei'; subst. exact (Hst Hs').
      - rewrite Hk. intros [= ->]. by apply Hg. }
    destruct Hnext as [[_ ->]|(_ & u & _ & H2)]; [exact Hc1|].
    destruct (creditTokens_tables _ _ _ _ _ d1 d' H2) as (_ & _ & Hother & _).
    apply (closed_tables g d1); [by apply Hother|exact Hc1].
Qed.

(** A credit leaves the user with the old balance plus the amount. *)
Lemma creditTokens_balance now gen userId n description d d' :
  creditTokens now gen userId n description d = Ok d' →
  ∃ u u', find_unique "User" "id" userId d = Some u
    ∧ find_unique "User" "id" userId d' = Some u'
    ∧ u' !! "tokens" = Some (VInt (balance u + n)).
Proof.
  intros (u & r1 & d1 & t & Hu & H1 & H2)%creditTokens_Ok.
  destruct (update_column_tables _ schema_well_formed now Schema.User "id" userId
              "tokens" _ d r1 d1 User_declared (proj1 (proj2 tokens_column)) H1)
    as (i & old & Hfind & Husers & _ & Htok & Hkeys).
  simpl in Hfind, Husers.
  destruct (create_tables _ now gen _ _ d1 t d' H2) as [_ Hrest].
  exists u, r1. split; [exact Hu|].
  split; [|exact (Htok _ (proj1 tokens_column) eq_refl)].
  unfold find_unique. rewrite Hrest, Husers by done.
  rewrite (find_row_insert_same "id" userId _ i old r1 Hfind); [done|].
  pose proof Hfind as [_ Hk]%find_row_Some. rewrite <- Hk.
  apply lookup_skey, Hkeys. by_computation.
Qed.

(** C4: once [settlePayment] has settled a payment to COMPLETED, settling
    it to COMPLETED again, at any later state of the layer, succeeds and
    changes nothing, balance and ledger included.  The first settlement
    changed nothing either if the payment had left PENDING before; if it was
    PENDING, it raised the balance of the payment's user by the tokens the
    payment grants and appended exactly one ledger row, for that user and
    those tokens. *)
Theorem settle_credits_once now gen g d d1 :
  settlePayment now gen g "COMPLETED" d = Ok d1 →
  (∀ d2 now' gen', rtc Repository.step d1 d2 →
     settlePayment now' gen' g "COMPLETED" d2 = Ok d2)
  ∧ ∃ p, find_unique "Payment" "razorpayId" g d = Some p
      ∧ (status p ≠ Some "PENDING" → d1 = d)
      ∧ (status p = Some "PENDING" →
         ∃ u usr usr' t, skey "userId" p = Some u
           ∧ find_unique "User" "id" u d = Some usr
           ∧ find_unique "User" "id" u d1 = Some usr'
           ∧ usr' !! "tokens" = Some (VInt (balance usr + tokensAdded p))
           ∧ table d1 "TokenTransaction" = table d "TokenTransaction" ++ [t]
           ∧ t !! "amount" = Some (VInt (tokensAdded p))
           ∧ t !! "userId" = Some (VString u)).
Proof.
  intros H1. split.
  - intros d2 now' gen' Hsteps.
    apply closed_settle. apply settle_closes in H1.
    induction Hsteps as [|x y z Hs _ IH]; [done|].
    apply IH. by eapply step_closed.
  - apply settlePayment_Ok in H1
      as (p & Hp & [[Hs ->]|(Hs & r1 & d0 & Hu & [[Hne _]|(_ & u & Huid & H2)])]).
    + exists p. split; [exact Hp|]. split; [done|]. intros Hs'. by destruct Hs.
    + exfalso. apply Hne. reflexivity.
    + exists p. split; [exact Hp|]. split; [intros Hs'; by destruct Hs'|].
      intros _.
      destruct (transition_tables now g _ d r1 d0 Hu) as (_ & _ & _ & _ & Hother & _).
      destruct (creditTokens_tables now gen u _ _ d0 d1 H2)
        as (t & Ht & _ & Hamt & Hown).
      destruct (creditTokens_balance now gen u _ _ d0 d1 H2)
        as (usr & usr' & Husr & Husr' & Htok).
      exists u, usr, usr', t. split; [exact Huid|].
      split; [|split; [exact Husr'|split; [exact Htok|]]].
      * unfold find_unique in *. by rewrite <- (Hother "User").
      * split; [|exact (conj Hamt Hown)]. by rewrite Ht, Hother.
Qed.

Lemma settle_credits_once_witness :
  settlePayment 6 "t4" "pay_1" "COMPLETED" settled = Ok settled
  ∧ ∃ u usr usr' t,
      skey "userId" (default ∅ (find_unique "Payment" "razorpayId" "pay_1" invoiced))
      = Some u
      ∧ find_unique "User" "id" u invoiced = Some usr
      ∧ find_unique "User" "id" u settled = Some usr'
      ∧ usr' !! "tokens" = Some (VInt (balance usr + 700))
      ∧ table settled "TokenTransaction" = table invoiced "TokenTransaction" ++ [t]
      ∧ t !! "amount" = Some (VInt 700)
      ∧ t !! "userId" = Some (VString u).
Proof.
  pose proof (default_Some (find_unique "Payment" "razorpayId" "pay_1" invoiced)) as Hp.
  specialize (Hp ltac:(vm_compute; reflexivity)).
  pose proof (run_or_Ok (settlePayment 5 "t3" "pay_1" "COMPLETED" invoiced) invoiced)
    as Hs.
  specialize (Hs ltac:(vm_compute; reflexivity)).
  destruct (settle_credits_once 5 "t3" "pay_1" invoiced settled Hs)
    as (H1 & p & Hp' & _ & H2).
  split; [exact (H1 settled 6 "t4" (rtc_refl _ _))|].
  rewrite Hp in Hp'. apply (inj Some) in Hp'. subst p.
  assert (tokensAdded (default ∅ (find_unique "Payment" "razorpayId" "pay_1" invoiced))
          = 700) as Hn by (vm_compute; reflexivity).
  rewrite Hn in H2. apply H2. vm_compute. reflexivity.
Defined.

End RepositoryFacts.

(** ** More about the store: keys, relations, requests and outcomes *)

Module StoreLaws.
Import Prisma Store StoreFacts Links Refs Requests.

#[local] Set Warnings "-clear-no-such-hyp".

(** *** Looking a row up by a key *)

Lemma find_row_unique f k (rows : list (gmap string value)) i r :
  NoDup (keys f rows) → rows !! i = Some r → skey f r = Some k →
  find_row f k rows = Some (i, r).
Proof.
  intros Hnd Hi Hk. apply list_find_Some. split; [done|]. split; [done|].
  intros j y Hj Hlt Hy.
  assert (i = j) by (by eapply (NoDup_omap_lookup (skey f))). lia.
Qed.

Lemma find_row_deleted f k (rows : list (gmap string value)) i r :
  NoDup (keys f rows) → rows !! i = Some r → skey f r = Some k →
  find_row f k (delete i rows) = None.
Proof.
  intros Hnd Hi Hk. apply find_row_None.
  destruct (split_row _ _ _ Hi) as (l1 & l2 & -> & -> & _).
  unfold keys in *. rewrite omap_app in Hnd. simpl in Hnd. rewrite Hk in Hnd.
  apply NoDup_app in Hnd as (_ & Hd & [Hk2 _]%NoDup_cons).
  rewrite omap_app. intros [H1|H2]%elem_of_app; [|done].
  apply (Hd k H1). apply list_elem_of_here.
Qed.

Section removal.
Variable S : schema.
Hypothesis wf : well_formed S = true.

Lemma remove_Ok m f k d r d' :
  remove S m f k d = Ok (r, d') →
  ∃ M i, M ∈ models S ∧ mname M = m ∧ f ∈ unique_fields M
    ∧ find_row f k (table d m) = Some (i, r)
    ∧ delete_blocked S m r d = false
    ∧ d' = map_tables (detach_row S m r) (<[m := delete i (table d m)]> d).
Proof.
  unfold remove.
  destruct (find_model S m) as [M|] eqn:EM; [|done].
  apply find_model_Some in EM as [HM <-].
  destruct (bool_decide (f ∈ unique_fields M)) eqn:Ef; [|done]. simpl.
  apply bool_decide_eq_true in Ef.
  destruct (find_row f k (table d (mname M))) as [[i old]|] eqn:Efind; [|done].
  destruct (forallb _ _); [|done]. simpl.
  destruct (delete_blocked S (mname M) old d) eqn:Eblk; [done|].
  intros [= -> <-]. exists M, i. by split_and!.
Qed.

Lemma detach_row_self old M r :
  M ∈ models S → detach_row S (mname M) old (mname M) r = r.
Proof.
  intros HM. unfold detach_row. by rewrite (fkeys_to_self S wf M HM).
Qed.

Lemma remove_tables m f k d r d' :
  remove S m f k d = Ok (r, d') →
  ∃ i, find_row f k (table d m) = Some (i, r)
    ∧ table d' m = delete i (table d m)
    ∧ ∀ c, c ≠ m → table d' c = detach_row S m r c <$> table d c.
Proof.
  intros (M & i & HM & <- & _ & Hfind & _ & ->)%remove_Ok. exists i.
  split; [done|]. split.
  - rewrite table_map_tables, table_insert, decide_True by done.
    rewrite <- (list_fmap_id (delete i _)) at 2.
    apply list_fmap_ext. intros ? x _. by apply detach_row_self.
  - intros c Hc. by rewrite table_map_tables, table_insert, decide_False.
Qed.

(** What a write returns is what a lookup by any of its keys finds
    afterwards, and a deleted row is found under none of its keys. *)
Lemma create_found now gen M data d r d' f :
  consistent S d → M ∈ models S → f ∈ unique_fields M →
  create S now gen (mname M) data d = Ok (r, d') →
  ∃ k, skey f r = Some k ∧ find_unique (mname M) f k d' = Some r.
Proof.
  intros Hd HM Hf Hc.
  pose proof (create_consistent S wf _ _ _ _ _ _ _ Hd Hc) as Hd'.
  destruct (create_tables S _ _ _ _ _ _ _ Hc) as [Ht _].
  assert (table d' (mname M) !! length (table d (mname M)) = Some r) as Hi.
  { rewrite Ht. by apply list_lookup_middle. }
  destruct (unique_skey S wf M f r HM Hf) as [k Hk].
  { apply (rows_typed _ _ Hd' M r HM). by eapply list_elem_of_lookup_2. }
  exists k. split; [done|]. unfold find_unique.
  rewrite (find_row_unique f k _ _ r ltac:(by apply (keys_unique _ _ Hd' M)) Hi Hk).
  done.
Qed.

Lemma update_found now M wf' wk data d r d' f :
  consistent S d → M ∈ models S → f ∈ unique_fields M →
  update S now (mname M) wf' wk data d = Ok (r, d') →
  ∃ k, skey f r = Some k ∧ find_unique (mname M) f k d' = Some r.
Proof.
  intros Hd HM Hf Hu.
  pose proof (update_consistent S wf _ _ _ _ _ _ _ _ Hd Hu) as Hd'.
  destruct (update_tables S wf _ _ _ _ _ _ _ _ Hu) as (i & old & Hfind & Ht & _).
  apply find_row_Some in Hfind as [Hi _].
  assert (table d' (mname M) !! i = Some r) as Hi'.
  { rewrite Ht. apply list_lookup_insert_eq. by eapply lookup_lt_Some. }
  destruct (unique_skey S wf M f r HM Hf) as [k Hk].
  { apply (rows_typed _ _ Hd' M r HM). by eapply list_elem_of_lookup_2. }
  exists k. split; [done|]. unfold find_unique.
  rewrite (find_row_unique f k _ _ r ltac:(by apply (keys_unique _ _ Hd' M)) Hi' Hk).
  done.
Qed.

Lemma remove_lost M wf' wk d r d' f :
  consistent S d → M ∈ models S → f ∈ unique_fields M →
  remove S (mname M) wf' wk d = Ok (r, d') →
  ∃ k, skey f r = Some k ∧ find_unique (mname M) f k d' = None.
Proof.
  intros Hd HM Hf Hr.
  destruct (remove_tables _ _ _ _ _ _ Hr) as (i & Hfind & Ht & _).
  apply find_row_Some in Hfind as [Hi _].
  destruct (unique_skey S wf M f r HM Hf) as [k Hk].
  { apply (rows_typed _ _ Hd M r HM). by eapply list_elem_of_lookup_2. }
  exists k. split; [done|]. unfold find_unique. rewrite Ht.
  rewrite (find_row_deleted f k _ i r); [done| |done..].
  by apply (keys_unique _ _ Hd M).
Qed.

End removal.

(** *** Primary keys *)

Lemma id_declared M : M ∈ models Schema.schema → "id" ∈ unique_fields M.
Proof. revert M. apply Forall_forall. by_computation. Qed.

(** X1: [id] is the primary key of every model: in every reachable state
    no two rows of a table share an id, and a create whose row would repeat
    the id of an existing row fails on the unique constraint and changes
    nothing. *)
Theorem primary_keys M d :
  M ∈ models Schema.schema → reachable Schema.schema d →
  no_two_share d (mname M) "id"
  ∧ ∀ now gen data r r0,
      prepare Schema.schema now gen (mname M) data = Ok r →
      r0 ∈ table d (mname M) → r !! "id" = r0 !! "id" →
      create Schema.schema now gen (mname M) data d = Err UniqueConstraint
      ∧ after (create Schema.schema now gen (mname M) data d) d = d.
Proof.
  intros HM Hd. apply (reachable_consistent _ schema_well_formed) in Hd.
  pose proof (id_declared M HM) as Hid.
  split; [by apply (unique_no_two_share _ schema_well_formed)|].
  intros now gen data r r0 Hp Hr0 E.
  pose proof (create_duplicate _ schema_well_formed now gen M "id" data d r r0
                HM Hid Hp Hr0 E) as Hc.
  by rewrite Hc.
Qed.

Lemma primary_keys_witness :
  no_two_share Sample.one_user "User" "id"
  ∧ create Schema.schema 2 "u1" "User" Sample.bob Sample.one_user
    = Err UniqueConstraint.
Proof.
  destruct (primary_keys Schema.User Sample.one_user User_declared
              one_user_reachable) as [Hshare Hcreate].
  split; [exact Hshare|].
  refine (proj1 (Hcreate 2 "u1" Sample.bob Cases.bob_clash Sample.alice_row _ _ _)).
  - apply row_of_Ok. vm_compute. reflexivity.
  - apply nth_row_elem. vm_compute. reflexivity.
  - vm_compute. reflexivity.
Defined.

(** *** Writes and lookups *)

(** X2: in a reachable state, the row a successful create or update
    returns holds a key in every [@id] and [@unique] column and is the row
    [findUnique] returns afterwards under that key; after a successful
    delete [findUnique] finds nothing under the keys of the deleted row. *)
Theorem write_then_find M d f :
  M ∈ models Schema.schema → reachable Schema.schema d →
  f ∈ unique_fields M →
  (∀ now gen data r d',
     create Schema.schema now gen (mname M) data d = Ok (r, d') →
     ∃ k, skey f r = Some k ∧ find_unique (mname M) f k d' = Some r)
  ∧ (∀ now wf wk data r d',
       update Schema.schema now (mname M) wf wk data d = Ok (r, d') →
       ∃ k, skey f r = Some k ∧ find_unique (mname M) f k d' = Some r)
  ∧ (∀ wf wk r d',
       remove Schema.schema (mname M) wf wk d = Ok (r, d') →
       ∃ k, skey f r = Some k ∧ find_unique (mname M) f k d' = None).
Proof.
  intros HM Hd%(reachable_consistent _ schema_well_formed) Hf. split_and!.
  - intros now gen data r d' Hc.
    by apply (create_found _ schema_well_formed now gen M data d r d').
  - intros now wf wk data r d' Hu.
    by apply (update_found _ schema_well_formed now M wf wk data d r d').
  - intros wf wk r d' Hr.
    by apply (remove_lost _ schema_well_formed M wf wk d r d').
Qed.

Lemma write_then_find_witness :
  find_unique "User" "email" "bob@example.com" Sample.two_users
  = Some (returned (create Schema.schema 2 "u2" "User" Sample.bob Sample.one_user))
  ∧ find_unique "User" "email" "bob@example.com"
      (after (remove Schema.schema "User" "id" "u2" Sample.two_users)
         Sample.two_users)
    = None.
Proof.
  split.
  - destruct (write_then_find Schema.User Sample.one_user "email" User_declared
                one_user_reachable ltac:(by_computation)) as (Hcreate & _ & _).
    pose proof (returned_after
                  (create Schema.schema 2 "u2" "User" Sample.bob Sample.one_user)
                  Sample.one_user) as Hc.
    specialize (Hc ltac:(vm_compute; reflexivity)).
    destruct (Hcreate 2 "u2" Sample.bob _ _ Hc) as (k & Hk & Hfind).
    assert (skey "email"
              (returned (create Schema.schema 2 "u2" "User" Sample.bob
                           Sample.one_user)) = Some "bob@example.com") as E
      by (vm_compute; reflexivity).
    rewrite E in Hk. apply (inj Some) in Hk. subst k. exact Hfind.
  - destruct (write_then_find Schema.User Sample.two_users "email" User_declared
                two_users_reachable ltac:(by_computation)) as (_ & _ & Hremove).
    pose proof (returned_after
                  (remove Schema.schema "User" "id" "u2" Sample.two_users)
                  Sample.two_users) as Hr.
    specialize (Hr ltac:(vm_compute; reflexivity)).
    destruct (Hremove "id" "u2" _ _ Hr) as (k & Hk & Hfind).
    assert (skey "email"
              (returned (remove Schema.schema "User" "id" "u2" Sample.two_users))
            = Some "bob@example.com") as E
      by (vm_compute; reflexivity).
    rewrite E in Hk. apply (inj Some) in Hk. subst k. exact Hfind.
Defined.

(** *** Relations *)

Lemma forallb_false_elem {A} (p : A → bool) l :
  forallb p l = false → ∃ x, x ∈ l ∧ p x = false.
Proof.
  induction l as [|a l IH]; simpl; [done|].
  destruct (p a) eqn:E; simpl.
  - intros (x & Hx & Hp)%IH. exists x. split; [by apply list_elem_of_further|done].
  - intros _. exists a. split; [apply list_elem_of_here|done].
Qed.

Lemma skey_Some f (r : gmap string value) k :
  skey f r = Some k ↔ r !! f = Some (VString k).
Proof.
  unfold skey. split.
  - destruct (r !! f) as [[]|]; naive_solver.
  - by intros ->.
Qed.

Lemma elem_of_links S c f t g :
  (c, f, t, g) ∈ links S ↔
  ∃ M k, M ∈ models S ∧ k ∈ foreign_keys M
         ∧ mname M = c ∧ fk_field k = f ∧ fk_target k = t ∧ fk_ref k = g.
Proof.
  unfold links. rewrite list_elem_of_bind. split.
  - intros (M & (k & [= -> -> -> ->] & Hk)%list_elem_of_fmap & HM).
    by exists M, k.
  - intros (M & k & HM & Hk & <- & <- & <- & <-). exists M.
    split; [|done]. apply list_elem_of_fmap. by exists k.
Qed.

Section references.
Variable S : schema.
Hypothesis wf : well_formed S = true.

(** A create whose row names, in the column of a relation, a key no row
    of the referenced table holds. *)
Lemma create_dangling now gen M k data d r s :
  M ∈ models S → k ∈ foreign_keys M →
  prepare S now gen (mname M) data = Ok r →
  r !! fk_field k = Some (VString s) →
  s ∉ keys (fk_ref k) (table d (fk_target k)) →
  create S now gen (mname M) data d = Err ForeignKeyConstraint
  ∨ (create S now gen (mname M) data d = Err UniqueConstraint
     ∧ ∃ r0 n x, r0 ∈ table d (mname M) ∧ n ∈ unique_fields M
                 ∧ r !! n = Some (VString x) ∧ r0 !! n = Some (VString x)).
Proof.
  intros HM Hk Hp Hs Hno. unfold create. rewrite (wf_find S wf M HM), Hp. simpl.
  destruct (unique_ok M (table d (mname M)) r) eqn:Eu; simpl.
  - left.
    assert (fk_ok M d r = false) as ->; [|done].
    apply (forallb_false _ _ k Hk).
    rewrite (proj2 (skey_Some _ _ _) Hs). by apply bool_decide_eq_false.
  - right. split; [done|].
    apply forallb_false_elem in Eu as (n & Hn & Hf).
    destruct (skey n r) as [x|] eqn:Ex; [|done].
    apply bool_decide_eq_false in Hf.
    apply dec_stable in Hf. apply elem_of_keys in Hf as (r0 & Hr0 & Hx0).
    exists r0, n, x. by rewrite <- !skey_Some.
Qed.

Lemma coerce_text f s : ftype f = TString → coerce f (VString s) = VString s.
Proof. unfold coerce. intros ->. by destruct (farity f). Qed.

Lemma update_dangling now M k wf' wk data d s :
  M ∈ models S → k ∈ foreign_keys M →
  data !! fk_field k = Some (VString s) →
  s ∉ keys (fk_ref k) (table d (fk_target k)) →
  is_ok (update S now (mname M) wf' wk data d) = false.
Proof.
  intros HM Hk Hs Hno.
  destruct (update S now (mname M) wf' wk data d) as [[r d']|] eqn:E; [|done].
  exfalso. apply Hno.
  apply update_Ok in E as (M' & i & old & HM' & EM & _ & _ & _ & Hrow & _ & Hfk & _).
  apply (wf_same_name S wf) in EM as ->; [|done..].
  apply (fk_ok_spec M d r k s Hfk Hk).
  destruct (wf_fkey_column S wf M k HM Hk) as (fld & Hfld & Ef & Et & _).
  apply update_row_lookup in Hrow as (Hv & _); [|by apply (wf_fields S wf)].
  apply skey_Some. rewrite <- Ef, (Hv fld Hfld). unfold updated_value.
  by rewrite Ef, Hs, (coerce_text fld s Et).
Qed.

End references.

Lemma links_declared :
  links Schema.schema
  = [ ("User", "industry", "IndustryInsight", "industry");
      ("Assessment", "userId", "User", "id");
      ("Resume", "userId", "User", "id");
      ("CoverLetter", "userId", "User", "id");
      ("TokenTransaction", "userId", "User", "id");
      ("Payment", "userId", "User", "id") ].
Proof. reflexivity. Qed.

(** X3: for every relation of the schema that holds a column ([industry]
    of a User, [userId] of the five owned models), a create whose row
    names in that column a key that no row of the referenced table holds is
    refused: with the foreign-key error, unless the row also repeats a
    unique key of its own table, which is reported first.  An update that
    writes such a key is refused too.  Nothing is written. *)
Theorem dangling_reference_refused c f t g d s :
  (c, f, t, g) ∈ links Schema.schema →
  s ∉ keys g (table d t) →
  (∀ now gen data r,
     prepare Schema.schema now gen c data = Ok r →
     r !! f = Some (VString s) →
     (create Schema.schema now gen c data d = Err ForeignKeyConstraint
      ∨ (create Schema.schema now gen c data d = Err UniqueConstraint
         ∧ ∃ r0 n x, r0 ∈ table d c
                     ∧ r !! n = Some (VString x) ∧ r0 !! n = Some (VString x)))
     ∧ after (create Schema.schema now gen c data d) d = d)
  ∧ (∀ now wf wk data,
       data !! f = Some (VString s) →
       is_ok (update Schema.schema now c wf wk data d) = false
       ∧ after (update Schema.schema now c wf wk data d) d = d).
Proof.
  intros (M & k & HM & Hk & <- & <- & <- & <-)%elem_of_links Hno. split.
  - intros now gen data r Hp Hs.
    destruct (create_dangling _ schema_well_formed now gen M k data d r s
                HM Hk Hp Hs Hno) as [E|[E (r0 & n & x & Hr0 & _ & H1 & H2)]];
      rewrite E; (split; [|done]); [by left|right].
    split; [done|]. by exists r0, n, x.
  - intros now wf wk data Hs.
    pose proof (update_dangling _ schema_well_formed now M k wf wk data d s
                  HM Hk Hs Hno) as E.
    split; [done|].
    by destruct (update Schema.schema now (mname M) wf wk data d) as [[??]|].
Qed.

Lemma dangling_reference_refused_witness :
  create Schema.schema 4 "r9" "Resume" (Sample.resume_of "nobody") Sample.one_user
  = Err ForeignKeyConstraint.
Proof.
  destruct (dangling_reference_refused "Resume" "userId" "User" "id"
              Sample.one_user "nobody") as [Hcreate _].
  - by_computation.
  - by_computation.
  - destruct (Hcreate 4 "r9" (Sample.resume_of "nobody") Cases.stray)
      as [[E|[_ (r0 & n & x & Hr0 & _)]] _].
    + apply row_of_Ok. vm_compute. reflexivity.
    + vm_compute. reflexivity.
    + exact E.
    + assert (table Sample.one_user "Resume" = []) as Et by (vm_compute; reflexivity).
      rewrite Et in Hr0. by apply elem_of_nil in Hr0.
Defined.

(** *** The optional relation from User to IndustryInsight *)

Lemma industry_key_declared : industry_key ∈ foreign_keys Schema.User.
Proof. by_computation. Qed.

Lemma with_insight_reachable : reachable Schema.schema Sample.with_insight.
Proof.
  eapply rtc_l; [|apply rtc_refl].
  apply create_step. vm_compute. reflexivity.
Defined.

Lemma staffed_reachable : reachable Schema.schema Cases.staffed.
Proof.
  eapply rtc_r; [apply with_insight_reachable|].
  apply create_step. vm_compute. reflexivity.
Defined.

(** X4: in every reachable state the [industry] of a User is null or the
    [industry] of an IndustryInsight row. *)
Theorem user_industry_resolves d u :
  reachable Schema.schema d → u ∈ table d "User" →
  u !! "industry" = Some VNull
  ∨ ∃ s i, u !! "industry" = Some (VString s)
           ∧ i ∈ table d "IndustryInsight"
           ∧ i !! "industry" = Some (VString s).
Proof.
  intros Hd%(reachable_consistent _ schema_well_formed) Hu.
  destruct (rows_typed _ _ Hd Schema.User u User_declared Hu
              (Field "industry" TString Optional []) ltac:(by_computation))
    as (v & Hv & Hok).
  simpl in Hv. destruct v; try done; [by left|right].
  destruct (reference_resolves _ d Schema.User industry_key u s Hd User_declared
              industry_key_declared Hu Hv) as (i & Hi & His).
  by exists s, i.
Qed.

Lemma user_industry_resolves_witness :
  ∃ s i, Sample.nth_row (table Cases.staffed "User") 0 !! "industry"
         = Some (VString s)
         ∧ i ∈ table Cases.staffed "IndustryInsight"
         ∧ i !! "industry" = Some (VString s).
Proof.
  destruct (user_industry_resolves Cases.staffed
              (Sample.nth_row (table Cases.staffed "User") 0) staffed_reachable)
    as [Hnull|H].
  - apply nth_row_elem. vm_compute. reflexivity.
  - exfalso.
    assert (Sample.nth_row (table Cases.staffed "User") 0 !! "industry"
            = Some (VString "Software Development")) as E
      by (vm_compute; reflexivity).
    rewrite E in Hnull. discriminate Hnull.
  - exact H.
Defined.

Lemma insight_referencing :
  referencing Schema.schema "IndustryInsight" = [("User", industry_key)].
Proof. reflexivity. Qed.

Lemma user_insight_fkeys :
  fkeys_to Schema.schema "User" "IndustryInsight" = [industry_key].
Proof. reflexivity. Qed.

Lemma insight_fkeys c :
  c ≠ "User" → fkeys_to Schema.schema c "IndustryInsight" = [].
Proof.
  intros Hc. apply elem_of_nil_inv.
  intros k (M & [HM <-]%find_model_Some & Hk & Ht)%elem_of_fkeys_to.
  assert (Forall (λ M, Forall (λ k, fk_target k = "IndustryInsight" → mname M = "User")
                          (foreign_keys M)) (models Schema.schema)) as Hall
    by by_computation.
  rewrite Forall_forall in Hall. specialize (Hall M HM).
  rewrite Forall_forall in Hall. by apply Hc, (Hall k).
Qed.

Section unblocked.
Variable S : schema.
Hypothesis wf : well_formed S = true.

Lemma remove_succeeds M f k d i old :
  M ∈ models S → f ∈ unique_fields M →
  find_row f k (table d (mname M)) = Some (i, old) →
  delete_blocked S (mname M) old d = false →
  remove S (mname M) f k d
  = Ok (old, map_tables (detach_row S (mname M) old)
               (<[mname M := delete i (table d (mname M))]> d)).
Proof.
  intros HM Hf Hfind Hblk. unfold remove.
  rewrite (wf_find S wf M HM), bool_decide_eq_true_2, Hfind by done. simpl.
  assert (forallb (λ ck : string * fkey, delete_supported ck.2)
            (referencing S (mname M)) = true) as ->.
  { apply forallb_forall. intros [c k'] Hin%list_elem_of_In.
    apply elem_of_referencing in Hin as (M' & HM' & _ & Hk' & _).
    by apply (wf_fkey_actions S wf M' k'). }
  simpl. by rewrite Hblk.
Qed.

End unblocked.

(** X5: the relation from User to IndustryInsight is optional and spells
    no referential action, so deleting an IndustryInsight always succeeds
    in a reachable state: the row is removed, every User that named its
    industry has [industry] set to null and keeps its other columns, and
    every other row of the database is as before. *)
Theorem insight_delete_sets_null d f k old :
  reachable Schema.schema d →
  f ∈ unique_fields Schema.IndustryInsight →
  find_unique "IndustryInsight" f k d = Some old →
  ∃ ko d',
    old !! "industry" = Some (VString ko)
    ∧ remove Schema.schema "IndustryInsight" f k d = Ok (old, d')
    ∧ table d' "User"
      = (λ u, if bool_decide (skey "industry" u = Some ko)
              then <["industry" := VNull]> u else u) <$> table d "User"
    ∧ (∀ c, c ≠ "User" → c ≠ "IndustryInsight" → table d' c = table d c)
    ∧ (∃ i, table d "IndustryInsight" !! i = Some old
            ∧ table d' "IndustryInsight" = delete i (table d "IndustryInsight")).
Proof.
  intros Hd%(reachable_consistent _ schema_well_formed) Hf
    (i & Hfind)%find_unique_Some.
  pose proof Hfind as [Hi _]%find_row_Some.
  destruct (unique_key _ schema_well_formed Schema.IndustryInsight "industry" old
              IndustryInsight_declared ltac:(by_computation)) as [ko Hko].
  { apply (rows_typed _ _ Hd Schema.IndustryInsight old IndustryInsight_declared).
    by eapply list_elem_of_lookup_2. }
  pose proof (remove_succeeds _ schema_well_formed Schema.IndustryInsight f k d i old
                IndustryInsight_declared Hf Hfind) as Hrm.
  simpl in Hrm. specialize (Hrm eq_refl).
  exists ko, (map_tables (detach_row Schema.schema "IndustryInsight" old)
               (<["IndustryInsight" := delete i (table d "IndustryInsight")]> d)).
  split; [exact Hko|]. split; [exact Hrm|].
  destruct (remove_tables _ schema_well_formed _ _ _ _ _ _ Hrm)
    as (i' & Hfind' & Hself & Hother).
  rewrite Hfind in Hfind'. apply (inj Some) in Hfind'.
  apply (f_equal fst) in Hfind'. simpl in Hfind'. subst i'.
  split_and!.
  - rewrite Hother by done. apply list_fmap_ext. intros _ u _.
    unfold detach_row. rewrite user_insight_fkeys. simpl.
    unfold refers. simpl. by rewrite (proj2 (skey_Some _ _ _) Hko).
  - intros c Hc1 Hc2. rewrite Hother by done.
    rewrite <- (list_fmap_id (table d c)) at 2.
    apply list_fmap_ext. intros _ x _.
    unfold detach_row. by rewrite insight_fkeys.
  - by exists i.
Qed.

Lemma insight_delete_sets_null_witness :
  is_ok (remove Schema.schema "IndustryInsight" "industry" "Software Development"
           Cases.staffed) = true
  ∧ Sample.nth_row
      (table (after (remove Schema.schema "IndustryInsight" "industry"
                       "Software Development" Cases.staffed) Cases.staffed)
         "User") 0 !! "industry"
    = Some VNull.
Proof.
  pose proof (default_Some
                (find_unique "IndustryInsight" "industry" "Software Development"
                   Cases.staffed)) as Hold.
  specialize (Hold ltac:(vm_compute; reflexivity)).
  destruct (insight_delete_sets_null Cases.staffed "industry" "Software Development"
              _ staffed_reachable ltac:(by_computation) Hold)
    as (ko & d' & Hko & Hrm & Husers & _).
  rewrite Hrm. split; [reflexivity|]. simpl. rewrite Husers.
  assert (ko = "Software Development") as ->.
  { assert (default ∅ (find_unique "IndustryInsight" "industry"
                         "Software Development" Cases.staffed) !! "industry"
            = Some (VString "Software Development")) as E
      by (vm_compute; reflexivity).
    rewrite E in Hko. apply (inj Some) in Hko.
    injection Hko as <-. reflexivity. }
  vm_compute. reflexivity.
Defined.

(** *** Changing a referenced key *)

Lemma link_single c f t g :
  (c, f, t, g) ∈ links Schema.schema →
  ∃ fk, fkeys_to Schema.schema c t = [fk]
        ∧ fk_field fk = f ∧ fk_ref fk = g ∧ on_update fk = Cascade ∧ c ≠ t.
Proof.
  rewrite links_declared. intros H.
  repeat (apply elem_of_cons in H as [[= -> -> -> ->]|H]);
    [..|by apply elem_of_nil in H];
    eexists; (split; [reflexivity|]); done.
Qed.

Lemma retarget_single (old new : gmap string value) fk ko kn (x : gmap string value) :
  on_update fk = Cascade →
  skey (fk_ref fk) old = Some ko → skey (fk_ref fk) new = Some kn →
  retarget_with old new [fk] x
  = if bool_decide (skey (fk_field fk) x = Some ko)
    then <[fk_field fk := VString kn]> x else x.
Proof.
  intros Hc Hko Hkn. simpl. unfold follows, rekeyed, refers.
  rewrite Hc, Hko, Hkn.
  destruct (bool_decide (skey (fk_field fk) x = Some ko)) eqn:Ex;
    [|by rewrite andb_false_r].
  rewrite andb_true_r. apply bool_decide_eq_true in Ex.
  case_bool_decide as Hne; [done|].
  injection Hne as <-.
  symmetry. apply insert_id. by apply skey_Some.
Qed.

(** X6: no relation spells [onUpdate], so a change of a referenced key
    cascades: when an update of a User or an IndustryInsight succeeds in a
    reachable state, every row that named the old key in the column of a
    relation names the new key, and the rest of that table is as it was. *)
Theorem key_change_cascades c f t g d now wf wk data new d' :
  (c, f, t, g) ∈ links Schema.schema →
  reachable Schema.schema d →
  update Schema.schema now t wf wk data d = Ok (new, d') →
  ∃ old ko kn,
    find_unique t wf wk d = Some old
    ∧ old !! g = Some (VString ko) ∧ new !! g = Some (VString kn)
    ∧ table d' c
      = (λ x, if bool_decide (skey f x = Some ko)
              then <[f := VString kn]> x else x) <$> table d c.
Proof.
  intros Hlink Hd%(reachable_consistent _ schema_well_formed) Hu.
  destruct (link_single _ _ _ _ Hlink) as (fk & Hfks & Ef & Eg & Hcas & Hne).
  apply elem_of_links in Hlink as (M & k & HM & Hk & _ & _ & Et & Ek).
  destruct (wf_fkey_target _ schema_well_formed M k HM Hk)
    as (P & HP & EP & _ & Hg & _).
  rewrite Ek in Hg. rewrite Et in EP. clear M k HM Hk Et Ek.
  pose proof (update_consistent _ schema_well_formed _ _ _ _ _ _ _ _ Hd Hu) as Hd'.
  destruct (update_tables _ schema_well_formed _ _ _ _ _ _ _ _ Hu)
    as (i & old & Hfind & Hself & Hother).
  pose proof Hfind as [Hi _]%find_row_Some.
  destruct (unique_key _ schema_well_formed P g old HP Hg) as [ko Hko].
  { apply (rows_typed _ _ Hd P old HP). rewrite EP.
    by eapply list_elem_of_lookup_2. }
  destruct (unique_key _ schema_well_formed P g new HP Hg) as [kn Hkn].
  { apply (rows_typed _ _ Hd' P new HP). rewrite EP, Hself.
    eapply list_elem_of_lookup_2, list_lookup_insert_eq. by eapply lookup_lt_Some. }
  exists old, ko, kn. split; [|split; [done|split; [done|]]].
  { unfold find_unique. by rewrite Hfind. }
  rewrite Hother by done. apply list_fmap_ext. intros _ x _.
  unfold retarget_row. rewrite Hfks.
  rewrite (retarget_single old new fk ko kn x Hcas); [by rewrite Ef|..];
    rewrite Eg; by apply skey_Some.
Qed.

Lemma key_change_cascades_witness :
  Sample.nth_row
    (table (after (update Schema.schema 9 "IndustryInsight" "industry"
                     "Software Development" Cases.retitle Cases.staffed)
              Cases.staffed) "User") 0 !! "industry"
  = Some (VString "Software Engineering").
Proof.
  pose proof (returned_after
                (update Schema.schema 9 "IndustryInsight" "industry"
                   "Software Development" Cases.retitle Cases.staffed)
                Cases.staffed) as Hu.
  specialize (Hu ltac:(vm_compute; reflexivity)).
  destruct (key_change_cascades "User" "industry" "IndustryInsight" "industry"
              Cases.staffed 9 "industry" "Software Development" Cases.retitle _ _
              ltac:(by_computation) staffed_reachable Hu)
    as (old & ko & kn & Hold & Hko & Hkn & Husers).
  rewrite Husers.
  assert (find_unique "IndustryInsight" "industry" "Software Development"
            Cases.staffed
          = Some (default ∅ (find_unique "IndustryInsight" "industry"
                               "Software Development" Cases.staffed))) as E
    by (apply default_Some; vm_compute; reflexivity).
  rewrite E in Hold. apply (inj Some) in Hold. subst old.
  assert (default ∅ (find_unique "IndustryInsight" "industry"
                       "Software Development" Cases.staffed) !! "industry"
          = Some (VString "Software Development")) as E1
    by (vm_compute; reflexivity).
  rewrite E1 in Hko. apply (inj Some) in Hko. injection Hko as <-.
  assert (returned (update Schema.schema 9 "IndustryInsight" "industry"
                      "Software Development" Cases.retitle Cases.staffed)
            !! "industry" = Some (VString "Software Engineering")) as E2
    by (vm_compute; reflexivity).
  rewrite E2 in Hkn. apply (inj Some) in Hkn. injection Hkn as <-.
  vm_compute. reflexivity.
Defined.

(** *** Deleting a row that nothing refers to *)

Lemma detach_with_unreferred old ks (x : gmap string value) :
  (∀ k, k ∈ ks → refers k old x = false) → detach_with old ks x = x.
Proof.
  induction ks as [|k ks IH]; intros H; simpl; [done|].
  rewrite IH by (intros ? ?; by apply H, list_elem_of_further).
  rewrite (H k) by apply list_elem_of_here. by destruct (on_delete k).
Qed.

Section unreferred.
Variable S : schema.
Hypothesis wf : well_formed S = true.

Lemma referred_refers m old d c k x :
  referred S m old d = false → k ∈ fkeys_to S c m → x ∈ table d c →
  refers k old x = false.
Proof.
  intros Hr (M & [HM <-]%find_model_Some & Hk & Ht)%elem_of_fkeys_to Hx.
  assert ((mname M, k) ∈ referencing S m) as Hin.
  { apply elem_of_referencing. by exists M. }
  pose proof (existsb_elem _ _ _ Hr Hin) as H. simpl in H.
  by apply (existsb_elem _ _ _ H).
Qed.

Lemma referred_blocked m old d :
  referred S m old d = false → delete_blocked S m old d = false.
Proof.
  intros Hr. unfold delete_blocked.
  destruct (existsb _ (referencing S m)) eqn:E; [|done].
  apply existsb_exists in E as ([c k] & Hin%list_elem_of_In & H). simpl in H.
  pose proof (existsb_elem _ _ _ Hr Hin) as H'. simpl in H'.
  rewrite H' in H. by destruct (on_delete k).
Qed.

Lemma remove_unreferred M f k d i old :
  M ∈ models S → f ∈ unique_fields M →
  find_row f k (table d (mname M)) = Some (i, old) →
  referred S (mname M) old d = false →
  ∃ d', remove S (mname M) f k d = Ok (old, d')
    ∧ table d' (mname M) = delete i (table d (mname M))
    ∧ ∀ c, c ≠ mname M → table d' c = table d c.
Proof.
  intros HM Hf Hfind Hr.
  pose proof (remove_succeeds S wf M f k d i old HM Hf Hfind
                (referred_blocked _ _ _ Hr)) as Hrm.
  eexists. split; [exact Hrm|].
  destruct (remove_tables S wf _ _ _ _ _ _ Hrm) as (i' & Hfind' & Hself & Hother).
  rewrite Hfind in Hfind'. injection Hfind' as <-.
  split; [exact Hself|].
  intros c Hc. rewrite Hother by done.
  rewrite <- (list_fmap_id (table d c)) at 2.
  apply list_fmap_ext. intros j x Hx. simpl.
  apply detach_with_unreferred. intros k' Hk'.
  apply (referred_refers (mname M) old d c); [done..|].
  by eapply list_elem_of_lookup_2.
Qed.

End unreferred.

(** X7: deleting a row that no row of the database refers to succeeds:
    the row found under the key is returned and removed from its table, and
    every other row of the database is as before. *)
Theorem unreferred_row_deleted M f k d old :
  M ∈ models Schema.schema → f ∈ unique_fields M →
  find_unique (mname M) f k d = Some old →
  referred Schema.schema (mname M) old d = false →
  ∃ i d', remove Schema.schema (mname M) f k d = Ok (old, d')
    ∧ table d (mname M) !! i = Some old
    ∧ table d' (mname M) = delete i (table d (mname M))
    ∧ ∀ c, c ≠ mname M → table d' c = table d c.
Proof.
  intros HM Hf (i & Hfind)%find_unique_Some Hr.
  destruct (remove_unreferred _ schema_well_formed M f k d i old HM Hf Hfind Hr)
    as (d' & Hrm & Hself & Hother).
  exists i, d'. split_and!; try done. by apply find_row_Some in Hfind as [? _].
Qed.

Lemma unreferred_row_deleted_witness :
  is_ok (remove Schema.schema "User" "id" "u2" Sample.with_resume) = true
  ∧ table (after (remove Schema.schema "User" "id" "u2" Sample.with_resume)
             Sample.with_resume) "Resume"
    = table Sample.with_resume "Resume"
  ∧ length (table (after (remove Schema.schema "User" "id" "u2" Sample.with_resume)
                     Sample.with_resume) "User") = 1%nat.
Proof.
  pose proof (default_Some (find_unique "User" "id" "u2" Sample.with_resume)) as Hold.
  specialize (Hold ltac:(vm_compute; reflexivity)).
  destruct (unreferred_row_deleted Schema.User "id" "u2" Sample.with_resume _
              User_declared ltac:(by_computation) Hold
              ltac:(vm_compute; reflexivity))
    as (i & d' & Hrm & Hi & Hself & Hother).
  change (mname Schema.User) with "User" in *. rewrite Hrm.
  split; [reflexivity|]. split; [by apply Hother|].
  change (after (Ok (?r, ?x)) _) with x.
  rewrite Hself, length_delete by (rewrite Hi; eauto).
  assert (length (table Sample.with_resume "User") = 2%nat) as ->
    by (vm_compute; reflexivity).
  reflexivity.
Defined.

(** *** A key that no row holds *)

(** X8: when [findUnique] finds no row under a key of an [@id] or
    [@unique] column, no row of the table holds the key, and an update or a
    delete addressed to it fails with the record-not-found error and
    changes nothing. *)
Theorem missing_row M f k d :
  M ∈ models Schema.schema → f ∈ unique_fields M →
  find_unique (mname M) f k d = None →
  (k ∉ keys f (table d (mname M)))
  ∧ remove Schema.schema (mname M) f k d = Err RecordNotFound
  ∧ ∀ now data, changes_fit Schema.schema M data = true →
      update Schema.schema now (mname M) f k data d = Err RecordNotFound.
Proof.
  intros HM Hf Hnone.
  assert (find_row f k (table d (mname M)) = None) as Hfind.
  { unfold find_unique in Hnone. by destruct (find_row f k _). }
  split; [by apply find_row_None|]. split.
  - unfold remove.
    by rewrite (wf_find _ schema_well_formed M HM), bool_decide_eq_true_2, Hfind.
  - intros now data [Hk _]%andb_true_iff. unfold update.
    by rewrite (wf_find _ schema_well_formed M HM), bool_decide_eq_true_2, Hk, Hfind.
Qed.

Lemma missing_row_witness :
  remove Schema.schema "User" "email" "carol@example.com" Sample.two_users
  = Err RecordNotFound
  ∧ update Schema.schema 9 "User" "email" "carol@example.com" Sample.rename
      Sample.two_users
    = Err RecordNotFound.
Proof.
  destruct (missing_row Schema.User "email" "carol@example.com" Sample.two_users
              User_declared ltac:(by_computation) ltac:(vm_compute; reflexivity))
    as (_ & Hrm & Hup).
  split; [exact Hrm|]. apply Hup. vm_compute. reflexivity.
Defined.

(** *** Requests that do not fit the schema *)

Section requests.
Variable S : schema.
Hypothesis wf : well_formed S = true.

Lemma new_value_Err now gen data f e :
  new_value S now gen data f = Err e → e = ValidationError.
Proof.
  unfold new_value. destruct (data !! fname f) as [v|].
  - unfold accept. destruct (_ && _); [done|]. by intros [= <-].
  - destruct (field_default f); [done|]. destruct (is_updatedAt f); [done|].
    destruct (farity f); try done. by intros [= <-].
Qed.

Lemma build_row_fails now gen fs data fld :
  fld ∈ fs → is_ok (new_value S now gen data fld) = false →
  build_row S now gen fs data = Err ValidationError.
Proof.
  induction fs as [|f fs IH]; intros Hin Hbad; [by apply elem_of_nil in Hin|].
  simpl. destruct (new_value S now gen data f) as [v|e] eqn:E; simpl.
  - apply elem_of_cons in Hin as [->|Hin]; [by rewrite E in Hbad|].
    by rewrite IH.
  - by apply new_value_Err in E as ->.
Qed.

Lemma update_row_Err now fs data old e :
  update_row S now fs data old = Err e → e = ValidationError.
Proof.
  induction fs as [|f fs IH]; simpl; [done|].
  destruct (update_row S now fs data old) as [r|e'] eqn:E; simpl.
  - destruct (data !! fname f) as [v|].
    + unfold accept. destruct (_ && _); [done|]. by intros [= <-].
    + by destruct (is_updatedAt f && touched data).
  - intros [= <-]. by apply IH.
Qed.

Lemma update_row_fails now fs data old fld v :
  fld ∈ fs → data !! fname fld = Some v → is_ok (accept S fld v) = false →
  update_row S now fs data old = Err ValidationError.
Proof.
  induction fs as [|f fs IH]; intros Hin Hv Hbad; [by apply elem_of_nil in Hin|].
  simpl. destruct (update_row S now fs data old) as [r|e] eqn:E; simpl.
  - apply elem_of_cons in Hin as [<-|Hin].
    { rewrite Hv. destruct (accept S fld v) as [w|e] eqn:Ea; [done|].
      simpl. f_equal. revert Ea. unfold accept.
      destruct (_ && _); [done|]. by intros [= <-]. }
    specialize (IH Hin Hv Hbad). congruence.
  - by apply update_row_Err in E as ->.
Qed.

Lemma create_unprepared now gen M data d fld :
  M ∈ models S → fld ∈ mfields M →
  is_ok (new_value S now gen data fld) = false →
  create S now gen (mname M) data d = Err ValidationError.
Proof.
  intros HM Hfld Hbad. unfold create, prepare. rewrite (wf_find S wf M HM).
  destruct (data_known M data); simpl; [|done].
  by rewrite (build_row_fails now gen _ data fld).
Qed.

Lemma update_unfit now M wf' wk data d fld v :
  M ∈ models S → fld ∈ mfields M →
  data !! fname fld = Some v → is_ok (accept S fld v) = false →
  update S now (mname M) wf' wk data d = Err ValidationError
  ∨ (update S now (mname M) wf' wk data d = Err RecordNotFound
     ∧ find_unique (mname M) wf' wk d = None).
Proof.
  intros HM Hfld Hv Hbad. unfold update, find_unique.
  rewrite (wf_find S wf M HM).
  destruct (bool_decide (wf' ∈ unique_fields M)); simpl; [|by left].
  destruct (data_known M data); simpl; [|by left].
  destruct (find_row wf' wk (table d (mname M))) as [[i old]|]; [|by right].
  left. by rewrite (update_row_fails now _ data old fld v).
Qed.

Lemma misfit_refused f v : misfit S f v = true → is_ok (accept S f v) = false.
Proof.
  unfold misfit, accept, coerce, value_ok.
  destruct v as [|s|z|x|t|c|j|l], (ftype f) as [| | | | |e] eqn:Et,
    (farity f) eqn:Ea; simpl; try done;
    try (by intros ?%bool_decide_eq_true);
    try (by intros ->%negb_true_iff);
    try (intros ->%negb_true_iff; by rewrite ?andb_false_r).
Qed.

End requests.

(** X9: a create that leaves out a required column that has neither a
    default nor [@updatedAt] fails as a request that does not fit the
    schema, and nothing is written. *)
Theorem required_column_missing M fld now gen data d :
  M ∈ models Schema.schema → fld ∈ mfields M →
  farity fld = Required → field_default fld = None → is_updatedAt fld = false →
  data !! fname fld = None →
  create Schema.schema now gen (mname M) data d = Err ValidationError
  ∧ after (create Schema.schema now gen (mname M) data d) d = d.
Proof.
  intros HM Hfld Har Hdef Hup Hdata.
  assert (create Schema.schema now gen (mname M) data d = Err ValidationError) as E.
  { apply (create_unprepared _ schema_well_formed now gen M data d fld HM Hfld).
    unfold new_value. by rewrite Hdata, Hdef, Hup, Har. }
  by rewrite E.
Qed.

Lemma required_column_missing_witness :
  create Schema.schema 2 "u4" "User" Cases.anonymous Sample.one_user
  = Err ValidationError.
Proof.
  refine (proj1 (required_column_missing Schema.User
                   (Field "email" TString Required [AttrUnique]) 2 "u4"
                   Cases.anonymous Sample.one_user User_declared _ _ _ _ _));
    [by_computation|reflexivity..].
Defined.

(** X10: a create or an update that supplies, for a column, null where
    the column is required, a name that is not a value of the column's
    enum, an integer beyond the range of an [Int] column, a text for a
    number, or a text with the character U+0000 for a [String] column,
    fails as a request that does not fit the schema; an update addressed to
    a row that does not exist may report that instead.  Nothing is
    written. *)
Theorem ill_typed_value_refused M fld v data d :
  M ∈ models Schema.schema → fld ∈ mfields M →
  data !! fname fld = Some v → misfit Schema.schema fld v = true →
  (∀ now gen,
     create Schema.schema now gen (mname M) data d = Err ValidationError)
  ∧ (∀ now wf wk,
       update Schema.schema now (mname M) wf wk data d = Err ValidationError
       ∨ (update Schema.schema now (mname M) wf wk data d = Err RecordNotFound
          ∧ find_unique (mname M) wf wk d = None)).
Proof.
  intros HM Hfld Hv Hbad%(misfit_refused Schema.schema). split.
  - intros now gen.
    apply (create_unprepared _ schema_well_formed now gen M data d fld HM Hfld).
    unfold new_value. by rewrite Hv.
  - intros now wf wk.
    by apply (update_unfit _ schema_well_formed now M wf wk data d fld v).
Qed.

Lemma ill_typed_value_refused_witness :
  create Schema.schema 1 "i1" "IndustryInsight" Cases.overheated ∅
  = Err ValidationError.
Proof.
  refine (proj1 (ill_typed_value_refused Schema.IndustryInsight
                   (Field "demandLevel" (TEnum "DemandLevel") Required [])
                   (VEnum "EXTREME") Cases.overheated ∅
                   IndustryInsight_declared _ _ _) 1 "i1");
    [by_computation|reflexivity..].
Defined.

(** *** What the rows of a reachable state hold *)

Lemma value_ok_required S fld v :
  value_ok S fld v = true → farity fld = Required → v ≠ VNull.
Proof.
  unfold value_ok. intros H Ea ->. rewrite Ea in H. by destruct (ftype fld).
Qed.

Lemma value_ok_int S fld z :
  value_ok S fld (VInt z) = true → (int_min ≤ z ≤ int_max)%Z.
Proof.
  unfold value_ok, fits_int.
  destruct (farity fld); [| |done]; destruct (ftype fld); try done;
    intros [H1%Z.leb_le H2%Z.leb_le]%andb_true_iff; lia.
Qed.

Lemma value_ok_enum S fld e v :
  value_ok S fld v = true → ftype fld = TEnum e → farity fld = Required →
  ∃ s, v = VEnum s ∧ s ∈ enum_values S e.
Proof.
  unfold value_ok. intros H Et Ea. rewrite Ea, Et in H.
  destruct v; try done. apply bool_decide_eq_true in H. eauto.
Qed.

(** X11: in every reachable state every row holds, in every column its
    model declares, a value of the declared type: a required column is
    never null, and a number in an [Int] column lies within the range of a
    four-byte integer. *)
Theorem rows_fit_schema M d r fld :
  M ∈ models Schema.schema → reachable Schema.schema d →
  r ∈ table d (mname M) → fld ∈ mfields M →
  ∃ v, r !! fname fld = Some v
       ∧ value_ok Schema.schema fld v = true
       ∧ (farity fld = Required → v ≠ VNull)
       ∧ (∀ z, v = VInt z → (-2147483648 ≤ z ≤ 2147483647)%Z).
Proof.
  intros HM Hd%(reachable_consistent _ schema_well_formed) Hr Hfld.
  destruct (rows_typed _ _ Hd M r HM Hr fld Hfld) as (v & Hv & Hok).
  exists v. split_and!; try done.
  - by apply (value_ok_required Schema.schema).
  - intros z ->. by apply (value_ok_int Schema.schema fld).
Qed.

Lemma rows_fit_schema_witness :
  ∃ v, Sample.alice_row !! "tokens" = Some v
       ∧ v ≠ VNull
       ∧ (∀ z, v = VInt z → (-2147483648 ≤ z ≤ 2147483647)%Z).
Proof.
  destruct (rows_fit_schema Schema.User Sample.one_user Sample.alice_row
              (Field "tokens" TInt Required [AttrDefault (DefaultInt 10000)])
              User_declared one_user_reachable)
    as (v & Hv & _ & Hnull & Hint).
  - apply nth_row_elem. vm_compute. reflexivity.
  - by_computation.
  - exists v. split; [exact Hv|]. split; [by apply Hnull|exact Hint].
Defined.

(** X12: in every reachable state the [status] of a Payment is PENDING,
    COMPLETED or FAILED, the [demandLevel] of an IndustryInsight is HIGH,
    MEDIUM or LOW, and its [marketOutlook] is POSITIVE, NEUTRAL or
    NEGATIVE. *)
Theorem enum_columns d :
  reachable Schema.schema d →
  (∀ p, p ∈ table d "Payment" →
     ∃ s, p !! "status" = Some (VEnum s) ∧ s ∈ ["PENDING"; "COMPLETED"; "FAILED"])
  ∧ (∀ i, i ∈ table d "IndustryInsight" →
       (∃ s, i !! "demandLevel" = Some (VEnum s) ∧ s ∈ ["HIGH"; "MEDIUM"; "LOW"])
       ∧ (∃ s, i !! "marketOutlook" = Some (VEnum s)
               ∧ s ∈ ["POSITIVE"; "NEUTRAL"; "NEGATIVE"])).
Proof.
  intros Hd%(reachable_consistent _ schema_well_formed). split.
  - intros p Hp.
    destruct (rows_typed _ _ Hd Schema.Payment p ltac:(by_computation) Hp
                (Field "status" (TEnum "PaymentStatus") Required
                   [AttrDefault (DefaultEnum "PENDING")]) ltac:(by_computation))
      as (v & Hv & Hok).
    destruct (value_ok_enum _ _ "PaymentStatus" v Hok eq_refl eq_refl) as (s & -> & Hs).
    by exists s.
  - intros i Hi. split.
    + destruct (rows_typed _ _ Hd Schema.IndustryInsight i IndustryInsight_declared Hi
                  (Field "demandLevel" (TEnum "DemandLevel") Required [])
                  ltac:(by_computation)) as (v & Hv & Hok).
      destruct (value_ok_enum _ _ "DemandLevel" v Hok eq_refl eq_refl) as (s & -> & Hs).
      by exists s.
    + destruct (rows_typed _ _ Hd Schema.IndustryInsight i IndustryInsight_declared Hi
                  (Field "marketOutlook" (TEnum "MarketOutlook") Required [])
                  ltac:(by_computation)) as (v & Hv & Hok).
      destruct (value_ok_enum _ _ "MarketOutlook" v Hok eq_refl eq_refl)
        as (s & -> & Hs).
      by exists s.
Qed.

Lemma enum_columns_witness :
  ∃ s, Sample.nth_row (table Sample.with_insight "IndustryInsight") 0 !! "demandLevel"
       = Some (VEnum s)
       ∧ s ∈ ["HIGH"; "MEDIUM"; "LOW"].
Proof.
  destruct (enum_columns Sample.with_insight with_insight_reachable) as [_ H].
  refine (proj1 (H (Sample.nth_row (table Sample.with_insight "IndustryInsight") 0) _)).
  apply nth_row_elem. vm_compute. reflexivity.
Defined.

(** *** Columns a create leaves out *)

Lemma optional_columns_plain M fld :
  M ∈ models Schema.schema → fld ∈ mfields M → farity fld = Optional →
  field_default fld = None ∧ is_updatedAt fld = false.
Proof.
  intros HM Hfld.
  assert (Forall (λ M, Forall (λ fld, farity fld = Optional →
                                 field_default fld = None ∧ is_updatedAt fld = false)
                          (mfields M)) (models Schema.schema)) as Hall
    by by_computation.
  rewrite Forall_forall in Hall. specialize (Hall M HM).
  rewrite Forall_forall in Hall. by apply Hall.
Qed.

(** X13: no optional column of the schema has a default, so a successful
    create stores null in every optional column it is given no value
    for. *)
Theorem omitted_optional_is_null M fld now gen data d r d' :
  M ∈ models Schema.schema → fld ∈ mfields M → farity fld = Optional →
  create Schema.schema now gen (mname M) data d = Ok (r, d') →
  data !! fname fld = None →
  r !! fname fld = Some VNull.
Proof.
  intros HM Hfld Har Hc Hdata.
  destruct (optional_columns_plain M fld HM Hfld Har) as [Hdef Hup].
  destruct (create_value _ schema_well_formed now gen M data d r d' fld HM Hfld Hc)
    as (v & Hv & ->).
  unfold new_value in Hv. rewrite Hdata, Hdef, Hup, Har in Hv. by inversion Hv.
Qed.

Lemma omitted_optional_is_null_witness :
  returned (create Schema.schema 1 "u1" "User" Sample.alice ∅) !! "industry"
  = Some VNull.
Proof.
  pose proof (returned_after (create Schema.schema 1 "u1" "User" Sample.alice ∅) ∅)
    as Hc.
  specialize (Hc ltac:(vm_compute; reflexivity)).
  pose proof (omitted_optional_is_null Schema.User
                (Field "industry" TString Optional []) 1 "u1" Sample.alice ∅ _ _
                User_declared ltac:(by_computation) eq_refl Hc
                ltac:(vm_compute; reflexivity)) as H.
  exact H.
Defined.

(** *** The outcomes of a create *)

Section outcomes.
Variable S : schema.
Hypothesis wf : well_formed S = true.




Lemma prepare_Err now gen m data e :
  prepare S now gen m data = Err e → e = ValidationError.
Proof.
  unfold prepare. destruct (find_model S m) as [M|]; [|by intros [= <-]].
  destruct (data_known M data); simpl; [|by intros [= <-]].
  destruct (build_row S now gen (mfields M) data) as [r|e'] eqn:E; [done|].
  intros [= <-].
  destruct (forallb (λ fld, is_ok (new_value S now gen data fld)) (mfields M)) eqn:Ef.
  - assert (is_ok (build_row S now gen (mfields M) data) = true) as H.
    { apply build_row_succeeds. intros fld Hfld. by apply (forallb_elem _ _ _ Ef). }
    by rewrite E in H.
  - apply forallb_false_elem in Ef as (fld & Hfld & Hbad).
    rewrite (build_row_fails S now gen _ data fld Hfld Hbad) in E. congruence.
Qed.

End outcomes.



(** *** Updates *)

Lemma elem_of_delete_other {A} (l : list A) i j x :
  l !! j = Some x → j ≠ i → x ∈ delete i l.
Proof.
  intros Hj Hne. destruct (decide (j < i)%nat) as [Hlt|Hge].
  - eapply list_elem_of_lookup_2. by rewrite list_lookup_delete_lt.
  - destruct j as [|j]; [lia|].
    eapply (list_elem_of_lookup_2 _ j). rewrite list_lookup_delete_ge by lia. done.
Qed.

Section updates.
Variable S : schema.
Hypothesis wf : well_formed S = true.

Lemma changes_fit_spec M data :
  changes_fit S M data = true →
  data_known M data = true
  ∧ ∀ fld v, fld ∈ mfields M → data !! fname fld = Some v →
      is_ok (accept S fld v) = true.
Proof.
  intros [Hk Hv]%andb_true_iff. split; [done|].
  intros fld v Hfld Hdata. pose proof (forallb_elem _ _ _ Hv Hfld) as H.
  simpl in H. by rewrite Hdata in H.
Qed.

Lemma update_duplicate now M f k g s data d i old j other :
  M ∈ models S → f ∈ unique_fields M → g ∈ unique_fields M →
  find_row f k (table d (mname M)) = Some (i, old) →
  table d (mname M) !! j = Some other → j ≠ i → skey g other = Some s →
  changes_fit S M data = true → data !! g = Some (VString s) →
  update S now (mname M) f k data d = Err UniqueConstraint.
Proof.
  intros HM Hf Hg Hfind Hj Hne Hs [Hk Hv]%changes_fit_spec Hdata. unfold update.
  rewrite (wf_find S wf M HM), bool_decide_eq_true_2, Hk, Hfind by done. simpl.
  pose proof (update_row_succeeds S now (mfields M) data old Hv) as Hok.
  destruct (update_row S now (mfields M) data old) as [new|] eqn:Erow; [|done].
  simpl.
  assert (unique_ok M (delete i (table d (mname M))) new = false) as ->; [|done].
  apply (forallb_false _ _ g Hg).
  pose proof (wf_unique S wf M g HM Hg) as (fld & Hfld & <- & Et & _)%column_is_spec.
  apply update_row_lookup in Erow as (Hnew & _); [|by apply (wf_fields S wf)].
  assert (skey (fname fld) new = Some s) as ->.
  { apply skey_Some. rewrite (Hnew fld Hfld). unfold updated_value.
    by rewrite Hdata, (coerce_text fld s Et). }
  apply bool_decide_eq_false. intros Hno. apply Hno.
  apply elem_of_keys. exists other. split; [|done].
  by apply (elem_of_delete_other _ i j).
Qed.

End updates.

(** X15: an update that gives a row, in an [@id] or [@unique] column, a
    key that another row of the table holds fails on the unique constraint
    and changes nothing. *)
Theorem update_keeps_unique M f k g s d old other data now :
  M ∈ models Schema.schema → f ∈ unique_fields M → g ∈ unique_fields M →
  find_unique (mname M) f k d = Some old →
  find_unique (mname M) g s d = Some other →
  old !! g ≠ Some (VString s) →
  changes_fit Schema.schema M data = true → data !! g = Some (VString s) →
  update Schema.schema now (mname M) f k data d = Err UniqueConstraint
  ∧ after (update Schema.schema now (mname M) f k data d) d = d.
Proof.
  intros HM Hf Hg (i & Hfind)%find_unique_Some (j & Hother)%find_unique_Some
    Hdiff Hfit Hdata.
  apply find_row_Some in Hother as [Hj Hs].
  assert (j ≠ i) as Hne.
  { intros ->. apply find_row_Some in Hfind as [Hi _].
    rewrite Hi in Hj. injection Hj as ->. by apply Hdiff, skey_Some. }
  pose proof (update_duplicate _ schema_well_formed now M f k g s data d i old j other
                HM Hf Hg Hfind Hj Hne Hs Hfit Hdata) as E.
  by rewrite E.
Qed.

Lemma update_keeps_unique_witness :
  update Schema.schema 9 "User" "id" "u2" Cases.takeover Sample.two_users
  = Err UniqueConstraint.
Proof.
  pose proof (default_Some (find_unique "User" "id" "u2" Sample.two_users)) as Hold.
  specialize (Hold ltac:(vm_compute; reflexivity)).
  pose proof (default_Some
                (find_unique "User" "email" "alice@example.com" Sample.two_users))
    as Hother.
  specialize (Hother ltac:(vm_compute; reflexivity)).
  refine (proj1 (update_keeps_unique Schema.User "id" "u2" "email"
                   "alice@example.com" Sample.two_users _ _ Cases.takeover 9
                   User_declared _ _ Hold Hother _ _ _)).
  - by_computation.
  - by_computation.
  - assert (default ∅ (find_unique "User" "id" "u2" Sample.two_users) !! "email"
            = Some (VString "bob@example.com")) as E by (vm_compute; reflexivity).
    rewrite E. discriminate.
  - vm_compute. reflexivity.
  - vm_compute. reflexivity.
Defined.

(** X16: a successful update that writes no referenced key ([id] of a
    User, [industry] of an IndustryInsight) changes one row and nothing
    else: the row found under the key is replaced by the returned row,
    which keeps every column that the request leaves out and that is not
    [@updatedAt], and every other table is as before. *)
Theorem update_changes_one_row M f k data d now r d' :
  M ∈ models Schema.schema →
  update Schema.schema now (mname M) f k data d = Ok (r, d') →
  (∀ c fc g, (c, fc, mname M, g) ∈ links Schema.schema → data !! g = None) →
  ∃ i old,
    find_unique (mname M) f k d = Some old
    ∧ table d (mname M) !! i = Some old
    ∧ table d' (mname M) = <[i := r]> (table d (mname M))
    ∧ (∀ c, c ≠ mname M → table d' c = table d c)
    ∧ (∀ fld, fld ∈ mfields M → data !! fname fld = None →
         is_updatedAt fld = false → r !! fname fld = old !! fname fld).
Proof.
  intros HM Hu Hkeys.
  destruct (update_tables _ schema_well_formed _ _ _ _ _ _ _ _ Hu)
    as (i & old & Hfind & Hself & _).
  assert (find_unique (mname M) f k d = Some old) as Hold.
  { unfold find_unique. by rewrite Hfind. }
  exists i, old. split; [done|]. split; [by apply find_row_Some in Hfind as [? _]|].
  split; [done|]. split.
  - apply (update_other_tables _ schema_well_formed now (mname M) f k data d r d' Hu).
    intros c fk (C & HC & <- & Hfk & Et)%elem_of_referencing.
    apply (Hkeys (mname C) (fk_field fk)). apply elem_of_links. by exists C, fk.
  - intros fld Hfld Hdata Hup.
    rewrite (update_value _ schema_well_formed now M f k data d old r d' fld
               HM Hfld Hold Hu).
    unfold updated_value. by rewrite Hdata, Hup.
Qed.

Lemma update_changes_one_row_witness :
  table (after (update Schema.schema 9 "User" "id" "u1" Sample.rename
                  Sample.with_resume) Sample.with_resume) "Resume"
  = table Sample.with_resume "Resume".
Proof.
  pose proof (returned_after
                (update Schema.schema 9 "User" "id" "u1" Sample.rename
                   Sample.with_resume) Sample.with_resume) as Hu.
  specialize (Hu ltac:(vm_compute; reflexivity)).
  destruct (update_changes_one_row Schema.User "id" "u1" Sample.rename
              Sample.with_resume 9 _ _ User_declared Hu)
    as (i & old & _ & _ & _ & Hother & _).
  - intros c fc g Hl.
    assert (Forall (λ l : string * string * string * string,
                      l.1.2 = "User" → Sample.rename !! l.2 = None)
              (links Schema.schema)) as Hall by by_computation.
    rewrite Forall_forall in Hall. by apply (Hall _ Hl).
  - by apply Hother.
Defined.

(** *** When a create is accepted *)



(** *** The outcomes of a delete *)

Lemma restricting_relations C fk :
  C ∈ models Schema.schema → fk ∈ foreign_keys C →
  on_delete fk = SetNull
  ∨ (fk_target fk = "User" ∧ mname C ∈ Schema.owned
     ∧ fk_field fk = "userId" ∧ fk_ref fk = "id").
Proof.
  intros HC Hfk.
  assert (Forall (λ C, Forall (λ fk,
                     on_delete fk = SetNull
                     ∨ (fk_target fk = "User" ∧ mname C ∈ Schema.owned
                        ∧ fk_field fk = "userId" ∧ fk_ref fk = "id"))
                    (foreign_keys C)) (models Schema.schema)) as Hall
    by by_computation.
  rewrite Forall_forall in Hall. specialize (Hall C HC).
  rewrite Forall_forall in Hall. by apply Hall.
Qed.

(** X18: a delete addressed to a row that exists, by an [@id] or
    [@unique] column, has two outcomes.  It is refused on the foreign-key
    constraint only for a User, and then some Assessment, Resume,
    CoverLetter, TokenTransaction or Payment row names that User;
    otherwise it succeeds and returns the row it found. *)
Theorem delete_outcome M f k d old :
  M ∈ models Schema.schema → f ∈ unique_fields M →
  find_unique (mname M) f k d = Some old →
  match remove Schema.schema (mname M) f k d with
  | Ok (r, d') => r = old
  | Err ForeignKeyConstraint =>
    mname M = "User"
    ∧ ∃ c x u, c ∈ Schema.owned ∧ x ∈ table d c
               ∧ x !! "userId" = Some (VString u)
               ∧ old !! "id" = Some (VString u)
  | Err _ => False
  end.
Proof.
  intros HM Hf (i & Hfind)%find_unique_Some.
  destruct (delete_blocked Schema.schema (mname M) old d) eqn:Eblk.
  - assert (remove Schema.schema (mname M) f k d = Err ForeignKeyConstraint) as ->.
    { unfold remove.
      rewrite (wf_find _ schema_well_formed M HM), bool_decide_eq_true_2, Hfind
        by done.
      simpl.
      assert (forallb (λ ck : string * fkey, delete_supported ck.2)
                (referencing Schema.schema (mname M)) = true) as ->.
      { apply forallb_forall. intros [c k'] Hin%list_elem_of_In.
        apply elem_of_referencing in Hin as (M' & HM' & _ & Hk' & _).
        by apply (wf_fkey_actions _ schema_well_formed M' k'). }
      simpl. by rewrite Eblk. }
    apply existsb_exists in Eblk as ([c fk] & Hin%list_elem_of_In & Hb).
    simpl in Hb.
    apply elem_of_referencing in Hin as (C & HC & <- & Hfk & Et).
    destruct (restricting_relations C fk HC Hfk) as [Hnull|(Eu & Hown & Ef & Er)].
    { by rewrite Hnull in Hb. }
    split; [congruence|].
    assert (existsb (refers fk old) (table d (mname C)) = true) as Hex
      by (by destruct (on_delete fk)).
    apply existsb_exists in Hex as (x & Hx%list_elem_of_In & Href).
    unfold refers in Href. rewrite Ef, Er in Href.
    destruct (skey "id" old) as [u|] eqn:Eid; [|done].
    apply bool_decide_eq_true in Href.
    exists (mname C), x, u. by rewrite <- !skey_Some.
  - by rewrite (remove_succeeds _ schema_well_formed M f k d i old HM Hf Hfind Eblk).
Qed.

Lemma delete_outcome_witness :
  ∃ c x u, c ∈ Schema.owned ∧ x ∈ table Sample.with_resume c
           ∧ x !! "userId" = Some (VString u)
           ∧ default ∅ (find_unique "User" "id" "u1" Sample.with_resume) !! "id"
             = Some (VString u).
Proof.
  pose proof (default_Some (find_unique "User" "id" "u1" Sample.with_resume)) as Hold.
  specialize (Hold ltac:(vm_compute; reflexivity)).
  pose proof (delete_outcome Schema.User "id" "u1" Sample.with_resume _
                User_declared ltac:(by_computation) Hold) as H.
  assert (remove Schema.schema "User" "id" "u1" Sample.with_resume
          = Err ForeignKeyConstraint) as E by (vm_compute; reflexivity).
  change (mname Schema.User) with "User" in H. rewrite E in H.
  exact (proj2 H).
Defined.

(** *** Generated identifiers *)

Lemma id_generated M :
  M ∈ models Schema.schema →
  ∃ fld dv, fld ∈ mfields M ∧ fname fld = "id" ∧ field_default fld = Some dv
            ∧ (dv = DefaultUuid ∨ dv = DefaultCuid).
Proof.
  intros HM.
  assert (Forall (λ M, Exists (λ fld, fname fld = "id"
                                 ∧ (field_default fld = Some DefaultUuid
                                    ∨ field_default fld = Some DefaultCuid))
                          (mfields M)) (models Schema.schema)) as Hall
    by by_computation.
  rewrite Forall_forall in Hall.
  apply Hall, Exists_exists in HM as (fld & Hfld & Hn & [Hd|Hd]);
    eexists fld, _; eauto.
Qed.

(** X19: every model fills [id] from an identifier generator ([uuid()] on
    User, [cuid()] elsewhere): a successful create that supplies no [id]
    returns a row whose [id] is the generated identifier, which no row of
    the table held before, and in a reachable state the row is then found
    under it. *)
Theorem ids_are_generated M now gen data d r d' :
  M ∈ models Schema.schema →
  create Schema.schema now gen (mname M) data d = Ok (r, d') →
  data !! "id" = None →
  r !! "id" = Some (VString gen)
  ∧ (gen ∉ keys "id" (table d (mname M)))
  ∧ (reachable Schema.schema d → find_unique (mname M) "id" gen d' = Some r).
Proof.
  intros HM Hc Hdata.
  destruct (id_generated M HM) as (fld & dv & Hfld & Hn & Hdef & Hdv).
  assert (r !! "id" = Some (VString gen)) as Hid.
  { destruct (create_value _ schema_well_formed now gen M data d r d' fld HM Hfld Hc)
      as (v & Hv & Hr).
    rewrite Hn in Hr. rewrite Hr. unfold new_value in Hv.
    rewrite Hn, Hdata, Hdef in Hv. injection Hv as <-.
    by destruct Hdv as [-> | ->]. }
  split; [done|]. split.
  - pose proof Hc as (M' & HM' & En & _ & _ & Hu & _)%create_Ok.
    apply (wf_same_name _ schema_well_formed) in En as ->; [|done..].
    apply (unique_ok_spec M _ r "id" gen Hu (id_declared M HM)).
    by apply skey_Some.
  - intros Hd%(reachable_consistent _ schema_well_formed).
    destruct (create_found _ schema_well_formed now gen M data d r d' "id" Hd HM
                (id_declared M HM) Hc) as (k & Hk & Hfind).
    apply skey_Some in Hk. rewrite Hid in Hk. by injection Hk as <-.
Qed.

Lemma ids_are_generated_witness :
  returned (create Schema.schema 1 "u1" "User" Sample.alice ∅) !! "id"
  = Some (VString "u1")
  ∧ find_unique "User" "id" "u1" Sample.one_user
    = Some (returned (create Schema.schema 1 "u1" "User" Sample.alice ∅)).
Proof.
  pose proof (returned_after (create Schema.schema 1 "u1" "User" Sample.alice ∅) ∅)
    as Hc.
  specialize (Hc ltac:(vm_compute; reflexivity)).
  destruct (ids_are_generated Schema.User 1 "u1" Sample.alice ∅ _ _ User_declared Hc
              ltac:(vm_compute; reflexivity)) as (Hid & _ & Hfind).
  split; [exact Hid|]. apply Hfind. apply rtc_refl.
Defined.

End StoreLaws.

(** ** More about the declared PDF-export interface *)

Module Html2PdfLaws.
Import Html2Pdf Html2PdfFacts Calls.

(** *** Chains of calls *)

Lemma chain_snoc ns n : chain (ns ++ [n]) = chain ns ≫= (λ t, call t n).
Proof. unfold chain. by rewrite foldl_snoc. Qed.

Lemma call_builder_set : call (TRef "Html2Pdf") "set" = Some (TRef "Html2Pdf").
Proof. reflexivity. Qed.

Lemma call_builder_from : call (TRef "Html2Pdf") "from" = Some (TRef "Html2Pdf").
Proof. reflexivity. Qed.

Lemma call_returns_builder t n :
  call t n = Some (TRef "Html2Pdf") →
  t = TRef "Html2Pdf" ∧ (n = "set" ∨ n = "from").
Proof.
  destruct t as [| | | | | |i|]; try done. simpl.
  unfold find_interface, declared. simpl.
  case_bool_decide as E1; simpl.
  { unfold find_method. simpl. done. }
  case_bool_decide as E2; simpl; [|done]. subst i.
  unfold find_method. simpl.
  repeat (case_bool_decide; simpl); try done; intros _; split; auto.
Qed.

(** X20: by the declaration, a chain of method calls on the value
    [html2pdf()] returns has the builder's type exactly when every call is
    [set] or [from], in any order and number; after any such chain [save]
    can be called and gives a promise of no value. *)
Theorem builder_chains ns :
  (chain ns = Some (TRef "Html2Pdf") ↔ Forall (λ n, n = "set" ∨ n = "from") ns)
  ∧ (Forall (λ n, n = "set" ∨ n = "from") ns →
     chain (ns ++ ["save"]) = Some (TPromise TVoid)).
Proof.
  assert (chain ns = Some (TRef "Html2Pdf")
          ↔ Forall (λ n, n = "set" ∨ n = "from") ns) as Hiff.
  { induction ns as [|n ns IH] using rev_ind; [done|].
    rewrite chain_snoc, Forall_app, Forall_singleton. split.
    - destruct (chain ns) as [t|] eqn:E; [|done]. simpl.
      intros [-> Hn]%call_returns_builder. split; [by apply IH|done].
    - intros [Hns Hn]. rewrite (proj2 IH Hns). simpl.
      by destruct Hn as [->| ->]. }
  split; [done|].
  intros Hns. rewrite chain_snoc, (proj2 Hiff Hns). reflexivity.
Qed.

Lemma builder_chains_witness :
  chain ["set"; "from"; "set"] = Some (TRef "Html2Pdf")
  ∧ chain ["set"; "from"; "set"; "save"] = Some (TPromise TVoid).
Proof.
  destruct (builder_chains ["set"; "from"; "set"]) as [Hiff Hsave].
  assert (Forall (λ n, n = "set" ∨ n = "from") ["set"; "from"; "set"]) as H
    by (repeat constructor; auto).
  split; [by apply Hiff|by apply Hsave].
Defined.

End Html2PdfLaws.
